(** * Lock-free stacks of [lock_free.cpp]

    The stack classes of [src/lock_free.cpp] are embedded as small-step
    machines:

    - [lock_free_stack]              (lines 38-65),
    - [lock_free_stack_with_gc]      (lines 67-146),
    - the hazard-pointer registry and [lock_free_stack_with_hazard]
                                     (lines 153-300),
    - [lock_free_stack_rf]           (lines 302-387).

    [lock_free_stack_with_gc] and [lock_free_stack_with_hazard] have no
    [push] in the source, so the nodes their stacks hold are a parameter of
    the initial memory.

    Every atomic operation of the source ([load], [store], [exchange],
    [compare_exchange_weak/strong], [fetch_add]) and every access to a heap
    node is one step of the calling thread.  A step is a function of the
    thread's program point (with its local variables) and of the shared
    memory as it is at that instant, so a statement proved for one step and
    every shared memory holds under every interleaving with other threads.
    What the program does not decide (the address [new] returns or its
    failure, the content of an uninitialised field, a spurious failure of
    [compare_exchange_weak]) is read from an explicit [env] argument. *)

From stdpp Require Import base option list functions gmap.
From Stdlib Require Import ZArith Lia.

Open Scope Z_scope.

(** ** Shared vocabulary *)

(** Addresses of heap nodes; a [node*] is an optional address, [None] being
    [nullptr]. *)
Definition loc := positive.
Abbreviation nodeptr := (option loc).

(** [int] is 32 bits wide.  [std::atomic<int>::fetch_add] wraps around by
    definition; the plain [int] operations of the source ([++], [-], unary
    [-]) are given the same two's complement result. *)
Definition int_wrap (z : Z) : Z := (z + 2 ^ 31) mod 2 ^ 32 - 2 ^ 31.
Definition int_range (z : Z) : Prop := - 2 ^ 31 <= z < 2 ^ 31.

(** The exceptions that leave an operation. *)
Inductive exn : Type :=
| bad_alloc                       (* thrown by [new] *)
| runtime_error.                  (* "No hazard pointers available" *)

(** What the environment decides at a step. *)
Record env : Type := Env {
  alloc : option loc;             (* result of [new]; [None]: it throws *)
  junk_ptr : nodeptr;             (* content of an uninitialised pointer *)
  junk_count : Z;                 (* content of an uninitialised int *)
  spurious : bool                 (* a weak compare-exchange fails anyway *)
}.

(** The environment in which [new] returns [a] and nothing fails. *)
Definition env_alloc (a : loc) : env := Env (Some a) None 0 false.
(** An environment for the steps that allocate nothing. *)
Definition env_quiet : env := Env None None 0 false.
(** The same, with a spurious failure of the weak compare-exchange. *)
Definition env_spurious : env := Env None None 0 true.

(** A tape on which nothing fails: [new] returns 1, 2 and 3 for three
    pushes of three steps each, and twelve more steps follow. *)
Definition lifo_tape : list env :=
  [env_alloc 1%positive; env_quiet; env_quiet;
   env_alloc 2%positive; env_quiet; env_quiet;
   env_alloc 3%positive; env_quiet; env_quiet] ++ replicate 12 env_quiet.

(** [compare_exchange_weak/strong] on an atomic holding [cur]: the result is
    the success flag, the new content of the atomic and the new content of
    [expected].  The strong form is the weak one with [fail := false]. *)
Definition compare_exchange {A : Type} `{EqDecision A}
    (fail : bool) (cur expected desired : A) : bool * A * A :=
  if bool_decide (cur = expected) && negb fail
  then (true, desired, expected)
  else (false, cur, cur).

(** The calls a client makes on a stack and what it sees of each. *)
Inductive op (T : Type) : Type :=
| Push (v : T)
| Pop.
Arguments Push {T} v.
Arguments Pop {T}.

Inductive outcome (T : Type) : Type :=
| Pushed
| Popped (res : option T)         (* [None]: the empty [shared_ptr] *)
| Raised (e : exn).
Arguments Pushed {T}.
Arguments Popped {T} res.
Arguments Raised {T} e.

(** ** [lock_free_stack] (lines 38-65) *)

Module lock_free_stack.
Section stack.
Context {T : Type}.

Record node : Type := Node {
  data : option T;                (* [std::shared_ptr<T>]; [None] is empty *)
  next : nodeptr
}.

Record shared : Type := Shared {
  head : nodeptr;                 (* [std::atomic<node*> head] *)
  heap : gmap loc node            (* the nodes that are allocated *)
}.

(** Program points of [push] and [pop], with the locals that are live. *)
Inductive pc : Type :=
| PushNew (data_ : T)                  (* line 54, entry of [push] *)
| PushLoad (new_node : loc)            (* line 55 *)
| PushCas (new_node : loc)             (* line 56 *)
| PushDone                             (* line 57 *)
| PopLoad                              (* line 60, entry of [pop] *)
| PopTest (old_head : nodeptr)         (* line 61 *)
| PopCas (old_head : loc) (nxt : nodeptr)  (* line 62 *)
| PopRet (old_head : nodeptr)          (* line 63 *)
| PopDone (res : option T)
| Threw (e : exn).

Definition set_next (n : node) (p : nodeptr) : node :=
  Node (data n) p.

(** One step of a thread.  [None]: the thread has no step (it has returned
    or thrown) or the step has no defined behaviour (a freed node is
    dereferenced, [new] returns a live address). *)
Definition step (e : env) (p : pc) (s : shared) : option (pc * shared) :=
  match p with
  | PushNew v =>
      (* node* const new_node = new node{data}; *)
      match alloc e with
      | None => Some (Threw bad_alloc, s)
      | Some a =>
          match heap s !! a with
          | Some _ => None
          | None =>
              Some (PushLoad a,
                    Shared (head s) (<[a := Node (Some v) (junk_ptr e)]> (heap s)))
          end
      end
  | PushLoad a =>
      (* new_node->next = head.load(); *)
      n ← heap s !! a;
      Some (PushCas a, Shared (head s) (<[a := set_next n (head s)]> (heap s)))
  | PushCas a =>
      (* while(!head.compare_exchange_weak(new_node->next, new_node)); *)
      n ← heap s !! a;
      let '(ok, head', expected') :=
        compare_exchange (spurious e) (head s) (next n) (Some a) in
      Some (if ok then PushDone else PushCas a,
            Shared head' (<[a := set_next n expected']> (heap s)))
  | PopLoad =>
      (* node* old_head = head.load(); *)
      Some (PopTest (head s), s)
  | PopTest None =>
      (* while(old_head && ...) with old_head null *)
      Some (PopRet None, s)
  | PopTest (Some l) =>
      (* the argument old_head->next of the compare-exchange *)
      n ← heap s !! l;
      Some (PopCas l (next n), s)
  | PopCas l nxt =>
      (* !head.compare_exchange_weak(old_head, old_head->next) *)
      let '(ok, head', expected') :=
        compare_exchange (spurious e) (head s) (Some l) nxt in
      Some (if ok then PopRet expected' else PopTest expected',
            Shared head' (heap s))
  | PopRet None =>
      (* return std::shared_ptr<T>(); *)
      Some (PopDone None, s)
  | PopRet (Some l) =>
      (* return old_head->data; *)
      n ← heap s !! l;
      Some (PopDone (data n), s)
  | PushDone | PopDone _ | Threw _ => None
  end.

Definition final (p : pc) : bool :=
  match p with
  | PushDone | PopDone _ | Threw _ => true
  | _ => false
  end.

(** A thread running alone: it steps, reading the environment's decisions
    from a tape, until its call has returned or thrown.  [None]: the tape
    ran out first, or a step was undefined. *)
Fixpoint exec (es : list env) (p : pc) (s : shared)
    : option (pc * shared * list env) :=
  if final p then Some (p, s, es)
  else match es with
       | [] => None
       | e :: es' =>
           match step e p s with
           | Some (p', s') => exec es' p' s'
           | None => None
           end
       end.

Definition entry (o : op T) : pc :=
  match o with Push v => PushNew v | Pop => PopLoad end.

Definition outcome_of (p : pc) : option (outcome T) :=
  match p with
  | PushDone => Some Pushed
  | PopDone r => Some (Popped r)
  | Threw x => Some (Raised x)
  | _ => None
  end.

(** A single-threaded client that makes the calls [os] one after the other,
    and stops at the first exception. *)
Fixpoint run_ops (os : list (op T)) (es : list env) (s : shared)
    : option (list (outcome T) * shared * list env) :=
  match os with
  | [] => Some ([], s, es)
  | o :: os' =>
      '(p, s', es') ← exec es (entry o) s;
      r ← outcome_of p;
      match r with
      | Raised _ => Some ([r], s', es')
      | _ =>
          '(rs, s'', es'') ← run_ops os' es' s';
          Some (r :: rs, s'', es'')
      end
  end.

Definition empty_stack : shared := Shared None ∅.

(** The node [push] has allocated and not yet published. *)
Definition unpublished (p : pc) : option loc :=
  match p with
  | PushLoad a | PushCas a => Some a
  | _ => None
  end.

(** What the other threads may do to the memory between two steps of a
    thread at [p]: anything but touch a node it has not published. *)
Definition interference (p : pc) (s s' : shared) : Prop :=
  forall a, unpublished p = Some a -> heap s' !! a = heap s !! a.

(** [push_at v p s]: during a call [push(v)], the thread is at [p] and the
    memory is [s]. *)
Inductive push_at (v : T) : pc -> shared -> Prop :=
| push_at_entry s : push_at v (PushNew v) s
| push_at_step p s e p' s' :
    push_at v p s -> step e p s = Some (p', s') -> push_at v p' s'
| push_at_interfere p s s' :
    push_at v p s -> interference p s s' -> push_at v p s'.

(** What a call [push(v)] knows at each of its points. *)
Definition push_inv (v : T) (p : pc) (s : shared) : Prop :=
  match p with
  | PushNew w => w = v
  | PushLoad a | PushCas a => exists j, heap s !! a = Some (Node (Some v) j)
  | PushDone | Threw _ => True
  | _ => False
  end.

(** What a step of [push(v)] from [p] and [s] to [p'] and [s'] has done, by
    the point [p'] it arrives at. *)
Definition push_post (v : T) (e : env) (p : pc) (s : shared)
    (p' : pc) (s' : shared) : Prop :=
  match p' with
  | PushLoad a =>
      (* the node is new and holds [v] *)
      p = PushNew v /\ alloc e = Some a /\ heap s !! a = None /\
      head s' = head s /\
      exists j, heap s' !! a = Some (Node (Some v) j)
  | PushCas a =>
      (* its successor is the head just read, at line 55 or by the
         compare-exchange that failed *)
      (p = PushLoad a \/ p = PushCas a) /\
      head s' = head s /\ heap s' !! a = Some (Node (Some v) (head s))
  | PushDone =>
      (* the compare-exchange succeeded: the head is the node, whose
         successor is the head it replaced *)
      exists a, p = PushCas a /\
        head s' = Some a /\ heap s' !! a = Some (Node (Some v) (head s))
  | Threw x => p = PushNew v /\ alloc e = None /\ x = bad_alloc /\ s' = s
  | _ => False
  end.

End stack.
Arguments node : clear implicits.
Arguments shared : clear implicits.
Arguments pc : clear implicits.
End lock_free_stack.

(** ** [lock_free_stack_rf] (lines 302-387) *)

Module lock_free_stack_rf.
Section stack.
Context {T : Type}.

Record counted_node_ptr : Type := Counted {
  external_count : Z;
  ptr : nodeptr
}.

#[export] Instance counted_node_ptr_eq_dec : EqDecision counted_node_ptr.
Proof. solve_decision. Defined.

Record node : Type := Node {
  data : option T;
  internal_count : Z;             (* [std::atomic<int>] *)
  next : counted_node_ptr
}.

Record shared : Type := Shared {
  head : counted_node_ptr;        (* [std::atomic<counted_node_ptr> head] *)
  heap : gmap loc node
}.

Inductive pc : Type :=
| PushNew (data_ : T)                         (* lines 345-347, entry of [push] *)
| PushLoad (new_node : counted_node_ptr)      (* line 348 *)
| PushCas (new_node : counted_node_ptr)       (* lines 349-352 *)
| PushDone                                    (* line 353 *)
| PopLoad                                     (* lines 356-357, entry of [pop] *)
| PopClaim (old_head : counted_node_ptr)      (* line 360: [increase_head_count] *)
| PopNext (old_head : counted_node_ptr) (ptr_ : loc)    (* line 367: [ptr->next] *)
| PopCas (old_head : counted_node_ptr) (ptr_ : loc) (nxt : counted_node_ptr)
                                              (* lines 366-367 *)
| PopSwap (old_head : counted_node_ptr) (ptr_ : loc)    (* line 370 *)
| PopSettle (old_head : counted_node_ptr) (ptr_ : loc) (res : option T)
                                              (* lines 371-373 *)
| PopDelete (ptr_ : loc) (res : option T)     (* line 375 *)
| PopRelease (old_head : counted_node_ptr) (ptr_ : loc) (* lines 379-380 *)
| PopReleaseLoad (old_head : counted_node_ptr) (ptr_ : loc)   (* line 382 *)
| PopReleaseDelete (old_head : counted_node_ptr) (ptr_ : loc) (* line 383 *)
| PopDone (res : option T)
| Threw (e : exn).

Definition set_next (n : node) (c : counted_node_ptr) : node :=
  Node (data n) (internal_count n) c.
Definition set_data (n : node) (d : option T) : node :=
  Node d (internal_count n) (next n).

(** [internal_count.fetch_add(d)]: the node afterwards; the value returned is
    [internal_count n]. *)
Definition fetch_add (n : node) (d : Z) : node :=
  Node (data n) (int_wrap (internal_count n + d)) (next n).

Definition step (e : env) (p : pc) (s : shared) : option (pc * shared) :=
  match p with
  | PushNew v =>
      (* counted_node_ptr new_node; new_node.ptr = new node(data);
         new_node.external_count = 1; *)
      match alloc e with
      | None => Some (Threw bad_alloc, s)
      | Some a =>
          match heap s !! a with
          | Some _ => None
          | None =>
              Some (PushLoad (Counted 1 (Some a)),
                    Shared (head s)
                      (<[a := Node (Some v) 0 (Counted (junk_count e) (junk_ptr e))]>
                         (heap s)))
          end
      end
  | PushLoad new_node =>
      (* new_node.ptr->next = head.load(std::memory_order_relaxed); *)
      a ← ptr new_node;
      n ← heap s !! a;
      Some (PushCas new_node,
            Shared (head s) (<[a := set_next n (head s)]> (heap s)))
  | PushCas new_node =>
      (* while(!head.compare_exchange_weak(new_node.ptr->next, new_node, ...)); *)
      a ← ptr new_node;
      n ← heap s !! a;
      let '(ok, head', expected') :=
        compare_exchange (spurious e) (head s) (next n) new_node in
      Some (if ok then PushDone else PushCas new_node,
            Shared head' (<[a := set_next n expected']> (heap s)))
  | PopLoad =>
      (* counted_node_ptr old_head = head.load(std::memory_order_relaxed); *)
      Some (PopClaim (head s), s)
  | PopClaim old_counter =>
      (* increase_head_count(old_head): one turn of its do-while, lines
         329-335; on success line 336, then lines 361-365 *)
      let new_counter :=
        Counted (int_wrap (external_count old_counter + 1)) (ptr old_counter) in
      let '(ok, head', expected') :=
        compare_exchange false (head s) old_counter new_counter in
      if ok then
        let old_head := Counted (external_count new_counter) (ptr expected') in
        Some (match ptr old_head with
              | None => PopDone None
              | Some ptr_ => PopNext old_head ptr_
              end,
              Shared head' (heap s))
      else Some (PopClaim expected', Shared head' (heap s))
  | PopNext old_head ptr_ =>
      (* the argument ptr->next of the compare-exchange of line 366 *)
      n ← heap s !! ptr_;
      Some (PopCas old_head ptr_ (next n), s)
  | PopCas old_head ptr_ nxt =>
      (* if(head.compare_exchange_strong(old_head, ptr->next, ...)) *)
      let '(ok, head', expected') :=
        compare_exchange false (head s) old_head nxt in
      Some (if ok then PopSwap expected' ptr_ else PopRelease expected' ptr_,
            Shared head' (heap s))
  | PopSwap old_head ptr_ =>
      (* std::shared_ptr<T> res; res.swap(ptr->data); *)
      n ← heap s !! ptr_;
      Some (PopSettle old_head ptr_ (data n),
            Shared (head s) (<[ptr_ := set_data n None]> (heap s)))
  | PopSettle old_head ptr_ res =>
      (* int const count_increase = old_head.external_count - 2;
         if(ptr->internal_count.fetch_add(count_increase, ...) == -count_increase) *)
      n ← heap s !! ptr_;
      let count_increase := int_wrap (external_count old_head - 2) in
      Some (if bool_decide (internal_count n = int_wrap (- count_increase))
            then PopDelete ptr_ res
            else PopDone res,
            Shared (head s) (<[ptr_ := fetch_add n count_increase]> (heap s)))
  | PopDelete ptr_ res =>
      (* delete ptr; return res; *)
      _ ← heap s !! ptr_;
      Some (PopDone res, Shared (head s) (delete ptr_ (heap s)))
  | PopRelease old_head ptr_ =>
      (* else if(ptr->internal_count.fetch_add(-1, ...) == 1) *)
      n ← heap s !! ptr_;
      Some (if bool_decide (internal_count n = 1)
            then PopReleaseLoad old_head ptr_
            else PopClaim old_head,
            Shared (head s) (<[ptr_ := fetch_add n (-1)]> (heap s)))
  | PopReleaseLoad old_head ptr_ =>
      (* ptr->internal_count.load(std::memory_order_acquire); *)
      _ ← heap s !! ptr_;
      Some (PopReleaseDelete old_head ptr_, s)
  | PopReleaseDelete old_head ptr_ =>
      (* delete ptr; and the next turn of for(;;) *)
      _ ← heap s !! ptr_;
      Some (PopClaim old_head, Shared (head s) (delete ptr_ (heap s)))
  | PushDone | PopDone _ | Threw _ => None
  end.

Definition final (p : pc) : bool :=
  match p with
  | PushDone | PopDone _ | Threw _ => true
  | _ => false
  end.

Fixpoint exec (es : list env) (p : pc) (s : shared)
    : option (pc * shared * list env) :=
  if final p then Some (p, s, es)
  else match es with
       | [] => None
       | e :: es' =>
           match step e p s with
           | Some (p', s') => exec es' p' s'
           | None => None
           end
       end.

Definition entry (o : op T) : pc :=
  match o with Push v => PushNew v | Pop => PopLoad end.

Definition outcome_of (p : pc) : option (outcome T) :=
  match p with
  | PushDone => Some Pushed
  | PopDone r => Some (Popped r)
  | Threw x => Some (Raised x)
  | _ => None
  end.

Fixpoint run_ops (os : list (op T)) (es : list env) (s : shared)
    : option (list (outcome T) * shared * list env) :=
  match os with
  | [] => Some ([], s, es)
  | o :: os' =>
      '(p, s', es') ← exec es (entry o) s;
      r ← outcome_of p;
      match r with
      | Raised _ => Some ([r], s', es')
      | _ =>
          '(rs, s'', es'') ← run_ops os' es' s';
          Some (r :: rs, s'', es'')
      end
  end.

(** An empty stack: no node, and any count in the head. *)
Definition empty_stack (count : Z) : shared := Shared (Counted count None) ∅.

(** The node [push] has allocated and not yet published. *)
Definition unpublished (p : pc) : option loc :=
  match p with
  | PushLoad new_node | PushCas new_node => ptr new_node
  | _ => None
  end.

(** What the other threads may do to the memory between two steps of a
    thread at [p]: anything but touch a node it has not published. *)
Definition interference (p : pc) (s s' : shared) : Prop :=
  forall a, unpublished p = Some a -> heap s' !! a = heap s !! a.

(** [push_at v p s]: during a call [push(v)], the thread is at [p] and the
    memory is [s]. *)
Inductive push_at (v : T) : pc -> shared -> Prop :=
| push_at_entry s : push_at v (PushNew v) s
| push_at_step p s e p' s' :
    push_at v p s -> step e p s = Some (p', s') -> push_at v p' s'
| push_at_interfere p s s' :
    push_at v p s -> interference p s s' -> push_at v p s'.

(** What a call [push(v)] knows at each of its points. *)
Definition push_inv (v : T) (p : pc) (s : shared) : Prop :=
  match p with
  | PushNew w => w = v
  | PushLoad new_node | PushCas new_node =>
      exists a j, new_node = Counted 1 (Some a) /\
                  heap s !! a = Some (Node (Some v) 0 j)
  | PushDone | Threw _ => True
  | _ => False
  end.

(** What a step of [push(v)] from [p] and [s] to [p'] and [s'] has done, by
    the point [p'] it arrives at. *)
Definition push_post (v : T) (e : env) (p : pc) (s : shared)
    (p' : pc) (s' : shared) : Prop :=
  match p' with
  | PushLoad new_node =>
      p = PushNew v /\
      exists a, new_node = Counted 1 (Some a) /\
        alloc e = Some a /\ heap s !! a = None /\ head s' = head s /\
        exists j, heap s' !! a = Some (Node (Some v) 0 j)
  | PushCas new_node =>
      (p = PushLoad new_node \/ p = PushCas new_node) /\
      exists a, new_node = Counted 1 (Some a) /\
        head s' = head s /\ heap s' !! a = Some (Node (Some v) 0 (head s))
  | PushDone =>
      exists a, p = PushCas (Counted 1 (Some a)) /\
        head s' = Counted 1 (Some a) /\
        heap s' !! a = Some (Node (Some v) 0 (head s))
  | Threw x => p = PushNew v /\ alloc e = None /\ x = bad_alloc /\ s' = s
  | _ => False
  end.

End stack.
Arguments counted_node_ptr : clear implicits.
Arguments node : clear implicits.
Arguments shared : clear implicits.
Arguments pc : clear implicits.
End lock_free_stack_rf.

(** ** The hazard-pointer registry and [lock_free_stack_with_hazard]
       (lines 153-300) *)

Module lock_free_stack_with_hazard.

Definition thread_id := nat.

(** [unsigned const max_hazard_pointers=100;] *)
Definition max_hazard_pointers : nat := 100.

(** [struct hazard_pointer]: [id] is [None] for the default
    [std::thread::id], which names no thread. *)
Record hazard_pointer : Type := HazardPointer {
  id : option thread_id;
  pointer : nodeptr
}.

(** [struct data_to_reclaim]; its [deleter] is always [do_delete<node>]. *)
Record data_to_reclaim : Type := DataToReclaim {
  rdata : nodeptr;                (* [void* data] *)
  rnext : option loc              (* [data_to_reclaim* next] *)
}.

(** [bool outstanding_hazard_pointers_for(void* data)], lines 227-229. *)
Definition outstanding_hazard_pointers_for (data : nodeptr) : bool := false.

(** The scan that the specification describes for the same function: some
    slot of the table holds [data]. *)
Definition spec_outstanding_hazard_pointers_for
    (table : list hazard_pointer) (data : nodeptr) : bool :=
  existsb (fun h => bool_decide (pointer h = data)) table.

Section stack.
Context {T : Type}.

Record node : Type := Node {
  data : option T;
  next : nodeptr
}.

Record shared : Type := Shared {
  head : nodeptr;                          (* [std::atomic<node*> head] *)
  heap : gmap loc node;
  hazard_pointers : list hazard_pointer;   (* the global table *)
  nodes_to_reclaim : option loc;           (* root of the retire list *)
  reclaim_heap : gmap loc data_to_reclaim  (* the allocated retire entries *)
}.

Inductive pc : Type :=
| Idle
| PopEntry                        (* line 269, entry of [pop] *)
| HpScan (i : nat)                (* lines 169-182: [hp_owner::hp_owner] *)
| PopLoad                         (* line 270 *)
| PopPublish (old_head : nodeptr) (* lines 276-277 *)
| PopReload (temp : nodeptr)      (* lines 278-279 *)
| PopTest (old_head : nodeptr)    (* line 281 and the argument [old_head->next] *)
| PopCas (old_head : loc) (nxt : nodeptr)      (* line 282 *)
| PopClear (old_head : nodeptr)   (* lines 283-285 *)
| PopSwap (old_head : loc)        (* lines 287-288 *)
| RetireNew (old_head : loc) (res : option T)  (* line 233 *)
| AddLoad (entry : loc) (k : pc)  (* line 224 *)
| AddCas (entry : loc) (k : pc)   (* line 225 *)
| PopDelete (old_head : loc) (res : option T)  (* line 294 *)
| ReclaimExchange (res : option T)             (* line 237 *)
| ReclaimLoop (current : option loc) (res : option T)   (* lines 238-241 *)
| ReclaimDelete (current : loc) (nxt : option loc) (res : option T)
                                  (* line 243 *)
| PopDone (res : option T)        (* line 298 *)
| Threw (e : exn)
| ExitClear                       (* line 190: [hp_owner::~hp_owner] *)
| ExitRelease                     (* line 191 *)
| Exited.

(** A thread: its [thread_local static hp_owner hazard] (the index of the
    slot [hazard.hp] points to, once constructed) and its program point. *)
Record local : Type := Local {
  hp : option nat;
  at_pc : pc
}.

Definition set_pointer (h : hazard_pointer) (p : nodeptr) : hazard_pointer :=
  HazardPointer (id h) p.
Definition set_id (h : hazard_pointer) (o : option thread_id) : hazard_pointer :=
  HazardPointer o (pointer h).

Definition with_head (s : shared) (h : nodeptr) : shared :=
  Shared h (heap s) (hazard_pointers s) (nodes_to_reclaim s) (reclaim_heap s).
Definition with_heap (s : shared) (m : gmap loc node) : shared :=
  Shared (head s) m (hazard_pointers s) (nodes_to_reclaim s) (reclaim_heap s).
Definition with_table (s : shared) (tb : list hazard_pointer) : shared :=
  Shared (head s) (heap s) tb (nodes_to_reclaim s) (reclaim_heap s).
Definition with_reclaim (s : shared) (r : option loc)
    (m : gmap loc data_to_reclaim) : shared :=
  Shared (head s) (heap s) (hazard_pointers s) r m.

(** [delete static_cast<node*>(p)]: nothing for a null pointer, undefined
    for a node that is not allocated. *)
Definition do_delete (p : nodeptr) (m : gmap loc node) : option (gmap loc node) :=
  match p with
  | None => Some m
  | Some l => _ ← m !! l; Some (delete l m)
  end.

(** One step of thread [t] inside [pop]. *)
Definition step (e : env) (t : thread_id) (l : local) (s : shared)
    : option (local * shared) :=
  match at_pc l with
  | PopEntry =>
      (* thread_local static hp_owner hazard; constructed at the first call *)
      Some (Local (hp l) (if hp l is Some _ then PopLoad else HpScan 0), s)
  | HpScan i =>
      if bool_decide (i < max_hazard_pointers)%nat then
        (* if(hazard_pointers[i].id.compare_exchange_strong(old_id, get_id())) *)
        h ← hazard_pointers s !! i;
        let '(ok, id', _) := compare_exchange false (id h) None (Some t) in
        Some (if ok then Local (Some i) PopLoad else Local (hp l) (HpScan (S i)),
              with_table s (<[i := set_id h id']> (hazard_pointers s)))
      else
        (* if(!hp) throw std::runtime_error("No hazard pointers available"); *)
        Some (Local (hp l) (Threw runtime_error), s)
  | PopLoad =>
      (* node* old_head = head.load(); *)
      Some (Local (hp l) (PopPublish (head s)), s)
  | PopPublish old_head =>
      (* temp = old_head; hp.store(old_head); *)
      i ← hp l;
      h ← hazard_pointers s !! i;
      Some (Local (hp l) (PopReload old_head),
            with_table s (<[i := set_pointer h old_head]> (hazard_pointers s)))
  | PopReload temp =>
      (* old_head = head.load(); } while(old_head != temp); *)
      Some (Local (hp l)
              (if bool_decide (head s = temp) then PopTest (head s)
               else PopPublish (head s)), s)
  | PopTest None =>
      Some (Local (hp l) (PopClear None), s)
  | PopTest (Some a) =>
      n ← heap s !! a;
      Some (Local (hp l) (PopCas a (next n)), s)
  | PopCas a nxt =>
      (* !head.compare_exchange_strong(old_head, old_head->next) *)
      let '(ok, head', expected') :=
        compare_exchange false (head s) (Some a) nxt in
      Some (Local (hp l) (if ok then PopClear expected' else PopPublish expected'),
            with_head s head')
  | PopClear old_head =>
      (* hp.store(nullptr); std::shared_ptr<T> res; if(old_head) *)
      i ← hp l;
      h ← hazard_pointers s !! i;
      Some (Local (hp l)
              (match old_head with
               | None => PopDone None
               | Some a => PopSwap a
               end),
            with_table s (<[i := set_pointer h None]> (hazard_pointers s)))
  | PopSwap a =>
      (* res.swap(old_head->data); if(outstanding_hazard_pointers_for(old_head)) *)
      n ← heap s !! a;
      Some (Local (hp l)
              (if outstanding_hazard_pointers_for (Some a)
               then RetireNew a (data n)
               else PopDelete a (data n)),
            with_heap s (<[a := Node None (next n)]> (heap s)))
  | RetireNew a res =>
      (* reclaim_later(old_head): new data_to_reclaim(data) *)
      match alloc e with
      | None => Some (Local (hp l) (Threw bad_alloc), s)
      | Some c =>
          match reclaim_heap s !! c with
          | Some _ => None
          | None =>
              Some (Local (hp l) (AddLoad c (ReclaimExchange res)),
                    with_reclaim s (nodes_to_reclaim s)
                      (<[c := DataToReclaim (Some a) None]> (reclaim_heap s)))
          end
      end
  | AddLoad c k =>
      (* node->next = nodes_to_reclaim.load(); *)
      d ← reclaim_heap s !! c;
      Some (Local (hp l) (AddCas c k),
            with_reclaim s (nodes_to_reclaim s)
              (<[c := DataToReclaim (rdata d) (nodes_to_reclaim s)]> (reclaim_heap s)))
  | AddCas c k =>
      (* while(!nodes_to_reclaim.compare_exchange_weak(node->next, node)); *)
      d ← reclaim_heap s !! c;
      let '(ok, root', expected') :=
        compare_exchange (spurious e) (nodes_to_reclaim s) (rnext d) (Some c) in
      Some (Local (hp l) (if ok then k else AddCas c k),
            with_reclaim s root'
              (<[c := DataToReclaim (rdata d) expected']> (reclaim_heap s)))
  | PopDelete a res =>
      (* delete old_head; *)
      m ← do_delete (Some a) (heap s);
      Some (Local (hp l) (ReclaimExchange res), with_heap s m)
  | ReclaimExchange res =>
      (* data_to_reclaim* current = nodes_to_reclaim.exchange(nullptr); *)
      Some (Local (hp l) (ReclaimLoop (nodes_to_reclaim s) res),
            with_reclaim s None (reclaim_heap s))
  | ReclaimLoop None res =>
      (* while(current) is over; return res; *)
      Some (Local (hp l) (PopDone res), s)
  | ReclaimLoop (Some c) res =>
      (* next = current->next;
         if(!outstanding_hazard_pointers_for(current->data)) *)
      d ← reclaim_heap s !! c;
      Some (Local (hp l)
              (if negb (outstanding_hazard_pointers_for (rdata d))
               then ReclaimDelete c (rnext d) res
               else AddLoad c (ReclaimLoop (rnext d) res)), s)
  | ReclaimDelete c nxt res =>
      (* delete current; its destructor runs deleter(data) *)
      d ← reclaim_heap s !! c;
      m ← do_delete (rdata d) (heap s);
      Some (Local (hp l) (ReclaimLoop nxt res),
            with_reclaim (with_heap s m) (nodes_to_reclaim s)
              (delete c (reclaim_heap s)))
  | ExitClear =>
      (* hp->pointer.store(nullptr); *)
      i ← hp l;
      h ← hazard_pointers s !! i;
      Some (Local (hp l) ExitRelease,
            with_table s (<[i := set_pointer h None]> (hazard_pointers s)))
  | ExitRelease =>
      (* hp->id.store(std::thread::id()); *)
      i ← hp l;
      h ← hazard_pointers s !! i;
      Some (Local None Exited,
            with_table s (<[i := set_id h None]> (hazard_pointers s)))
  | Idle | PopDone _ | Threw _ | Exited => None
  end.

(** Between two calls a thread is at rest. *)
Definition resting (p : pc) : bool :=
  match p with
  | Idle | PopDone _ | Threw _ => true
  | _ => false
  end.

(** What a thread does next: it calls [pop], it terminates (which destroys
    its [hp_owner], if it has one), or it makes a step of the call it is
    in. *)
Inductive action : Type :=
| Call
| Exit
| Run (e : env).

Record config : Type := Config {
  mem : shared;
  threads : thread_id -> local
}.

Definition gstep (t : thread_id) (a : action) (c : config) : option config :=
  let l := threads c t in
  match a with
  | Call =>
      if resting (at_pc l)
      then Some (Config (mem c) (<[t := Local (hp l) PopEntry]> (threads c)))
      else None
  | Exit =>
      if resting (at_pc l)
      then Some (Config (mem c)
                   (<[t := Local (hp l) (if hp l is Some _ then ExitClear else Exited)]>
                      (threads c)))
      else None
  | Run e =>
      '(l', s') ← step e t l (mem c);
      Some (Config s' (<[t := l']> (threads c)))
  end.

(** A schedule is run from left to right. *)
Fixpoint grun (sched : list (thread_id * action)) (c : config) : option config :=
  match sched with
  | [] => Some c
  | (t, a) :: sched' => c' ← gstep t a c; grun sched' c'
  end.

(** The table at program start: static storage, every slot free. *)
Definition free_table : list hazard_pointer :=
  replicate max_hazard_pointers (HazardPointer None None).

(** Program start with the stack holding the linked nodes of [m] from [h]:
    no thread has made a call, the table is free and the retire list is
    empty. *)
Definition initial (h : nodeptr) (m : gmap loc node) : config :=
  Config (Shared h m free_table None ∅) (fun _ => Local None Idle).

Inductive reachable : config -> Prop :=
| reachable_initial h m : reachable (initial h m)
| reachable_step c t a c' :
    reachable c -> gstep t a c = Some c' -> reachable c'.

(** A thread running one call of [pop] alone. *)
Definition final (p : pc) : bool :=
  match p with
  | PopDone _ | Threw _ => true
  | _ => false
  end.

Fixpoint exec (es : list env) (t : thread_id) (l : local) (s : shared)
    : option (local * shared * list env) :=
  if final (at_pc l) then Some (l, s, es)
  else match es with
       | [] => None
       | e :: es' =>
           match step e t l s with
           | Some (l', s') => exec es' t l' s'
           | None => None
           end
       end.

(** The pointer a thread relies on its slot to protect: the one it has
    published at line 277 and not yet given up. *)
Definition guarded (p : pc) : option nodeptr :=
  match p with
  | PopReload temp => Some temp
  | PopTest old_head => Some old_head
  | PopCas old_head _ => Some (Some old_head)
  | _ => None
  end.

(** The points from line 270 on, and those of the destructor: the thread's
    [hp_owner] exists. *)
Definition holds_slot (p : pc) : bool :=
  match p with
  | Idle | PopEntry | HpScan _ | Threw runtime_error | Exited => false
  | _ => true
  end.

(** [add_to_reclaim_list] returns into [delete_nodes_with_no_hazards]. *)
Definition returns_to_reclaim (p : pc) : Prop :=
  match p with
  | AddLoad _ k | AddCas _ k =>
      match k with
      | ReclaimExchange _ | ReclaimLoop _ _ => True
      | _ => False
      end
  | _ => True
  end.

(** The invariant of the registry, for one thread: its slot carries its
    identity; the pointer it relies on is in its slot; past line 269 it has a
    slot. *)
Definition thread_inv (t : thread_id) (l : local) (s : shared) : Prop :=
  (forall i, hp l = Some i ->
     exists h, hazard_pointers s !! i = Some h /\ id h = Some t) /\
  (forall p, guarded (at_pc l) = Some p ->
     exists i h, hp l = Some i /\ hazard_pointers s !! i = Some h /\
                 pointer h = p) /\
  (holds_slot (at_pc l) = true -> is_Some (hp l)) /\
  returns_to_reclaim (at_pc l).

Definition inv (c : config) : Prop :=
  forall t, thread_inv t (threads c t) (mem c).

(** The table has its hundred slots, each owned by a thread other than
    [t]. *)
Definition owned_by_other (t : thread_id) (h : hazard_pointer) : bool :=
  match id h with
  | Some t' => negb (Nat.eqb t' t)
  | None => false
  end.

Definition saturated_for (t : thread_id) (tb : list hazard_pointer) : bool :=
  Nat.eqb (length tb) max_hazard_pointers && forallb (owned_by_other t) tb.

(** What is looked at in a configuration: where threads 0 and 1 are, slot 0
    of the table, whether node 1 is allocated, the root of the retire list,
    what the scan of the specification says of node 1, and whether thread 1
    has a defined step. *)
Definition observe (c : config)
    : pc * pc * option hazard_pointer * bool * option loc * bool * bool :=
  (at_pc (threads c 0%nat), at_pc (threads c 1%nat),
   hazard_pointers (mem c) !! 0%nat,
   bool_decide (is_Some (heap (mem c) !! 1%positive)),
   nodes_to_reclaim (mem c),
   spec_outstanding_hazard_pointers_for (hazard_pointers (mem c))
     (Some 1%positive),
   bool_decide (is_Some (gstep 1%nat (Run env_quiet) c))).

End stack.
Arguments node : clear implicits.
Arguments shared : clear implicits.
Arguments pc : clear implicits.
Arguments local : clear implicits.
Arguments config : clear implicits.

(** Two threads pop a stack of one node, at address 1 and holding 7.  Thread
    1 goes first, up to line 281: it has slot 0, has published the node in
    it, has read the head again, and is about to read [old_head->next].
    Thread 0 then makes its call and [k] steps of it. *)
Definition one_node : gmap loc (node nat) :=
  {[ 1%positive := Node (Some 7%nat) None ]}.

Definition racing_pops (k : nat) : list (thread_id * action) :=
  (1%nat, Call) :: replicate 5 (1%nat, Run env_quiet) ++
  (0%nat, Call) :: replicate k (0%nat, Run env_quiet).

(** A table whose slot [i] is owned by thread [i + 1]. *)
Definition busy_table : list hazard_pointer :=
  map (fun i => HazardPointer (Some (S i)) None) (seq 0 max_hazard_pointers).

End lock_free_stack_with_hazard.

(** Short names for the three classes. *)
Module LS := lock_free_stack.
Module RF := lock_free_stack_rf.
Module HZ := lock_free_stack_with_hazard.

(** ** Clients, destructor and reference counts *)

(** The calls that push the values [vs] in order and then pop as many
    times. *)
Definition balanced {T : Type} (vs : list T) : list (op T) :=
  map Push vs ++ replicate (length vs) Pop.

(** What the client sees of them when nothing fails. *)
Definition balanced_seen {T : Type} (vs : list T) : list (outcome T) :=
  replicate (length vs) Pushed ++ map (fun v => Popped (Some v)) (rev vs).

Definition is_raised {T : Type} (r : outcome T) : bool :=
  match r with Raised _ => true | _ => false end.

(** A tape for [balanced]: [new] returns the addresses [addrs] in order and
    nothing fails; a [push] takes three steps and a [pop] takes [k]. *)
Definition balanced_tape (k : nat) (addrs : list loc) : list env :=
  flat_map (fun a => [env_alloc a; env_quiet; env_quiet]) addrs
  ++ replicate (k * length addrs) env_quiet.

(** [~lock_free_stack_rf()], line 341: [while(pop());], run by the one
    thread that is left.  [None]: the tape or the fuel ran out, or a step
    was undefined. *)
Fixpoint rf_destructor {T : Type} (fuel : nat) (es : list env) (s : RF.shared T)
    : option (RF.shared T * list env) :=
  match fuel with
  | O => None
  | S fuel' =>
      '(p, s', es') ← RF.exec es RF.PopLoad s;
      match p with
      | RF.PopDone (Some _) => rf_destructor fuel' es' s'
      | RF.PopDone None => Some (s', es')
      | _ => None
      end
  end.

(** The memory [m] holds, from the head value [h] down to [bottom], the
    nodes at the addresses of [l] with the payloads of [l], each as [push]
    leaves it: an external count of one in the pointer to it and an internal
    count of zero. *)
Fixpoint rf_stack {T : Type} (m : gmap loc (RF.node T)) (h : RF.counted_node_ptr)
    (l : list (loc * T)) (bottom : RF.counted_node_ptr) : Prop :=
  match l with
  | [] => h = bottom
  | (a, v) :: l' =>
      h = RF.Counted 1 (Some a) /\
      exists nxt, m !! a = Some (RF.Node (Some v) 0 nxt) /\ rf_stack m nxt l' bottom
  end.

(** The threads that hold a claim on the node [ptr_] give it up, one atomic
    step each: the one that has unlinked the node by lines 371-373, the
    others by lines 379-380. *)
Inductive claim_op : Type := Settle | Release.

Definition rf_deletes {T : Type} (p : RF.pc T) : bool :=
  match p with
  | RF.PopDelete _ _ | RF.PopReleaseLoad _ _ => true
  | _ => false
  end.

(** For each step in turn, whether the thread goes on to [delete ptr]. *)
Fixpoint rf_give_up {T : Type} (old_head : RF.counted_node_ptr) (ptr_ : loc)
    (os : list claim_op) (s : RF.shared T) : option (list bool * RF.shared T) :=
  match os with
  | [] => Some ([], s)
  | o :: os' =>
      '(p, s') ← RF.step env_quiet
                   (match o with
                    | Settle => RF.PopSettle old_head ptr_ None
                    | Release => RF.PopRelease old_head ptr_
                    end) s;
      '(bs, s'') ← rf_give_up old_head ptr_ os' s';
      Some (rf_deletes p :: bs, s'')
  end.

(** ** More on the hazard-pointer registry *)

(** The points of [pop] from the store of line 277 to the store of line
    283. *)
Definition hz_in_loop {T : Type} (p : HZ.pc T) : bool :=
  match p with
  | HZ.PopPublish _ | HZ.PopReload _ | HZ.PopTest _ | HZ.PopCas _ _
  | HZ.PopClear _ => true
  | _ => false
  end.

(** The points of [reclaim_later] and [add_to_reclaim_list], those of
    [delete_nodes_with_no_hazards] with an entry in hand, and the exception
    of [new data_to_reclaim]. *)
Definition hz_retiring {T : Type} (p : HZ.pc T) : bool :=
  match p with
  | HZ.RetireNew _ _ | HZ.AddLoad _ _ | HZ.AddCas _ _
  | HZ.ReclaimLoop (Some _) _ | HZ.ReclaimDelete _ _ _
  | HZ.Threw bad_alloc => true
  | _ => false
  end.

(** What holds of the registry and of the retire list in every
    configuration the program reaches. *)
Record hz_registry_inv {T : Type} (c : HZ.config T) : Prop := HzRegistryInv {
  reg_inv : HZ.inv c;
  reg_len : length (HZ.hazard_pointers (HZ.mem c)) = HZ.max_hazard_pointers;
  reg_owner : forall i h t,
    HZ.hazard_pointers (HZ.mem c) !! i = Some h -> HZ.id h = Some t ->
    HZ.hp (HZ.threads c t) = Some i;
  reg_ptr : forall i h,
    HZ.hazard_pointers (HZ.mem c) !! i = Some h -> HZ.pointer h ≠ None ->
    exists t, HZ.id h = Some t /\ hz_in_loop (HZ.at_pc (HZ.threads c t)) = true;
  reg_scan : forall t i,
    HZ.at_pc (HZ.threads c t) = HZ.HpScan i -> HZ.hp (HZ.threads c t) = None;
  reg_retire :
    HZ.nodes_to_reclaim (HZ.mem c) = None /\ HZ.reclaim_heap (HZ.mem c) = ∅ /\
    forall t, hz_retiring (HZ.at_pc (HZ.threads c t)) = false
}.

(** How a step of thread [t] from [l] to [l'] changes the table [tb] into
    [tb']. *)
Inductive hz_table_step {T : Type} (t : HZ.thread_id) (l l' : HZ.local T)
    (tb tb' : list HZ.hazard_pointer) : Prop :=
| hz_table_same :
    tb' = tb -> HZ.hp l' = HZ.hp l ->
    (hz_in_loop (HZ.at_pc l) = true -> hz_in_loop (HZ.at_pc l') = true) ->
    (forall i, HZ.at_pc l' = HZ.HpScan i ->
       HZ.hp l = None \/ exists j, HZ.at_pc l = HZ.HpScan j) ->
    hz_table_step t l l' tb tb'
| hz_table_store i h p :
    HZ.hp l = Some i -> tb !! i = Some h ->
    tb' = <[i := HZ.set_pointer h p]> tb -> HZ.hp l' = HZ.hp l ->
    (p = None /\ hz_in_loop (HZ.at_pc l') = false \/
     hz_in_loop (HZ.at_pc l') = true) ->
    (forall j, HZ.at_pc l' ≠ HZ.HpScan j) ->
    hz_table_step t l l' tb tb'
| hz_table_acquire i h :
    HZ.at_pc l = HZ.HpScan i -> tb !! i = Some h -> HZ.id h = None ->
    tb' = <[i := HZ.set_id h (Some t)]> tb -> l' = HZ.Local (Some i) HZ.PopLoad ->
    hz_table_step t l l' tb tb'
| hz_table_release i h :
    HZ.at_pc l = HZ.ExitRelease -> HZ.hp l = Some i -> tb !! i = Some h ->
    tb' = <[i := HZ.set_id h None]> tb -> l' = HZ.Local None HZ.Exited ->
    hz_table_step t l l' tb tb'.

(** The retire list: the entries at the addresses [l.*1], each holding the
    node at the address beside it, are linked from [p] to a null pointer. *)
Fixpoint hz_retired (rh : gmap loc HZ.data_to_reclaim) (p : option loc)
    (l : list (loc * loc)) : Prop :=
  match l with
  | [] => p = None
  | (c, a) :: l' =>
      p = Some c /\
      exists nxt, rh !! c = Some (HZ.DataToReclaim (Some a) nxt) /\
                  hz_retired rh nxt l'
  end.

(** The steps of thread [t] for the whole tape. *)
Fixpoint hz_steps {T : Type} (es : list env) (t : HZ.thread_id)
    (l : HZ.local T) (s : HZ.shared T) : option (HZ.local T * HZ.shared T) :=
  match es with
  | [] => Some (l, s)
  | e :: es' => '(l', s') ← HZ.step e t l s; hz_steps es' t l' s'
  end.

(** ** [lock_free_stack_with_gc] (lines 67-146) *)

(** [unsigned] is 32 bits wide and wraps around. *)
Definition uint_wrap (z : Z) : Z := z mod 2 ^ 32.

Module lock_free_stack_with_gc.
Section stack.
Context {T : Type}.

Record node : Type := Node {
  data : option T;
  next : nodeptr
}.

Record shared : Type := Shared {
  head : nodeptr;                 (* [std::atomic<node*> head] *)
  threads_in_pop : Z;             (* [std::atomic<unsigned>] *)
  to_be_deleted : nodeptr;        (* [std::atomic<node*>] *)
  heap : gmap loc node
}.

(** Program points of [pop] and of the functions it calls; [k] is the point
    a function returns to. *)
Inductive pc : Type :=
| PopEnter                                   (* line 134, entry of [pop] *)
| PopLoad                                    (* line 135 *)
| PopTest (old_head : nodeptr)               (* line 136 *)
| PopCas (old_head : loc) (nxt : nodeptr)    (* line 137 *)
| PopSwap (old_head : loc)                   (* line 141 *)
| TryReclaim (old_head : nodeptr) (res : option T)   (* line 93 *)
| Exchange (old_head : nodeptr) (res : option T)     (* line 95 *)
| Decrement (old_head : nodeptr) (nodes_to_delete : nodeptr) (res : option T)
                                             (* lines 96-100 *)
| DeleteNodes (nodes : nodeptr) (k : pc)     (* lines 84-86 *)
| DeleteNode (nodes : loc) (nxt : nodeptr) (k : pc)  (* lines 87-88 *)
| ChainWalk (first : loc) (last : loc) (k : pc)      (* lines 114-119 *)
| ChainStore (first last : nodeptr) (k : pc) (* line 123 *)
| ChainCas (first : nodeptr) (last : loc) (k : pc)   (* lines 124-125 *)
| DeleteOld (old_head : nodeptr) (res : option T)    (* line 104 *)
| LeavePop (res : option T)                  (* line 109 *)
| PopDone (res : option T).                  (* line 144 *)

Definition with_heap (s : shared) (m : gmap loc node) : shared :=
  Shared (head s) (threads_in_pop s) (to_be_deleted s) m.
Definition with_count (s : shared) (c : Z) : shared :=
  Shared (head s) c (to_be_deleted s) (heap s).

Definition step (e : env) (p : pc) (s : shared) : option (pc * shared) :=
  match p with
  | PopEnter =>
      (* ++threads_in_pop; *)
      Some (PopLoad, with_count s (uint_wrap (threads_in_pop s + 1)))
  | PopLoad =>
      (* node* old_head = head.load(); *)
      Some (PopTest (head s), s)
  | PopTest None =>
      (* the loop is over with a null old_head; res stays empty;
         try_reclaim(old_head) *)
      Some (TryReclaim None None, s)
  | PopTest (Some a) =>
      (* the argument old_head->next of the compare-exchange *)
      n ← heap s !! a;
      Some (PopCas a (next n), s)
  | PopCas a nxt =>
      (* !head.compare_exchange_weak(old_head, old_head->next) *)
      let '(ok, head', expected') :=
        compare_exchange (spurious e) (head s) (Some a) nxt in
      Some (if ok then PopSwap a else PopTest expected',
            Shared head' (threads_in_pop s) (to_be_deleted s) (heap s))
  | PopSwap a =>
      (* res.swap(old_head->data); try_reclaim(old_head) *)
      n ← heap s !! a;
      Some (TryReclaim (Some a) (data n),
            with_heap s (<[a := Node None (next n)]> (heap s)))
  | TryReclaim old_head res =>
      (* if(threads_in_pop == 1) ... else chain_pending_node(old_head) *)
      Some (if bool_decide (threads_in_pop s = 1) then Exchange old_head res
            else ChainStore old_head old_head (LeavePop res), s)
  | Exchange old_head res =>
      (* node* nodes_to_delete = to_be_deleted.exchange(nullptr); *)
      Some (Decrement old_head (to_be_deleted s) res,
            Shared (head s) (threads_in_pop s) None (heap s))
  | Decrement old_head nodes_to_delete res =>
      (* if(!--threads_in_pop) delete_nodes(nodes_to_delete);
         else if(nodes_to_delete) chain_pending_nodes(nodes_to_delete); *)
      let c := uint_wrap (threads_in_pop s - 1) in
      Some (if bool_decide (c = 0)
            then DeleteNodes nodes_to_delete (DeleteOld old_head res)
            else match nodes_to_delete with
                 | Some first => ChainWalk first first (DeleteOld old_head res)
                 | None => DeleteOld old_head res
                 end,
            with_count s c)
  | DeleteNodes None k =>
      (* while(nodes) is over *)
      Some (k, s)
  | DeleteNodes (Some a) k =>
      (* node* next = nodes->next; *)
      n ← heap s !! a;
      Some (DeleteNode a (next n) k, s)
  | DeleteNode a nxt k =>
      (* delete nodes; nodes = next; *)
      _ ← heap s !! a;
      Some (DeleteNodes nxt k, with_heap s (delete a (heap s)))
  | ChainWalk first last k =>
      (* while(node* const next = last->next) last = next; *)
      n ← heap s !! last;
      Some (match next n with
            | Some nxt => ChainWalk first nxt k
            | None => ChainStore (Some first) (Some last) k
            end, s)
  | ChainStore first last k =>
      (* last->next = to_be_deleted; *)
      l ← last;
      n ← heap s !! l;
      Some (ChainCas first l k,
            with_heap s (<[l := Node (data n) (to_be_deleted s)]> (heap s)))
  | ChainCas first l k =>
      (* while(!to_be_deleted.compare_exchange_weak(last->next, first)); *)
      n ← heap s !! l;
      let '(ok, root', expected') :=
        compare_exchange (spurious e) (to_be_deleted s) (next n) first in
      Some (if ok then k else ChainCas first l k,
            Shared (head s) (threads_in_pop s) root'
              (<[l := Node (data n) expected']> (heap s)))
  | DeleteOld old_head res =>
      (* delete old_head; return res; *)
      m ← match old_head with
          | None => Some (heap s)
          | Some a => _ ← heap s !! a; Some (delete a (heap s))
          end;
      Some (PopDone res, with_heap s m)
  | LeavePop res =>
      (* --threads_in_pop; return res; *)
      Some (PopDone res, with_count s (uint_wrap (threads_in_pop s - 1)))
  | PopDone _ => None
  end.

Definition final (p : pc) : bool :=
  match p with PopDone _ => true | _ => false end.

Fixpoint exec (es : list env) (p : pc) (s : shared)
    : option (pc * shared * list env) :=
  if final p then Some (p, s, es)
  else match es with
       | [] => None
       | e :: es' =>
           match step e p s with
           | Some (p', s') => exec es' p' s'
           | None => None
           end
       end.

(** The steps for the whole tape. *)
Fixpoint steps (es : list env) (p : pc) (s : shared) : option (pc * shared) :=
  match es with
  | [] => Some (p, s)
  | e :: es' => '(p', s') ← step e p s; steps es' p' s'
  end.

(** The nodes at the addresses [l] are linked from [p] to a null pointer. *)
Fixpoint linked (m : gmap loc node) (p : nodeptr) (l : list loc) : Prop :=
  match l with
  | [] => p = None
  | a :: l' => p = Some a /\ exists n, m !! a = Some n /\ linked m (next n) l'
  end.

End stack.
Arguments node : clear implicits.
Arguments shared : clear implicits.
Arguments pc : clear implicits.
End lock_free_stack_with_gc.

Module GC := lock_free_stack_with_gc.


(** ** Any number of threads on one [lock_free_stack] *)

Module lock_free_stack_threads.
Section threads.
Context {T : Type}.

Definition thread_id := nat.

(** What a thread does next: it calls [push(v)] or [pop()], or it makes a
    step of the call it is in. *)
Inductive action : Type :=
| Call (o : op T)
| Run (e : env).

(** The shared memory, and for each thread the point it is at; [None]: it
    has made no call yet. *)
Record config : Type := Config {
  mem : LS.shared T;
  threads : thread_id -> option (LS.pc T)
}.

Definition resting (o : option (LS.pc T)) : bool :=
  match o with
  | None => true
  | Some p => LS.final p
  end.

Definition gstep (t : thread_id) (a : action) (c : config) : option config :=
  match a with
  | Call o =>
      if resting (threads c t)
      then Some (Config (mem c) (<[t := Some (LS.entry o)]> (threads c)))
      else None
  | Run e =>
      p ← threads c t;
      '(p', s') ← LS.step e p (mem c);
      Some (Config s' (<[t := Some p']> (threads c)))
  end.

(** A schedule is run from left to right. *)
Fixpoint grun (sched : list (thread_id * action)) (c : config) : option config :=
  match sched with
  | [] => Some c
  | (t, a) :: sched' => c' ← gstep t a c; grun sched' c'
  end.

(** The stack the memory holds: the nodes at the addresses of [l], with the
    payloads of [l], are linked from [p] to a null pointer. *)
Fixpoint stack (m : gmap loc (LS.node T)) (p : nodeptr) (l : list (loc * T))
    : Prop :=
  match l with
  | [] => p = None
  | (a, v) :: l' =>
      p = Some a /\ exists nxt, m !! a = Some (LS.Node (Some v) nxt) /\ stack m nxt l'
  end.

(** The program starts with a well-formed stack and no call under way. *)
Inductive reachable : config -> Prop :=
| reachable_initial s l :
    stack (LS.heap s) (LS.head s) l -> reachable (Config s (fun _ => None))
| reachable_step c t a c' :
    reachable c -> gstep t a c = Some c' -> reachable c'.

(** A node some [push] has allocated and not yet published. *)
Definition private (c : config) (a : loc) : Prop :=
  exists t p, threads c t = Some p /\ LS.unpublished p = Some a.

(** What holds of the node a thread has in hand: the node of a [push] is
    allocated, holds a payload and is not in the stack; the node of a [pop]
    is allocated, holds a payload and is not private to a [push]; and the
    successor a [pop] has read is the node's successor. *)
Definition thread_ok (c : config) (l : list (loc * T)) (p : LS.pc T) : Prop :=
  match p with
  | LS.PushLoad a | LS.PushCas a =>
      (a ∉ l.*1) /\
      exists v nxt, LS.heap (mem c) !! a = Some (LS.Node (Some v) nxt)
  | LS.PopTest (Some a) | LS.PopRet (Some a) =>
      (exists v nxt, LS.heap (mem c) !! a = Some (LS.Node (Some v) nxt)) /\
      ~ private c a
  | LS.PopCas a nxt =>
      (exists v, LS.heap (mem c) !! a = Some (LS.Node (Some v) nxt)) /\
      ~ private c a
  | _ => True
  end.

Record inv (c : config) (l : list (loc * T)) : Prop := Inv {
  inv_stack : stack (LS.heap (mem c)) (LS.head (mem c)) l;
  inv_thread : forall t p, threads c t = Some p -> thread_ok c l p;
  inv_own : forall t1 t2 p1 p2 a,
    threads c t1 = Some p1 -> threads c t2 = Some p2 ->
    LS.unpublished p1 = Some a -> LS.unpublished p2 = Some a -> t1 = t2
}.

(** What a step of a thread from [p] to [p'] does to the stack, [l] before
    and [l'] after, [m'] being the nodes after: the compare-exchange of
    [push] that succeeds puts the thread's node on top; the one of [pop]
    that succeeds takes the top node off; a [pop] sees a null head only
    when the stack is empty; a [pop] that has taken a node off returns its
    payload; any other step leaves the stack as it is. *)
Definition effect (p p' : option (LS.pc T)) (m' : gmap loc (LS.node T))
    (l l' : list (loc * T)) : Prop :=
  match p, p' with
  | Some (LS.PushCas a), Some LS.PushDone => exists v, l' = (a, v) :: l
  | Some (LS.PopCas a _), Some (LS.PopRet r) =>
      r = Some a /\ exists v, l = (a, v) :: l'
  | _, Some (LS.PopTest None) => l = [] /\ l' = []
  | Some (LS.PopRet (Some a)), Some (LS.PopDone res) =>
      l' = l /\ exists v nxt, res = Some v /\ m' !! a = Some (LS.Node (Some v) nxt)
  | Some (LS.PopRet None), Some (LS.PopDone res) => l' = l /\ res = None
  | _, _ => l' = l
  end.

End threads.
Arguments action : clear implicits.
Arguments config : clear implicits.

(** Thread 1 pushes 5 and is about to publish its node, at address 1;
    thread 0 has pushed 6, at address 2, and is about to take it off
    again, having read the head and the node's successor. *)
Definition two_threads : list (thread_id * action nat) :=
  [(1%nat, Call (Push 5%nat)); (1%nat, Run (env_alloc 1%positive));
   (0%nat, Call (Push 6%nat)); (0%nat, Run (env_alloc 2%positive));
   (0%nat, Run env_quiet); (0%nat, Run env_quiet);
   (1%nat, Run env_quiet);
   (0%nat, Call Pop); (0%nat, Run env_quiet); (0%nat, Run env_quiet)].

End lock_free_stack_threads.

Module LT := lock_free_stack_threads.
(** * Properties *)

(** ** Compare-exchange and [int] arithmetic *)

Lemma compare_exchange_same {A : Type} `{EqDecision A} (cur desired : A) :
  compare_exchange false cur cur desired = (true, desired, cur).
Proof. unfold compare_exchange. by rewrite bool_decide_eq_true_2. Qed.

Lemma compare_exchange_spurious {A : Type} `{EqDecision A}
    (cur expected desired : A) :
  compare_exchange true cur expected desired = (false, cur, cur).
Proof. unfold compare_exchange. by rewrite andb_false_r. Qed.

Lemma compare_exchange_differ {A : Type} `{EqDecision A}
    (fail : bool) (cur expected desired : A) :
  cur ≠ expected ->
  compare_exchange fail cur expected desired = (false, cur, cur).
Proof. intros Hne. unfold compare_exchange. by rewrite bool_decide_eq_false_2. Qed.

Lemma compare_exchange_inv {A : Type} `{EqDecision A}
    (fail : bool) (cur expected desired : A) :
  (compare_exchange fail cur expected desired = (true, desired, expected)
   /\ cur = expected /\ fail = false)
  \/ (compare_exchange fail cur expected desired = (false, cur, cur)
      /\ (cur ≠ expected \/ fail = true)).
Proof.
  unfold compare_exchange. destruct (bool_decide_reflect (cur = expected)), fail;
    simpl; auto.
Qed.

(** Case analysis of a step equation. *)
Ltac invert_step H :=
  simpl in H;
  repeat first
    [ match type of H with
      | context [compare_exchange ?f ?a ?b ?c] =>
          let Hce := fresh "Hce" in
          destruct (compare_exchange_inv f a b c) as [(Hce & ? & ?)|(Hce & ?)];
          rewrite Hce in H; clear Hce
      end
    | progress simplify_option_eq
    | match type of H with
      | context [?x ≫= _] => destruct x eqn:?; simpl in H
      end
    | case_match; simplify_eq/= ].

Lemma int_wrap_range (z : Z) : int_range (int_wrap z).
Proof.
  unfold int_range, int_wrap.
  pose proof (Z.mod_pos_bound (z + 2 ^ 31) (2 ^ 32) ltac:(lia)). lia.
Qed.

Lemma int_wrap_id (z : Z) : int_range z -> int_wrap z = z.
Proof.
  unfold int_range, int_wrap. intros Hz.
  rewrite Z.mod_small by lia. lia.
Qed.

(** An atomic add lands on zero exactly when the value before it is the
    negated increment. *)
Lemma int_wrap_add_zero (pre inc : Z) :
  int_range pre ->
  int_wrap (pre + inc) = 0 <-> pre = int_wrap (- inc).
Proof.
  unfold int_range, int_wrap. intros Hpre.
  pose proof (Z.mod_pos_bound (pre + inc + 2 ^ 31) (2 ^ 32) ltac:(lia)) as Hb1.
  pose proof (Z.mod_pos_bound (- inc + 2 ^ 31) (2 ^ 32) ltac:(lia)) as Hb2.
  pose proof (Z.div_mod (pre + inc + 2 ^ 31) (2 ^ 32) ltac:(lia)) as Hd1.
  pose proof (Z.div_mod (- inc + 2 ^ 31) (2 ^ 32) ltac:(lia)) as Hd2.
  split; intros H; lia.
Qed.

Lemma int_wrap_add_l (a b : Z) : int_wrap (int_wrap a + b) = int_wrap (a + b).
Proof.
  unfold int_wrap. f_equal.
  replace ((a + 2 ^ 31) mod 2 ^ 32 - 2 ^ 31 + b + 2 ^ 31)
    with ((a + 2 ^ 31) mod 2 ^ 32 + b) by lia.
  rewrite Z.add_mod_idemp_l by lia. f_equal. lia.
Qed.

(** [k] increments of an [int]. *)
Lemma int_wrap_iter (k : nat) (x : Z) :
  int_range x ->
  Nat.iter k (fun z => int_wrap (z + 1)) x = int_wrap (x + Z.of_nat k).
Proof.
  intros Hx. induction k as [|k IH].
  - simpl. rewrite Z.add_0_r. by rewrite int_wrap_id.
  - rewrite Nat.iter_succ, IH, int_wrap_add_l. f_equal. lia.
Qed.

(** *** [lock_free_stack] *)

Section lock_free_stack_facts.
Import lock_free_stack.
Context {T : Type}.
Implicit Types (s : shared T) (p : pc T) (n : node T) (v : T).

Lemma plain_set_next_id n : set_next n (next n) = n.
Proof. by destruct n. Qed.

Lemma plain_shared_eta s : Shared (head s) (heap s) = s.
Proof. by destruct s. Qed.

Lemma plain_push_inv_step v e p s p' s' :
  push_inv v p s -> step e p s = Some (p', s') -> push_inv v p' s'.
Proof.
  intros Hinv Hstep.
  destruct p as [w|b|b| | |[b|]|b k|[b|]| | ]; simpl in Hinv; try done;
    simpl in Hstep.
  - subst w. destruct (alloc e) as [c|]; [|by simplify_eq].
    destruct (heap s !! c) eqn:Hc; simplify_eq. simpl.
    eexists. by rewrite lookup_insert_eq.
  - destruct Hinv as [j Hj]. rewrite Hj in Hstep. simpl in Hstep. simplify_eq.
    simpl. eexists. by rewrite lookup_insert_eq.
  - destruct Hinv as [j Hj]. rewrite Hj in Hstep. simpl in Hstep.
    destruct (compare_exchange _ _ _ _) as [[ok h'] x'].
    simplify_eq. destruct ok; simpl; [done|].
    eexists. by rewrite lookup_insert_eq.
Qed.

Lemma plain_push_at_inv v p s : push_at v p s -> push_inv v p s.
Proof.
  induction 1 as [s|p s e p' s' Hat IH Hstep|p s s' Hat IH Hint].
  - done.
  - by eapply plain_push_inv_step.
  - destruct p; try done; simpl in *;
      destruct IH as [j Hj]; exists j; by rewrite (Hint _ eq_refl).
Qed.

(** Every step of [push(v)], under any interleaving. *)
Lemma plain_push_step v p s e p' s' :
  push_at v p s -> step e p s = Some (p', s') -> push_post v e p s p' s'.
Proof.
  intros Hat%plain_push_at_inv Hstep. unfold push_post.
  destruct p as [w|b|b| | |[b|]|b k|[b|]| | ]; simpl in Hat; try done;
    simpl in Hstep.
  - subst w. destruct (alloc e) as [c|] eqn:He; [|by simplify_eq].
    destruct (heap s !! c) eqn:Hc; simplify_eq. simpl.
    repeat split; try done. eexists. by rewrite lookup_insert_eq.
  - destruct Hat as [j Hj]. rewrite Hj in Hstep. simpl in Hstep. simplify_eq.
    simpl. repeat split; auto. by rewrite lookup_insert_eq.
  - destruct Hat as [j Hj]. rewrite Hj in Hstep. simpl in Hstep.
    destruct (compare_exchange_inv (spurious e) (head s) j (Some b))
      as [(Hce & Heq & _)|(Hce & _)]; rewrite Hce in Hstep; simplify_eq; simpl.
    + exists b. repeat split; auto. by rewrite lookup_insert_eq.
    + repeat split; auto. by rewrite lookup_insert_eq.
Qed.

Lemma plain_exec_final es p s :
  final p = true -> exec es p s = Some (p, s, es).
Proof. intros Hf. destruct es; simpl; by rewrite Hf. Qed.

Lemma plain_exec_cons e es p s :
  final p = false ->
  exec (e :: es) p s =
  match step e p s with Some (p', s') => exec es p' s' | None => None end.
Proof. intros Hf. simpl. by rewrite Hf. Qed.

(** The retry loop of [push], run alone: spurious failures change nothing,
    and the first genuine attempt installs the node. *)
Lemma plain_exec_push_cas es s a n p' s' es' :
  heap s !! a = Some n -> next n = head s ->
  exec es (PushCas a) s = Some (p', s', es') ->
  p' = PushDone /\ s' = Shared (Some a) (heap s).
Proof.
  revert s. induction es as [|e es IH]; intros s Hn Hnext Hex; [done|].
  rewrite plain_exec_cons in Hex by done. simpl in Hex.
  rewrite Hn in Hex. simpl in Hex. rewrite Hnext in Hex.
  destruct (spurious e).
  - rewrite compare_exchange_spurious in Hex.
    rewrite <- Hnext, plain_set_next_id, insert_id, Hnext, plain_shared_eta in Hex
      by done.
    by apply IH in Hex.
  - rewrite compare_exchange_same in Hex.
    rewrite <- Hnext, plain_set_next_id, insert_id in Hex by done.
    rewrite plain_exec_final in Hex by done. by simplify_eq.
Qed.

(** [push(v)] run alone, whatever the environment decides. *)
Lemma plain_exec_push es v s p' s' es' :
  exec es (PushNew v) s = Some (p', s', es') ->
  (p' = Threw bad_alloc /\ s' = s) \/
  (exists a, heap s !! a = None /\ p' = PushDone /\
             s' = Shared (Some a) (<[a := Node (Some v) (head s)]> (heap s))).
Proof.
  destruct es as [|e1 es]; [done|].
  rewrite plain_exec_cons by done. simpl.
  destruct (alloc e1) as [a|].
  2: { rewrite plain_exec_final by done. intros; simplify_eq. by left. }
  destruct (heap s !! a) eqn:Ha; [done|].
  destruct es as [|e2 es]; [done|].
  rewrite plain_exec_cons by done. simpl. rewrite lookup_insert_eq. simpl.
  rewrite insert_insert_eq. intros Hex.
  eapply plain_exec_push_cas in Hex; [| by apply lookup_insert_eq | done].
  right. exists a. by destruct Hex as [-> ->].
Qed.

(** [push(v)] returns when run alone: three steps if nothing fails. *)
Lemma plain_push_alone es v s a :
  heap s !! a = None ->
  exec (env_alloc a :: env_quiet :: env_quiet :: es) (PushNew v) s =
  Some (PushDone, Shared (Some a) (<[a := Node (Some v) (head s)]> (heap s)), es).
Proof.
  intros Ha. simpl. rewrite Ha. simpl. rewrite lookup_insert_eq. simpl.
  rewrite insert_insert_eq, lookup_insert_eq. simpl.
  rewrite compare_exchange_same. rewrite insert_insert_eq.
  by rewrite plain_exec_final.
Qed.

(** The loop of [pop] on a stack that is not empty, run alone. *)
Lemma plain_exec_pop_loop es s a n p' s' es' :
  head s = Some a -> heap s !! a = Some n ->
  (exec es (PopTest (Some a)) s = Some (p', s', es') \/
   exec es (PopCas a (next n)) s = Some (p', s', es')) ->
  p' = PopDone (data n) /\ s' = Shared (next n) (heap s).
Proof.
  intros Hh Hn. induction es as [|e es IH]; [by intros [?|?]|].
  assert (Hcas : exec (e :: es) (PopCas a (next n)) s = Some (p', s', es') ->
                 p' = PopDone (data n) /\ s' = Shared (next n) (heap s)).
  { rewrite plain_exec_cons by done. simpl. rewrite Hh.
    destruct (spurious e).
    - rewrite compare_exchange_spurious. rewrite <- Hh, plain_shared_eta, Hh.
      intros Hex. apply IH. by left.
    - rewrite compare_exchange_same.
      destruct es as [|e' es]; [done|].
      rewrite plain_exec_cons by done. simpl. rewrite Hn. simpl.
      rewrite plain_exec_final by done. intros; by simplify_eq. }
  intros [Hex|Hex]; [|by apply Hcas].
  rewrite plain_exec_cons in Hex by done. simpl in Hex. rewrite Hn in Hex.
  simpl in Hex. apply IH. by right.
Qed.

Lemma plain_exec_pop es s a n p' s' es' :
  head s = Some a -> heap s !! a = Some n ->
  exec es PopLoad s = Some (p', s', es') ->
  p' = PopDone (data n) /\ s' = Shared (next n) (heap s).
Proof.
  intros Hh Hn. destruct es as [|e es]; [done|].
  rewrite plain_exec_cons by done. simpl. rewrite Hh. intros Hex.
  eapply plain_exec_pop_loop; eauto.
Qed.

Lemma plain_pop_alone es s a n :
  head s = Some a -> heap s !! a = Some n ->
  exec (env_quiet :: env_quiet :: env_quiet :: env_quiet :: es) PopLoad s =
  Some (PopDone (data n), Shared (next n) (heap s), es).
Proof.
  intros Hh Hn. simpl. rewrite Hh. simpl. rewrite Hn. simpl.
  rewrite Hh, compare_exchange_same. simpl. rewrite Hn. simpl.
  by rewrite plain_exec_final.
Qed.

(** [pop] on an empty stack, run alone. *)
Lemma plain_exec_pop_empty es s p' s' es' :
  head s = None ->
  exec es PopLoad s = Some (p', s', es') ->
  p' = PopDone None /\ s' = s.
Proof.
  intros Hh. destruct es as [|e1 [|e2 [|e3 es]]]; simpl; rewrite ?Hh; try done.
  simpl. rewrite plain_exec_final by done. intros; by simplify_eq.
Qed.

Lemma plain_pop_empty_alone e1 e2 e3 es s :
  head s = None ->
  exec (e1 :: e2 :: e3 :: es) PopLoad s = Some (PopDone None, s, es).
Proof. intros Hh. simpl. rewrite Hh. simpl. by rewrite plain_exec_final. Qed.

(** The client, call by call. *)
Lemma plain_run_push v os es s rs s' es' :
  run_ops (Push v :: os) es s = Some (rs, s', es') ->
  rs = [Raised bad_alloc] \/
  exists a es1 rs1,
    heap s !! a = None /\ rs = Pushed :: rs1 /\
    run_ops os es1 (Shared (Some a) (<[a := Node (Some v) (head s)]> (heap s)))
    = Some (rs1, s', es').
Proof.
  cbn [run_ops entry].
  destruct (exec es (PushNew v) s) as [[[p1 s1] es1]|] eqn:Hex; [|done].
  apply plain_exec_push in Hex as [[-> ->]|(a & Ha & -> & ->)]; simpl.
  - intros; simplify_eq. by left.
  - destruct (run_ops os es1 _) as [[[rs1 s2] es2]|] eqn:Hrun; [|done].
    simpl. intros; simplify_eq. right. by exists a, es1, rs1.
Qed.

Lemma plain_run_pop os es s a n rs s' es' :
  head s = Some a -> heap s !! a = Some n ->
  run_ops (Pop :: os) es s = Some (rs, s', es') ->
  exists es1 rs1,
    rs = Popped (data n) :: rs1 /\
    run_ops os es1 (Shared (next n) (heap s)) = Some (rs1, s', es').
Proof.
  intros Hh Hn. cbn [run_ops entry].
  destruct (exec es PopLoad s) as [[[p1 s1] es1]|] eqn:Hex; [|done].
  eapply plain_exec_pop in Hex as [-> ->]; [|done..]. simpl.
  destruct (run_ops os es1 _) as [[[rs1 s2] es2]|] eqn:Hrun; [|done].
  simpl. intros; simplify_eq. by exists es1, rs1.
Qed.

Lemma plain_run_pop_empty os es s rs s' es' :
  head s = None ->
  run_ops (Pop :: os) es s = Some (rs, s', es') ->
  exists es1 rs1,
    rs = Popped None :: rs1 /\ run_ops os es1 s = Some (rs1, s', es').
Proof.
  intros Hh. cbn [run_ops entry].
  destruct (exec es PopLoad s) as [[[p1 s1] es1]|] eqn:Hex; [|done].
  eapply plain_exec_pop_empty in Hex as [-> ->]; [|done]. simpl.
  destruct (run_ops os es1 _) as [[[rs1 s2] es2]|] eqn:Hrun; [|done].
  simpl. intros; simplify_eq. by exists es1, rs1.
Qed.

(** Three pushes and three pops by one thread, on any tape. *)
Lemma plain_lifo_any v1 v2 v3 es rs s' es' :
  run_ops [Push v1; Push v2; Push v3; Pop; Pop; Pop] es empty_stack
  = Some (rs, s', es') ->
  (forall x, Raised x ∉ rs) ->
  rs = [Pushed; Pushed; Pushed;
        Popped (Some v3); Popped (Some v2); Popped (Some v1)].
Proof.
  intros Hrun Hno.
  apply plain_run_push in Hrun as [->|(a1 & es1 & rs1 & Ha1 & -> & Hrun)].
  { exfalso. eapply Hno. constructor. }
  apply plain_run_push in Hrun as [->|(a2 & es2 & rs2 & Ha2 & -> & Hrun)].
  { exfalso. eapply Hno. do 1 constructor. constructor. }
  apply plain_run_push in Hrun as [->|(a3 & es3 & rs3 & Ha3 & -> & Hrun)].
  { exfalso. eapply Hno. do 2 constructor. constructor. }
  cbn [head heap] in *.
  assert (a2 ≠ a1) by (intros ->; by rewrite lookup_insert_eq in Ha2).
  assert (a3 ≠ a2) by (intros ->; by rewrite lookup_insert_eq in Ha3).
  assert (a3 ≠ a1).
  { intros ->. by rewrite lookup_insert_ne, lookup_insert_eq in Ha3. }
  eapply plain_run_pop in Hrun as (es4 & rs4 & -> & Hrun);
    [|done|by simpl; rewrite lookup_insert_eq].
  cbn [head heap next data] in Hrun.
  eapply plain_run_pop in Hrun as (es5 & rs5 & -> & Hrun);
    [|done|by simpl; rewrite lookup_insert_ne, lookup_insert_eq by done].
  cbn [head heap next data] in Hrun.
  eapply plain_run_pop in Hrun as (es6 & rs6 & -> & Hrun);
    [|done|by simpl; rewrite !lookup_insert_ne, lookup_insert_eq by done].
  simpl in Hrun. by simplify_eq.
Qed.

Lemma plain_lifo_run v1 v2 v3 :
  exists s',
    run_ops [Push v1; Push v2; Push v3; Pop; Pop; Pop] lifo_tape empty_stack
    = Some ([Pushed; Pushed; Pushed;
             Popped (Some v3); Popped (Some v2); Popped (Some v1)], s', []).
Proof. eexists. vm_compute. reflexivity. Qed.

(** Any number of pops of an empty stack. *)
Lemma plain_pops_empty_any k es s rs s' es' :
  head s = None ->
  run_ops (replicate k Pop) es s = Some (rs, s', es') ->
  rs = replicate k (Popped None) /\ s' = s.
Proof.
  intros Hh. revert es rs. induction k as [|k IH]; intros es rs Hrun.
  - simpl in Hrun. by simplify_eq.
  - change (replicate (S k) Pop) with (@Pop T :: replicate k Pop) in Hrun.
    apply plain_run_pop_empty in Hrun as (es1 & rs1 & -> & Hrun); [|done].
    apply IH in Hrun as [-> ->]. done.
Qed.

Lemma plain_pops_empty_run k es s :
  head s = None ->
  run_ops (replicate k Pop) (replicate (3 * k) env_quiet ++ es) s
  = Some (replicate k (Popped None), s, es).
Proof.
  intros Hh. induction k as [|k IH]; [done|].
  replace (3 * S k)%nat with (3 + 3 * k)%nat by lia.
  change (replicate (S k) Pop) with (@Pop T :: replicate k Pop).
  cbn [run_ops entry replicate Nat.add app].
  rewrite plain_pop_empty_alone by done. cbn [outcome_of mbind option_bind]. by rewrite IH.
Qed.

End lock_free_stack_facts.

(** *** [lock_free_stack_rf] *)

Section lock_free_stack_rf_facts.
Import lock_free_stack_rf.
Context {T : Type}.
Implicit Types (s : shared T) (p : pc T) (n : node T) (v : T).
Implicit Types (c : counted_node_ptr).

Lemma rf_set_next_id n : set_next n (next n) = n.
Proof. by destruct n. Qed.

Lemma rf_shared_eta s : Shared (head s) (heap s) = s.
Proof. by destruct s. Qed.

Lemma rf_push_inv_step v e p s p' s' :
  push_inv v p s -> step e p s = Some (p', s') -> push_inv v p' s'.
Proof.
  intros Hinv Hstep.
  destruct p; simpl in Hinv; try done; simpl in Hstep.
  - subst. destruct (alloc e) as [a|]; [|by simplify_eq].
    destruct (heap s !! a) eqn:Ha; simplify_eq. simpl.
    do 2 eexists. split; [done|]. by rewrite lookup_insert_eq.
  - destruct Hinv as (a & j & -> & Hj). simpl in Hstep.
    rewrite Hj in Hstep. simpl in Hstep. simplify_eq.
    simpl. do 2 eexists. split; [done|]. by rewrite lookup_insert_eq.
  - destruct Hinv as (a & j & -> & Hj). simpl in Hstep.
    rewrite Hj in Hstep. simpl in Hstep.
    destruct (compare_exchange _ _ _ _) as [[ok h'] x'].
    simplify_eq. destruct ok; simpl; [done|].
    do 2 eexists. split; [done|]. by rewrite lookup_insert_eq.
Qed.

Lemma rf_push_at_inv v p s : push_at v p s -> push_inv v p s.
Proof.
  induction 1 as [s|p s e p' s' Hat IH Hstep|p s s' Hat IH Hint].
  - done.
  - by eapply rf_push_inv_step.
  - destruct p; try done; simpl in *;
      destruct IH as (a & j & -> & Hj); exists a, j;
      by rewrite (Hint _ eq_refl).
Qed.

(** Every step of [push(v)], under any interleaving. *)
Lemma rf_push_step v p s e p' s' :
  push_at v p s -> step e p s = Some (p', s') -> push_post v e p s p' s'.
Proof.
  intros Hat%rf_push_at_inv Hstep. unfold push_post.
  destruct p; simpl in Hat; try done; simpl in Hstep.
  - subst. destruct (alloc e) as [a|] eqn:He; [|by simplify_eq].
    destruct (heap s !! a) eqn:Ha; simplify_eq. simpl.
    split; [done|]. exists a. repeat split; try done.
    eexists. by rewrite lookup_insert_eq.
  - destruct Hat as (a & j & -> & Hj). simpl in Hstep.
    rewrite Hj in Hstep. simpl in Hstep. simplify_eq.
    simpl. split; [auto|]. exists a. repeat split; auto.
    by rewrite lookup_insert_eq.
  - destruct Hat as (a & j & -> & Hj). simpl in Hstep.
    rewrite Hj in Hstep. simpl in Hstep.
    destruct (compare_exchange_inv (spurious e) (head s) j (Counted 1 (Some a)))
      as [(Hce & Heq & _)|(Hce & _)]; rewrite Hce in Hstep; simplify_eq; simpl.
    + exists a. repeat split; auto. by rewrite lookup_insert_eq.
    + split; [auto|]. exists a. repeat split; auto. by rewrite lookup_insert_eq.
Qed.

Lemma rf_exec_final es p s :
  final p = true -> exec es p s = Some (p, s, es).
Proof. intros Hf. destruct es; simpl; by rewrite Hf. Qed.

Lemma rf_exec_cons e es p s :
  final p = false ->
  exec (e :: es) p s =
  match step e p s with Some (p', s') => exec es p' s' | None => None end.
Proof. intros Hf. simpl. by rewrite Hf. Qed.

Lemma rf_exec_push_cas es s a n p' s' es' :
  heap s !! a = Some n -> next n = head s ->
  exec es (PushCas (Counted 1 (Some a))) s = Some (p', s', es') ->
  p' = PushDone /\ s' = Shared (Counted 1 (Some a)) (heap s).
Proof.
  revert s. induction es as [|e es IH]; intros s Hn Hnext Hex; [done|].
  rewrite rf_exec_cons in Hex by done. simpl in Hex.
  rewrite Hn in Hex. simpl in Hex. rewrite Hnext in Hex.
  destruct (spurious e).
  - rewrite compare_exchange_spurious in Hex.
    rewrite <- Hnext, rf_set_next_id, insert_id, Hnext, rf_shared_eta in Hex
      by done.
    by apply IH in Hex.
  - rewrite compare_exchange_same in Hex.
    rewrite <- Hnext, rf_set_next_id, insert_id in Hex by done.
    rewrite rf_exec_final in Hex by done. by simplify_eq.
Qed.

Lemma rf_exec_push es v s p' s' es' :
  exec es (PushNew v) s = Some (p', s', es') ->
  (p' = Threw bad_alloc /\ s' = s) \/
  (exists a, heap s !! a = None /\ p' = PushDone /\
             s' = Shared (Counted 1 (Some a))
                    (<[a := Node (Some v) 0 (head s)]> (heap s))).
Proof.
  destruct es as [|e1 es]; [done|].
  rewrite rf_exec_cons by done. simpl.
  destruct (alloc e1) as [a|].
  2: { rewrite rf_exec_final by done. intros; simplify_eq. by left. }
  destruct (heap s !! a) eqn:Ha; [done|].
  destruct es as [|e2 es]; [done|].
  rewrite rf_exec_cons by done. simpl. rewrite lookup_insert_eq. simpl.
  rewrite insert_insert_eq. intros Hex.
  eapply rf_exec_push_cas in Hex; [| by apply lookup_insert_eq | done].
  right. exists a. by destruct Hex as [-> ->].
Qed.

Lemma rf_push_alone es v s a :
  heap s !! a = None ->
  exec (env_alloc a :: env_quiet :: env_quiet :: es) (PushNew v) s =
  Some (PushDone,
        Shared (Counted 1 (Some a)) (<[a := Node (Some v) 0 (head s)]> (heap s)),
        es).
Proof.
  intros Ha. simpl. rewrite Ha. simpl. rewrite lookup_insert_eq. simpl.
  rewrite insert_insert_eq, lookup_insert_eq. simpl.
  rewrite compare_exchange_same. rewrite insert_insert_eq.
  by rewrite rf_exec_final.
Qed.

(** [pop] run alone on a stack that is not empty: it returns the payload of
    the top node, the head moves to the successor, and no other node is
    touched. *)
Lemma rf_exec_pop es s k a n p' s' es' :
  head s = Counted k (Some a) -> heap s !! a = Some n ->
  exec es PopLoad s = Some (p', s', es') ->
  p' = PopDone (data n) /\ head s' = next n /\
  (forall b, b ≠ a -> heap s' !! b = heap s !! b).
Proof.
  intros Hh Hn.
  destruct es as [|e1 [|e2 [|e3 [|e4 [|e5 [|e6 es]]]]]]; simpl;
    rewrite ?Hh; simpl; rewrite ?compare_exchange_same; simpl;
    rewrite ?Hn; simpl; rewrite ?compare_exchange_same; simpl;
    rewrite ?Hn; simpl; rewrite ?lookup_insert_eq; simpl; try done.
  case_bool_decide.
  - destruct es as [|e7 es]; simpl; [done|]. rewrite lookup_insert_eq. simpl.
    rewrite rf_exec_final by done. intros; simplify_eq. simpl.
    repeat split; try done.
    intros b Hb. by rewrite lookup_delete_ne, !lookup_insert_ne.
  - rewrite rf_exec_final by done. intros; simplify_eq. simpl.
    repeat split; try done.
    intros b Hb. by rewrite !lookup_insert_ne.
Qed.

Lemma rf_pop_alone es s a n :
  head s = Counted 1 (Some a) -> heap s !! a = Some n ->
  internal_count n = 0 ->
  exec (replicate 7 env_quiet ++ es) PopLoad s =
  Some (PopDone (data n), Shared (next n) (delete a (heap s)), es).
Proof.
  intros Hh Hn Hc. simpl. rewrite Hh. simpl. rewrite compare_exchange_same.
  simpl. rewrite Hn. simpl. rewrite compare_exchange_same. simpl.
  rewrite Hn. simpl. rewrite lookup_insert_eq. simpl. rewrite Hc.
  simpl. rewrite lookup_insert_eq. simpl. rewrite rf_exec_final by done.
  by rewrite !delete_insert_eq.
Qed.

(** [pop] run alone on an empty stack: the claim of line 360 is made before
    the test of line 362, so the count in the head goes up by one. *)
Lemma rf_exec_pop_empty es s p' s' es' :
  ptr (head s) = None ->
  exec es PopLoad s = Some (p', s', es') ->
  p' = PopDone None /\
  s' = Shared (Counted (int_wrap (external_count (head s) + 1)) None) (heap s).
Proof.
  intros Hh. destruct es as [|e1 [|e2 es]]; simpl; try done.
  rewrite compare_exchange_same. simpl. rewrite Hh. simpl.
  rewrite rf_exec_final by done. intros; by simplify_eq.
Qed.

Lemma rf_pop_empty_alone e1 e2 es s :
  ptr (head s) = None ->
  exec (e1 :: e2 :: es) PopLoad s =
  Some (PopDone None,
        Shared (Counted (int_wrap (external_count (head s) + 1)) None) (heap s),
        es).
Proof.
  intros Hh. simpl. rewrite compare_exchange_same. simpl. rewrite Hh. simpl.
  by rewrite rf_exec_final.
Qed.

Lemma rf_run_push v os es s rs s' es' :
  run_ops (Push v :: os) es s = Some (rs, s', es') ->
  rs = [Raised bad_alloc] \/
  exists a es1 rs1,
    heap s !! a = None /\ rs = Pushed :: rs1 /\
    run_ops os es1
      (Shared (Counted 1 (Some a)) (<[a := Node (Some v) 0 (head s)]> (heap s)))
    = Some (rs1, s', es').
Proof.
  cbn [run_ops entry].
  destruct (exec es (PushNew v) s) as [[[p1 s1] es1]|] eqn:Hex; [|done].
  apply rf_exec_push in Hex as [[-> ->]|(a & Ha & -> & ->)]; simpl.
  - intros; simplify_eq. by left.
  - destruct (run_ops os es1 _) as [[[rs1 s2] es2]|] eqn:Hrun; [|done].
    simpl. intros; simplify_eq. right. by exists a, es1, rs1.
Qed.

Lemma rf_run_pop os es s k a n rs s' es' :
  head s = Counted k (Some a) -> heap s !! a = Some n ->
  run_ops (Pop :: os) es s = Some (rs, s', es') ->
  exists s1 es1 rs1,
    rs = Popped (data n) :: rs1 /\ head s1 = next n /\
    (forall b, b ≠ a -> heap s1 !! b = heap s !! b) /\
    run_ops os es1 s1 = Some (rs1, s', es').
Proof.
  intros Hh Hn. cbn [run_ops entry].
  destruct (exec es PopLoad s) as [[[p1 s1] es1]|] eqn:Hex; [|done].
  eapply rf_exec_pop in Hex as (-> & Hh1 & Hheap); [|done..]. simpl.
  destruct (run_ops os es1 _) as [[[rs1 s2] es2]|] eqn:Hrun; [|done].
  simpl. intros; simplify_eq. by exists s1, es1, rs1.
Qed.

Lemma rf_run_pop_empty os es s rs s' es' :
  ptr (head s) = None ->
  run_ops (Pop :: os) es s = Some (rs, s', es') ->
  exists es1 rs1,
    rs = Popped None :: rs1 /\
    run_ops os es1
      (Shared (Counted (int_wrap (external_count (head s) + 1)) None) (heap s))
    = Some (rs1, s', es').
Proof.
  intros Hh. cbn [run_ops entry].
  destruct (exec es PopLoad s) as [[[p1 s1] es1]|] eqn:Hex; [|done].
  eapply rf_exec_pop_empty in Hex as [-> ->]; [|done]. simpl.
  destruct (run_ops os es1 _) as [[[rs1 s2] es2]|] eqn:Hrun; [|done].
  simpl. intros; simplify_eq. by exists es1, rs1.
Qed.

Lemma rf_lifo_any k0 v1 v2 v3 es rs s' es' :
  run_ops [Push v1; Push v2; Push v3; Pop; Pop; Pop] es (empty_stack k0)
  = Some (rs, s', es') ->
  (forall x, Raised x ∉ rs) ->
  rs = [Pushed; Pushed; Pushed;
        Popped (Some v3); Popped (Some v2); Popped (Some v1)].
Proof.
  intros Hrun Hno.
  apply rf_run_push in Hrun as [->|(a1 & es1 & rs1 & Ha1 & -> & Hrun)].
  { exfalso. eapply Hno. constructor. }
  apply rf_run_push in Hrun as [->|(a2 & es2 & rs2 & Ha2 & -> & Hrun)].
  { exfalso. eapply Hno. do 1 constructor. constructor. }
  apply rf_run_push in Hrun as [->|(a3 & es3 & rs3 & Ha3 & -> & Hrun)].
  { exfalso. eapply Hno. do 2 constructor. constructor. }
  cbn [head heap] in *.
  assert (a2 ≠ a1) by (intros ->; by rewrite lookup_insert_eq in Ha2).
  assert (a3 ≠ a2) by (intros ->; by rewrite lookup_insert_eq in Ha3).
  assert (a3 ≠ a1).
  { intros ->. by rewrite lookup_insert_ne, lookup_insert_eq in Ha3. }
  eapply rf_run_pop in Hrun as (s4 & es4 & rs4 & -> & Hh4 & Hm4 & Hrun);
    [|done|by simpl; rewrite lookup_insert_eq].
  cbn [head heap next data] in *.
  eapply rf_run_pop in Hrun as (s5 & es5 & rs5 & -> & Hh5 & Hm5 & Hrun);
    [|done|by rewrite Hm4, lookup_insert_ne, lookup_insert_eq by done].
  cbn [head heap next data] in *.
  eapply rf_run_pop in Hrun as (s6 & es6 & rs6 & -> & Hh6 & Hm6 & Hrun);
    [|done|by rewrite Hm5, Hm4, !lookup_insert_ne, lookup_insert_eq by done].
  simpl in Hrun. by simplify_eq.
Qed.

Lemma rf_lifo_run k0 v1 v2 v3 :
  exists s',
    run_ops [Push v1; Push v2; Push v3; Pop; Pop; Pop]
      (lifo_tape ++ replicate 9 env_quiet) (empty_stack k0)
    = Some ([Pushed; Pushed; Pushed;
             Popped (Some v3); Popped (Some v2); Popped (Some v1)], s', []).
Proof.
  eexists.
  change (lifo_tape ++ replicate 9 env_quiet) with
    (env_alloc 1%positive :: env_quiet :: env_quiet ::
     env_alloc 2%positive :: env_quiet :: env_quiet ::
     env_alloc 3%positive :: env_quiet :: env_quiet ::
     replicate 7 env_quiet ++ replicate 7 env_quiet
       ++ replicate 7 env_quiet ++ []).
  unfold empty_stack. cbn [run_ops entry].
  rewrite rf_push_alone by done.
  cbn [outcome_of mbind option_bind head heap].
  rewrite rf_push_alone by done.
  cbn [outcome_of mbind option_bind head heap].
  rewrite rf_push_alone by done.
  cbn [outcome_of mbind option_bind head heap].
  erewrite rf_pop_alone; [|done|apply lookup_insert_eq|done].
  cbn [outcome_of mbind option_bind head heap next data].
  rewrite delete_insert_id by done.
  erewrite rf_pop_alone; [|done|apply lookup_insert_eq|done].
  cbn [outcome_of mbind option_bind head heap next data].
  rewrite delete_insert_id by done.
  erewrite rf_pop_alone; [|done|apply lookup_insert_eq|done].
  cbn [outcome_of mbind option_bind head heap next data].
  reflexivity.
Qed.

(** Any number of pops of an empty stack: each one adds one to the count
    in the head. *)
Lemma rf_pops_empty_any k es s rs s' es' :
  ptr (head s) = None ->
  run_ops (replicate k Pop) es s = Some (rs, s', es') ->
  rs = replicate k (Popped None) /\
  s' = Shared
         (Counted (Nat.iter k (fun z => int_wrap (z + 1)) (external_count (head s)))
            None)
         (heap s).
Proof.
  revert es s rs. induction k as [|k IH]; intros es s rs Hh Hrun.
  - simpl in Hrun. simplify_eq. split; [done|]. simpl.
    destruct s' as [[??]?]. simpl in *. by subst.
  - change (replicate (S k) Pop) with (@Pop T :: replicate k Pop) in Hrun.
    apply rf_run_pop_empty in Hrun as (es1 & rs1 & -> & Hrun); [|done].
    apply IH in Hrun as [-> ->]; [|done]. split; [done|].
    cbn [head heap external_count]. by rewrite Nat.iter_succ_r.
Qed.

Lemma rf_pops_empty_run k es s :
  ptr (head s) = None ->
  run_ops (replicate k Pop) (replicate (2 * k) env_quiet ++ es) s
  = Some (replicate k (Popped None),
          Shared
            (Counted (Nat.iter k (fun z => int_wrap (z + 1))
                        (external_count (head s))) None)
            (heap s),
          es).
Proof.
  revert s. induction k as [|k IH]; intros s Hh.
  - simpl. destruct s as [[??]?]. simpl in *. by subst.
  - replace (2 * S k)%nat with (2 + 2 * k)%nat by lia.
    change (replicate (S k) Pop) with (@Pop T :: replicate k Pop).
    cbn [run_ops entry replicate Nat.add app].
    rewrite rf_pop_empty_alone by done. cbn [outcome_of mbind option_bind].
    rewrite IH by done. cbn [mbind option_bind head heap external_count].
    by rewrite Nat.iter_succ_r.
Qed.

End lock_free_stack_rf_facts.

(** *** The steps of [push] as equations *)

Section lock_free_stack_push_steps.
Import lock_free_stack.
Context {T : Type}.
Implicit Types (s : shared T) (p : pc T) (n : node T) (v : T).

Lemma plain_push_new_eq v e s a :
  alloc e = Some a -> heap s !! a = None ->
  step e (PushNew v) s
  = Some (PushLoad a,
          Shared (head s) (<[a := Node (Some v) (junk_ptr e)]> (heap s))).
Proof. intros Ha Hfresh. simpl. by rewrite Ha, Hfresh. Qed.

Lemma plain_push_load_eq v e s a :
  push_at v (PushLoad a) s ->
  step e (PushLoad a) s
  = Some (PushCas a, Shared (head s) (<[a := Node (Some v) (head s)]> (heap s))).
Proof. intros [j Hj]%plain_push_at_inv. simpl. by rewrite Hj. Qed.

Lemma plain_push_cas_eq v e s a :
  push_at v (PushCas a) s ->
  exists j,
    heap s !! a = Some (Node (Some v) j) /\
    step e (PushCas a) s
    = Some (if bool_decide (head s = j) && negb (spurious e)
            then (PushDone, Shared (Some a) (heap s))
            else (PushCas a,
                  Shared (head s) (<[a := Node (Some v) (head s)]> (heap s)))).
Proof.
  intros [j Hj]%plain_push_at_inv. exists j. split; [done|].
  simpl. rewrite Hj. simpl. unfold compare_exchange.
  destruct (bool_decide (head s = j) && negb (spurious e)); simpl; [|done].
  by rewrite insert_id.
Qed.

(** The retry loop of [push], run alone: [k] spurious failures, then the
    compare-exchange that succeeds. *)
Lemma plain_exec_push_retry k es s a n :
  heap s !! a = Some n -> next n = head s ->
  exec (replicate k env_spurious ++ env_quiet :: es) (PushCas a) s
  = Some (PushDone, Shared (Some a) (heap s), es).
Proof.
  intros Hn Hnext. induction k as [|k IH].
  - simpl. rewrite Hn. simpl. rewrite Hnext, compare_exchange_same.
    rewrite <- Hnext, plain_set_next_id, insert_id by done.
    by rewrite plain_exec_final.
  - change (replicate (S k) env_spurious ++ env_quiet :: es)
      with (env_spurious :: (replicate k env_spurious ++ env_quiet :: es)).
    rewrite plain_exec_cons by done. simpl. rewrite Hn. simpl.
    rewrite compare_exchange_spurious.
    rewrite <- Hnext, plain_set_next_id, insert_id, Hnext, plain_shared_eta
      by done.
    exact IH.
Qed.

Lemma plain_exec_push_start rest v s a :
  heap s !! a = None ->
  exec (env_alloc a :: env_quiet :: rest) (PushNew v) s
  = exec rest (PushCas a)
      (Shared (head s)
         (<[a := Node (Some v) (head s)]>
            (<[a := Node (Some v) None]> (heap s)))).
Proof.
  intros Ha. simpl. rewrite Ha. simpl. by rewrite lookup_insert_eq.
Qed.

Lemma plain_push_retry_alone k es v s a :
  heap s !! a = None ->
  exec (env_alloc a :: env_quiet :: replicate k env_spurious ++ env_quiet :: es)
    (PushNew v) s
  = Some (PushDone, Shared (Some a) (<[a := Node (Some v) (head s)]> (heap s)),
          es).
Proof.
  intros Ha. rewrite plain_exec_push_start by done.
  rewrite (plain_exec_push_retry k es _ a (Node (Some v) (head s))); simpl.
  - by rewrite insert_insert_eq.
  - by rewrite lookup_insert_eq.
  - done.
Qed.

End lock_free_stack_push_steps.

Section lock_free_stack_rf_push_steps.
Import lock_free_stack_rf.
Context {T : Type}.
Implicit Types (s : shared T) (p : pc T) (n : node T) (v : T).

Lemma rf_push_new_eq v e s a :
  alloc e = Some a -> heap s !! a = None ->
  step e (PushNew v) s
  = Some (PushLoad (Counted 1 (Some a)),
          Shared (head s)
            (<[a := Node (Some v) 0 (Counted (junk_count e) (junk_ptr e))]>
               (heap s))).
Proof. intros Ha Hfresh. simpl. by rewrite Ha, Hfresh. Qed.

Lemma rf_push_load_eq v e s new_node :
  push_at v (PushLoad new_node) s ->
  exists a,
    new_node = Counted 1 (Some a) /\
    step e (PushLoad new_node) s
    = Some (PushCas new_node,
            Shared (head s) (<[a := Node (Some v) 0 (head s)]> (heap s))).
Proof.
  intros (a & j & -> & Hj)%rf_push_at_inv. exists a. split; [done|].
  simpl. by rewrite Hj.
Qed.

Lemma rf_push_cas_eq v e s new_node :
  push_at v (PushCas new_node) s ->
  exists a j,
    new_node = Counted 1 (Some a) /\
    heap s !! a = Some (Node (Some v) 0 j) /\
    step e (PushCas new_node) s
    = Some (if bool_decide (head s = j) && negb (spurious e)
            then (PushDone, Shared new_node (heap s))
            else (PushCas new_node,
                  Shared (head s) (<[a := Node (Some v) 0 (head s)]> (heap s)))).
Proof.
  intros (a & j & -> & Hj)%rf_push_at_inv. exists a, j. do 2 (split; [done|]).
  simpl. rewrite Hj. simpl. unfold compare_exchange.
  destruct (bool_decide (head s = j) && negb (spurious e)); simpl; [|done].
  by rewrite insert_id.
Qed.

Lemma rf_exec_push_retry k es s a n :
  heap s !! a = Some n -> next n = head s ->
  exec (replicate k env_spurious ++ env_quiet :: es)
    (PushCas (Counted 1 (Some a))) s
  = Some (PushDone, Shared (Counted 1 (Some a)) (heap s), es).
Proof.
  intros Hn Hnext. induction k as [|k IH].
  - simpl. rewrite Hn. simpl. rewrite Hnext, compare_exchange_same.
    rewrite <- Hnext, rf_set_next_id, insert_id by done.
    by rewrite rf_exec_final.
  - change (replicate (S k) env_spurious ++ env_quiet :: es)
      with (env_spurious :: (replicate k env_spurious ++ env_quiet :: es)).
    rewrite rf_exec_cons by done. simpl. rewrite Hn. simpl.
    rewrite compare_exchange_spurious.
    rewrite <- Hnext, rf_set_next_id, insert_id, Hnext, rf_shared_eta
      by done.
    exact IH.
Qed.

Lemma rf_exec_push_start rest v s a :
  heap s !! a = None ->
  exec (env_alloc a :: env_quiet :: rest) (PushNew v) s
  = exec rest (PushCas (Counted 1 (Some a)))
      (Shared (head s)
         (<[a := Node (Some v) 0 (head s)]>
            (<[a := Node (Some v) 0 (Counted 0 None)]> (heap s)))).
Proof.
  intros Ha. simpl. rewrite Ha. simpl. by rewrite lookup_insert_eq.
Qed.

Lemma rf_push_retry_alone k es v s a :
  heap s !! a = None ->
  exec (env_alloc a :: env_quiet :: replicate k env_spurious ++ env_quiet :: es)
    (PushNew v) s
  = Some (PushDone,
          Shared (Counted 1 (Some a)) (<[a := Node (Some v) 0 (head s)]> (heap s)),
          es).
Proof.
  intros Ha. rewrite rf_exec_push_start by done.
  rewrite (rf_exec_push_retry k es _ a (Node (Some v) 0 (head s))); simpl.
  - by rewrite insert_insert_eq.
  - by rewrite lookup_insert_eq.
  - done.
Qed.

End lock_free_stack_rf_push_steps.

(** *** The claims on [lock_free_stack] and [lock_free_stack_rf] *)

(** C5.  Every step of [push(v)], in both classes and under any
    interleaving: the node allocated is new and holds [v]; line 55 (348)
    makes its successor the head just read; a compare-exchange that fails
    makes its successor the head it has seen and is tried again; the one that
    succeeds leaves the node as the head, with the head it has replaced as
    successor.  Each of these steps is taken: [new] that returns unused
    memory, the load of line 55 (348) and the compare-exchange of line 56
    (349) are defined in every memory the call can be in, with the result
    given here; and a [push] run alone whose compare-exchange fails
    spuriously [k] times tries again each time and then installs its
    node. *)
Theorem push_installs_node (T : Type) (v : T) :
  (forall e p s p' s',
     LS.push_at v p s -> LS.step e p s = Some (p', s') ->
     LS.push_post v e p s p' s') /\
  (forall e p s p' s',
     RF.push_at v p s -> RF.step e p s = Some (p', s') ->
     RF.push_post v e p s p' s') /\
  (forall e s a,
     alloc e = Some a -> LS.heap s !! a = None ->
     LS.step e (LS.PushNew v) s
     = Some (LS.PushLoad a,
             LS.Shared (LS.head s)
               (<[a := LS.Node (Some v) (junk_ptr e)]> (LS.heap s)))) /\
  (forall e s a,
     LS.push_at v (LS.PushLoad a) s ->
     LS.step e (LS.PushLoad a) s
     = Some (LS.PushCas a,
             LS.Shared (LS.head s)
               (<[a := LS.Node (Some v) (LS.head s)]> (LS.heap s)))) /\
  (forall e s a,
     LS.push_at v (LS.PushCas a) s ->
     exists j,
       LS.heap s !! a = Some (LS.Node (Some v) j) /\
       LS.step e (LS.PushCas a) s
       = Some (if bool_decide (LS.head s = j) && negb (spurious e)
               then (LS.PushDone, LS.Shared (Some a) (LS.heap s))
               else (LS.PushCas a,
                     LS.Shared (LS.head s)
                       (<[a := LS.Node (Some v) (LS.head s)]> (LS.heap s))))) /\
  (forall k es s a,
     LS.heap s !! a = None ->
     LS.exec
       (env_alloc a :: env_quiet :: replicate k env_spurious ++ env_quiet :: es)
       (LS.PushNew v) s
     = Some (LS.PushDone,
             LS.Shared (Some a)
               (<[a := LS.Node (Some v) (LS.head s)]> (LS.heap s)),
             es)) /\
  (forall e s a,
     alloc e = Some a -> RF.heap s !! a = None ->
     RF.step e (RF.PushNew v) s
     = Some (RF.PushLoad (RF.Counted 1 (Some a)),
             RF.Shared (RF.head s)
               (<[a := RF.Node (Some v) 0
                         (RF.Counted (junk_count e) (junk_ptr e))]>
                  (RF.heap s)))) /\
  (forall e s new_node,
     RF.push_at v (RF.PushLoad new_node) s ->
     exists a,
       new_node = RF.Counted 1 (Some a) /\
       RF.step e (RF.PushLoad new_node) s
       = Some (RF.PushCas new_node,
               RF.Shared (RF.head s)
                 (<[a := RF.Node (Some v) 0 (RF.head s)]> (RF.heap s)))) /\
  (forall e s new_node,
     RF.push_at v (RF.PushCas new_node) s ->
     exists a j,
       new_node = RF.Counted 1 (Some a) /\
       RF.heap s !! a = Some (RF.Node (Some v) 0 j) /\
       (RF.head s = j -> spurious e = false ->
        RF.step e (RF.PushCas new_node) s
        = Some (RF.PushDone, RF.Shared new_node (RF.heap s))) /\
       (RF.head s ≠ j \/ spurious e = true ->
        RF.step e (RF.PushCas new_node) s
        = Some (RF.PushCas new_node,
                RF.Shared (RF.head s)
                  (<[a := RF.Node (Some v) 0 (RF.head s)]> (RF.heap s))))) /\
  (forall k es s a,
     RF.heap s !! a = None ->
     RF.exec
       (env_alloc a :: env_quiet :: replicate k env_spurious ++ env_quiet :: es)
       (RF.PushNew v) s
     = Some (RF.PushDone,
             RF.Shared (RF.Counted 1 (Some a))
               (<[a := RF.Node (Some v) 0 (RF.head s)]> (RF.heap s)),
             es)).
Proof.
  split_and!.
  - intros e p s p' s' Hat Hstep. by eapply plain_push_step.
  - intros e p s p' s' Hat Hstep. by eapply rf_push_step.
  - intros e s a. apply plain_push_new_eq.
  - intros e s a. apply plain_push_load_eq.
  - intros e s a. apply plain_push_cas_eq.
  - intros k es s a. apply plain_push_retry_alone.
  - intros e s a. apply rf_push_new_eq.
  - intros e s new_node. apply rf_push_load_eq.
  - intros e s new_node (a & j & Hnew & Hj & Hstep)%(rf_push_cas_eq v e).
    exists a, j. do 2 (split; [done|]). rewrite Hstep. split.
    + intros Hhd Hsp. by rewrite bool_decide_eq_true_2, Hsp.
    + intros [Hne|Hsp].
      * by rewrite bool_decide_eq_false_2.
      * by rewrite Hsp, andb_false_r.
  - intros k es s a. apply rf_push_retry_alone.
Qed.

Lemma push_installs_node_witness :
  LS.push_post 7%nat env_quiet (LS.PushCas 1%positive)
    (LS.Shared None {[ 1%positive := LS.Node (Some 7%nat) None ]})
    LS.PushDone
    (LS.Shared (Some 1%positive) {[ 1%positive := LS.Node (Some 7%nat) None ]}) /\
  RF.push_post 7%nat env_quiet (RF.PushCas (RF.Counted 1 (Some 1%positive)))
    (RF.Shared (RF.Counted 0 None)
       {[ 1%positive := RF.Node (Some 7%nat) 0 (RF.Counted 0 None) ]})
    RF.PushDone
    (RF.Shared (RF.Counted 1 (Some 1%positive))
       {[ 1%positive := RF.Node (Some 7%nat) 0 (RF.Counted 0 None) ]}) /\
  LS.exec
    (env_alloc 1%positive :: env_quiet :: replicate 2 env_spurious ++
     env_quiet :: [])
    (LS.PushNew 7%nat) LS.empty_stack
  = Some (LS.PushDone,
          LS.Shared (Some 1%positive)
            (<[1%positive := LS.Node (Some 7%nat) None]> ∅),
          []) /\
  RF.exec
    (env_alloc 1%positive :: env_quiet :: replicate 2 env_spurious ++
     env_quiet :: [])
    (RF.PushNew 7%nat) (RF.empty_stack 0)
  = Some (RF.PushDone,
          RF.Shared (RF.Counted 1 (Some 1%positive))
            (<[1%positive := RF.Node (Some 7%nat) 0 (RF.Counted 0 None)]> ∅),
          []).
Proof.
  destruct (push_installs_node nat 7%nat)
    as (Hls & Hrf & _ & _ & _ & Hlsrun & _ & _ & _ & Hrfrun).
  split_and!.
  - apply Hls.
    + apply (LS.push_at_step _ (LS.PushLoad 1%positive)
               (LS.Shared None {[ 1%positive := LS.Node (Some 7%nat) None ]})
               env_quiet); [|reflexivity].
      apply (LS.push_at_step _ (LS.PushNew 7%nat) LS.empty_stack
               (env_alloc 1%positive)); [|reflexivity].
      apply LS.push_at_entry.
    + reflexivity.
  - apply Hrf.
    + apply (RF.push_at_step _ (RF.PushLoad (RF.Counted 1 (Some 1%positive)))
               (RF.Shared (RF.Counted 0 None)
                  {[ 1%positive := RF.Node (Some 7%nat) 0 (RF.Counted 0 None) ]})
               env_quiet); [|reflexivity].
      apply (RF.push_at_step _ (RF.PushNew 7%nat) (RF.empty_stack 0)
               (env_alloc 1%positive)); [|reflexivity].
      apply RF.push_at_entry.
    + reflexivity.
  - refine (Hlsrun 2%nat [] LS.empty_stack 1%positive _). reflexivity.
  - refine (Hrfrun 2%nat [] (RF.empty_stack 0) 1%positive _). reflexivity.
Defined.

(** C9.  A [push] fails only at its first step, when [new] throws, and that
    step writes nothing: the memory, and so the head, is as it was.  Both
    classes. *)
Theorem failed_push_leaves_head (T : Type) (v : T) :
  (forall e s, alloc e = None ->
     LS.step e (LS.PushNew v) s = Some (LS.Threw bad_alloc, s)) /\
  (forall e p s x s',
     LS.push_at v p s -> LS.step e p s = Some (LS.Threw x, s') ->
     p = LS.PushNew v /\ x = bad_alloc /\ s' = s) /\
  (forall e s, alloc e = None ->
     RF.step e (RF.PushNew v) s = Some (RF.Threw bad_alloc, s)) /\
  (forall e p s x s',
     RF.push_at v p s -> RF.step e p s = Some (RF.Threw x, s') ->
     p = RF.PushNew v /\ x = bad_alloc /\ s' = s).
Proof.
  repeat split.
  - intros e s He. simpl. by rewrite He.
  - eapply plain_push_step in H0; [|done]. by destruct H0 as (? & ? & ? & ?).
  - eapply plain_push_step in H0; [|done]. by destruct H0 as (? & ? & ? & ?).
  - eapply plain_push_step in H0; [|done]. by destruct H0 as (? & ? & ? & ?).
  - intros e s He. simpl. by rewrite He.
  - eapply rf_push_step in H0; [|done]. by destruct H0 as (? & ? & ? & ?).
  - eapply rf_push_step in H0; [|done]. by destruct H0 as (? & ? & ? & ?).
  - eapply rf_push_step in H0; [|done]. by destruct H0 as (? & ? & ? & ?).
Qed.

Lemma failed_push_leaves_head_witness :
  LS.step (T := nat) env_quiet (LS.PushNew 7%nat) (LS.Shared (Some 5%positive) ∅)
  = Some (LS.Threw bad_alloc, LS.Shared (Some 5%positive) ∅) /\
  RF.step (T := nat) env_quiet (RF.PushNew 7%nat)
    (RF.Shared (RF.Counted 4 (Some 5%positive)) ∅)
  = Some (RF.Threw bad_alloc, RF.Shared (RF.Counted 4 (Some 5%positive)) ∅).
Proof.
  destruct (failed_push_leaves_head nat 7%nat) as (H1 & H2 & H3 & H4).
  split.
  - destruct (H2 env_quiet (LS.PushNew 7%nat)
                (LS.Shared (Some 5%positive) ∅) bad_alloc
                (LS.Shared (Some 5%positive) ∅)) as (_ & _ & _);
      [apply LS.push_at_entry | apply H1; reflexivity |].
    apply H1. reflexivity.
  - destruct (H4 env_quiet (RF.PushNew 7%nat)
                (RF.Shared (RF.Counted 4 (Some 5%positive)) ∅) bad_alloc
                (RF.Shared (RF.Counted 4 (Some 5%positive)) ∅)) as (_ & _ & _);
      [apply RF.push_at_entry | apply H3; reflexivity |].
    apply H3. reflexivity.
Defined.

(** C6.  One thread pushes [v1], [v2], [v3] on an empty stack and pops three
    times, nothing else running: it sees [v3], [v2], [v1].  For each class
    there is a run that returns from the six calls, and every run that does
    (whatever [new] returns, however often the weak compare-exchange fails
    spuriously) sees the same. *)
Theorem lifo_single_thread (T : Type) (v1 v2 v3 : T) :
  let calls := [Push v1; Push v2; Push v3; Pop; Pop; Pop] in
  let seen := [Pushed; Pushed; Pushed;
               Popped (Some v3); Popped (Some v2); Popped (Some v1)] in
  (exists s', LS.run_ops calls lifo_tape LS.empty_stack = Some (seen, s', [])) /\
  (forall es rs s' es',
     LS.run_ops calls es LS.empty_stack = Some (rs, s', es') ->
     (forall x, Raised x ∉ rs) -> rs = seen) /\
  (forall k, exists s',
     RF.run_ops calls (lifo_tape ++ replicate 9 env_quiet) (RF.empty_stack k)
     = Some (seen, s', [])) /\
  (forall k es rs s' es',
     RF.run_ops calls es (RF.empty_stack k) = Some (rs, s', es') ->
     (forall x, Raised x ∉ rs) -> rs = seen).
Proof.
  intros calls seen. split; [|split; [|split]].
  - apply plain_lifo_run.
  - intros es rs s' es'. apply plain_lifo_any.
  - intros k. apply rf_lifo_run.
  - intros k es rs s' es'. apply rf_lifo_any.
Qed.

Lemma lifo_single_thread_witness :
  exists rs,
    RF.run_ops [Push 1%nat; Push 2%nat; Push 3%nat; Pop; Pop; Pop]
      ([env_alloc 1%positive; env_quiet; env_spurious; env_quiet;
        env_alloc 2%positive; env_quiet; env_quiet;
        env_alloc 3%positive; env_quiet; env_quiet] ++ replicate 21 env_quiet)
      (RF.empty_stack 0)
    = Some (rs, RF.Shared (RF.Counted 0 None) ∅, []) /\
    rs = [Pushed; Pushed; Pushed;
          Popped (Some 3%nat); Popped (Some 2%nat); Popped (Some 1%nat)].
Proof.
  exists [Pushed; Pushed; Pushed;
          Popped (Some 3%nat); Popped (Some 2%nat); Popped (Some 1%nat)].
  split; [vm_compute; reflexivity|].
  apply (proj2 (proj2 (proj2 (lifo_single_thread nat 1%nat 2%nat 3%nat))) 0
           ([env_alloc 1%positive; env_quiet; env_spurious; env_quiet;
             env_alloc 2%positive; env_quiet; env_quiet;
             env_alloc 3%positive; env_quiet; env_quiet]
              ++ replicate 21 env_quiet)
           _ (RF.Shared (RF.Counted 0 None) ∅) []);
    [vm_compute; reflexivity|].
  intros x Hx.
  repeat (apply elem_of_cons in Hx as [Hx|Hx]; [discriminate Hx|]).
  by apply elem_of_nil in Hx.
Defined.

(** C7, as the code has it.  [k] pops of a stack with no element, by one
    thread: each returns the empty pointer.  [lock_free_stack] is left as it
    was.  [lock_free_stack_rf] keeps its nodes and its null head pointer, and
    the count in its head has gone up by [k] (as an [int]): [pop] claims the
    head at line 360 before it tests the pointer at line 362. *)
Theorem empty_pop_effect (T : Type) (k : nat) :
  (forall (s : LS.shared T) es,
     LS.head s = None ->
     LS.run_ops (replicate k Pop) (replicate (3 * k) env_quiet ++ es) s
     = Some (replicate k (Popped None), s, es)) /\
  (forall (s : LS.shared T) es rs s' es',
     LS.head s = None ->
     LS.run_ops (replicate k Pop) es s = Some (rs, s', es') ->
     rs = replicate k (Popped None) /\ s' = s) /\
  (forall (s : RF.shared T) es,
     RF.ptr (RF.head s) = None ->
     int_range (RF.external_count (RF.head s)) ->
     RF.run_ops (replicate k Pop) (replicate (2 * k) env_quiet ++ es) s
     = Some (replicate k (Popped None),
             RF.Shared
               (RF.Counted
                  (int_wrap (RF.external_count (RF.head s) + Z.of_nat k)) None)
               (RF.heap s),
             es)) /\
  (forall (s : RF.shared T) es rs s' es',
     RF.ptr (RF.head s) = None ->
     int_range (RF.external_count (RF.head s)) ->
     RF.run_ops (replicate k Pop) es s = Some (rs, s', es') ->
     rs = replicate k (Popped None) /\
     s' = RF.Shared
            (RF.Counted
               (int_wrap (RF.external_count (RF.head s) + Z.of_nat k)) None)
            (RF.heap s)).
Proof.
  split; [|split; [|split]].
  - intros s es Hh. by apply plain_pops_empty_run.
  - intros s es rs s' es' Hh Hrun. by eapply plain_pops_empty_any.
  - intros s es Hh Hr. rewrite rf_pops_empty_run by done.
    by rewrite int_wrap_iter.
  - intros s es rs s' es' Hh Hr Hrun.
    eapply rf_pops_empty_any in Hrun as [-> ->]; [|done].
    by rewrite int_wrap_iter.
Qed.

Lemma empty_pop_effect_witness :
  RF.run_ops (T := nat) [Pop; Pop] (replicate 4 env_quiet) (RF.empty_stack 0)
  = Some ([Popped None; Popped None], RF.Shared (RF.Counted 2 None) ∅, []) /\
  LS.run_ops (T := nat) [Pop; Pop] (replicate 6 env_quiet) LS.empty_stack
  = Some ([Popped None; Popped None], LS.empty_stack, []).
Proof.
  split.
  - apply (proj1 (proj2 (proj2 (empty_pop_effect nat 2))) (RF.empty_stack 0) []).
    + reflexivity.
    + unfold int_range. simpl. lia.
  - apply (proj1 (empty_pop_effect nat 2) LS.empty_stack []). reflexivity.
Defined.

(** C7 as the specification has it fails for [lock_free_stack_rf]: [pop] on
    the empty stack whose head is [{0, nullptr}] returns the empty pointer
    and leaves the head [{1, nullptr}]; so it is not true that every [pop] of
    an empty stack leaves the compound head as it was. *)
Lemma rf_empty_pop_changes_head :
  (RF.exec (T := nat) [env_quiet; env_quiet] RF.PopLoad (RF.empty_stack 0)
   = Some (RF.PopDone None, RF.Shared (RF.Counted 1 None) ∅, []) /\
   RF.head (RF.Shared (T := nat) (RF.Counted 1 None) ∅)
   ≠ RF.head (RF.empty_stack (T := nat) 0)) /\
  ~ (forall (s : RF.shared nat) es p s' es',
       RF.ptr (RF.head s) = None ->
       RF.exec es RF.PopLoad s = Some (p, s', es') ->
       p = RF.PopDone None /\ RF.head s' = RF.head s).
Proof.
  split; [split; [reflexivity|discriminate]|].
  intros Hall.
  destruct (Hall (RF.empty_stack 0) [env_quiet; env_quiet] (RF.PopDone None)
              (RF.Shared (RF.Counted 1 None) ∅) [] eq_refl eq_refl)
    as [_ Hhead].
  discriminate Hhead.
Qed.

(** C2.  The pop that has won the compare-exchange of line 366 on the head
    value [old_head] swaps the payload out and then, at lines 371-373, adds
    [external_count old_head - 2] to the node's [internal_count] by one
    [fetch_add]; it goes on to [delete ptr] exactly when the value before the
    add is the negated increment, which is exactly when the count after the
    add is zero; otherwise it returns without freeing.  [delete ptr] at line
    375 is reached in no other way.  The arithmetic is that of a 32-bit
    [int]. *)
Theorem rf_pop_settles_count (T : Type) (e : env) (s : RF.shared T)
    (old_head : RF.counted_node_ptr) (ptr_ : loc) (res : option T)
    (n : RF.node T) :
  RF.heap s !! ptr_ = Some n ->
  let count_increase := int_wrap (RF.external_count old_head - 2) in
  let frees := bool_decide (RF.internal_count n = int_wrap (- count_increase)) in
  (forall nxt, RF.head s = old_head ->
     RF.step e (RF.PopCas old_head ptr_ nxt) s
     = Some (RF.PopSwap old_head ptr_, RF.Shared nxt (RF.heap s))) /\
  RF.step e (RF.PopSwap old_head ptr_) s
  = Some (RF.PopSettle old_head ptr_ (RF.data n),
          RF.Shared (RF.head s)
            (<[ptr_ := RF.Node None (RF.internal_count n) (RF.next n)]>
               (RF.heap s))) /\
  RF.step e (RF.PopSettle old_head ptr_ res) s
  = Some (if frees then RF.PopDelete ptr_ res else RF.PopDone res,
          RF.Shared (RF.head s)
            (<[ptr_ := RF.Node (RF.data n)
                         (int_wrap (RF.internal_count n + count_increase))
                         (RF.next n)]> (RF.heap s))) /\
  (int_range (RF.internal_count n) ->
   (frees = true <-> int_wrap (RF.internal_count n + count_increase) = 0)) /\
  RF.step e (RF.PopDelete ptr_ res) s
  = Some (RF.PopDone res, RF.Shared (RF.head s) (delete ptr_ (RF.heap s))) /\
  RF.step e (RF.PopDone res) s = None /\
  (forall p s0 s1,
     RF.step e p s0 = Some (RF.PopDelete ptr_ res, s1) ->
     exists oh n0,
       p = RF.PopSettle oh ptr_ res /\ RF.heap s0 !! ptr_ = Some n0 /\
       RF.internal_count n0
       = int_wrap (- int_wrap (RF.external_count oh - 2))).
Proof.
  intros Hn count_increase frees. split_and!.
  - intros nxt <-. simpl. by rewrite compare_exchange_same.
  - simpl. by rewrite Hn.
  - simpl. by rewrite Hn.
  - intros Hr. unfold frees. rewrite bool_decide_eq_true.
    symmetry. by apply int_wrap_add_zero.
  - simpl. by rewrite Hn.
  - done.
  - intros p s0 s1 Hstep.
    destruct p; invert_step Hstep; eauto.
Qed.

Lemma rf_pop_settles_count_witness :
  RF.step env_quiet
    (RF.PopSettle (RF.Counted 2 (Some 1%positive)) 1%positive (Some 7%nat))
    (RF.Shared (RF.Counted 0 None)
       {[ 1%positive := RF.Node None 0 (RF.Counted 0 None) ]})
  = Some (RF.PopDelete 1%positive (Some 7%nat),
          RF.Shared (RF.Counted 0 None)
            {[ 1%positive := RF.Node None 0 (RF.Counted 0 None) ]}).
Proof.
  refine (proj1 (proj2 (proj2
    (rf_pop_settles_count nat env_quiet
       (RF.Shared (RF.Counted 0 None)
          {[ 1%positive := RF.Node None 0 (RF.Counted 0 None) ]})
       (RF.Counted 2 (Some 1%positive)) 1%positive (Some 7%nat)
       (RF.Node None 0 (RF.Counted 0 None)) _)))).
  reflexivity.
Defined.

(** C3.  The pop whose compare-exchange of line 366 fails keeps the head
    value it has just seen as its [old_head], takes one from the
    [internal_count] of the node it had claimed (lines 379-380), deletes the
    node exactly when the count was one before, which is when it is zero
    after (lines 382-383, reached in no other way), and starts the next turn
    of [for(;;)] at line 360, where [increase_head_count] claims the head if
    it is still that value and reads it again if not. *)
Theorem rf_pop_releases_claim (T : Type) (e : env) (s : RF.shared T)
    (old_head : RF.counted_node_ptr) (ptr_ : loc) (nxt : RF.counted_node_ptr)
    (n : RF.node T) :
  RF.heap s !! ptr_ = Some n ->
  let released := bool_decide (RF.internal_count n = 1) in
  let claimed :=
    RF.Counted (int_wrap (RF.external_count old_head + 1)) (RF.ptr old_head) in
  (RF.head s ≠ old_head ->
   RF.step e (RF.PopCas old_head ptr_ nxt) s
   = Some (RF.PopRelease (RF.head s) ptr_, s)) /\
  RF.step e (RF.PopRelease old_head ptr_) s
  = Some (if released then RF.PopReleaseLoad old_head ptr_
          else RF.PopClaim old_head,
          RF.Shared (RF.head s)
            (<[ptr_ := RF.Node (RF.data n) (int_wrap (RF.internal_count n - 1))
                         (RF.next n)]> (RF.heap s))) /\
  (int_range (RF.internal_count n) ->
   (released = true <-> int_wrap (RF.internal_count n - 1) = 0)) /\
  RF.step e (RF.PopReleaseLoad old_head ptr_) s
  = Some (RF.PopReleaseDelete old_head ptr_, s) /\
  RF.step e (RF.PopReleaseDelete old_head ptr_) s
  = Some (RF.PopClaim old_head,
          RF.Shared (RF.head s) (delete ptr_ (RF.heap s))) /\
  (forall (p : RF.pc T) s0 s1,
     RF.step e p s0 = Some (RF.PopReleaseDelete old_head ptr_, s1) ->
     p = RF.PopReleaseLoad old_head ptr_) /\
  (forall (p : RF.pc T) s0 s1,
     RF.step e p s0 = Some (RF.PopReleaseLoad old_head ptr_, s1) ->
     p = RF.PopRelease old_head ptr_ /\
     exists n0, RF.heap s0 !! ptr_ = Some n0 /\ RF.internal_count n0 = 1) /\
  RF.step e RF.PopLoad s = Some (RF.PopClaim (RF.head s), s) /\
  (RF.head s = old_head ->
   RF.step e (RF.PopClaim old_head) s
   = Some (match RF.ptr old_head with
           | None => RF.PopDone None
           | Some q => RF.PopNext claimed q
           end, RF.Shared claimed (RF.heap s))) /\
  (RF.head s ≠ old_head ->
   RF.step e (RF.PopClaim old_head) s = Some (RF.PopClaim (RF.head s), s)).
Proof.
  intros Hn released claimed. split_and!.
  - intros Hne. simpl. rewrite compare_exchange_differ by done.
    by rewrite rf_shared_eta.
  - simpl. by rewrite Hn.
  - intros Hr. unfold released. rewrite bool_decide_eq_true.
    rewrite (int_wrap_add_zero _ (-1) Hr). done.
  - simpl. by rewrite Hn.
  - simpl. by rewrite Hn.
  - intros p s0 s1 Hstep. destruct p; invert_step Hstep; eauto.
  - intros p s0 s1 Hstep. destruct p; invert_step Hstep; eauto.
  - done.
  - intros <-. simpl. by rewrite compare_exchange_same.
  - intros Hne. simpl. rewrite compare_exchange_differ by done.
    by rewrite rf_shared_eta.
Qed.

Lemma rf_pop_releases_claim_witness :
  RF.step env_quiet
    (RF.PopRelease (RF.Counted 1 (Some 2%positive)) 1%positive)
    (RF.Shared (RF.Counted 1 (Some 2%positive))
       {[ 1%positive := RF.Node (Some 7%nat) 1 (RF.Counted 0 None) ]})
  = Some (RF.PopReleaseLoad (RF.Counted 1 (Some 2%positive)) 1%positive,
          RF.Shared (RF.Counted 1 (Some 2%positive))
            {[ 1%positive := RF.Node (Some 7%nat) 0 (RF.Counted 0 None) ]}).
Proof.
  refine (proj1 (proj2
    (rf_pop_releases_claim nat env_quiet
       (RF.Shared (RF.Counted 1 (Some 2%positive))
          {[ 1%positive := RF.Node (Some 7%nat) 1 (RF.Counted 0 None) ]})
       (RF.Counted 1 (Some 2%positive)) 1%positive (RF.Counted 0 None)
       (RF.Node (Some 7%nat) 1 (RF.Counted 0 None)) _))).
  reflexivity.
Defined.

(** *** The hazard-pointer registry and [lock_free_stack_with_hazard] *)

Section hazard_facts.
Import lock_free_stack_with_hazard.
Context {T : Type}.
Implicit Types (s : shared T) (l : local T) (c : config T) (t : thread_id).
Implicit Types (h : hazard_pointer).

Lemma hz_set_id_id h : set_id h (id h) = h.
Proof. by destruct h. Qed.

Lemma hz_with_table_id s : with_table s (hazard_pointers s) = s.
Proof. by destruct s. Qed.

Lemma hz_with_head_id s : with_head s (head s) = s.
Proof. by destruct s. Qed.

(** A step of [t] leaves alone every slot that is neither free nor its
    own. *)
Lemma hz_step_frame e t l s l' s' j h :
  step e t l s = Some (l', s') ->
  (forall i, hp l = Some i ->
     exists h0, hazard_pointers s !! i = Some h0 /\ id h0 = Some t) ->
  hazard_pointers s !! j = Some h -> is_Some (id h) -> id h ≠ Some t ->
  hazard_pointers s' !! j = Some h.
Proof.
  intros Hstep Hown Hj Hsome Hne.
  assert (Hmine : forall i h0, hp l = Some i ->
            hazard_pointers s !! i = Some h0 -> i ≠ j).
  { intros i h0 Hi Hh0 ->. destruct (Hown _ Hi) as (h1 & Hh1 & Hid).
    congruence. }
  unfold step in Hstep.
  destruct (at_pc l) eqn:Hpc; invert_step Hstep; simpl; try done;
    match goal with
    | |- <[?i := _]> _ !! _ = _ =>
        destruct (decide (i = j)) as [->|?];
          [|by rewrite list_lookup_insert_ne]
    end;
    first
      [ by (exfalso; eapply Hmine; eauto)
      | by (simplify_eq; destruct Hsome; congruence)
      | rewrite list_lookup_insert_eq by (by eapply lookup_lt_Some);
        simplify_eq; by rewrite ?hz_set_id_id ].
Qed.

Lemma hz_lookup_set (tb : list hazard_pointer) (i j : nat) h h' h0 :
  tb !! i = Some h ->
  <[i := h']> tb !! j = Some h0 ->
  (j = i /\ h0 = h') \/ (j ≠ i /\ tb !! j = Some h0).
Proof.
  intros Hi. destruct (decide (i = j)) as [->|Hne].
  - rewrite list_lookup_insert_eq by (by eapply lookup_lt_Some).
    intros; simplify_eq. by left.
  - rewrite list_lookup_insert_ne by done. intros. right. by split.
Qed.

(** A step of [t] keeps its own part of the invariant. *)
Lemma hz_step_self e t l s l' s' :
  step e t l s = Some (l', s') -> thread_inv t l s -> thread_inv t l' s'.
Proof.
  intros Hstep (I1 & I2 & I3 & I4).
  unfold step in Hstep.
  destruct (at_pc l) eqn:Hpc; simpl in I2, I3, I4;
    try (match goal with k : pc T |- _ => destruct k; try done end);
    invert_step Hstep; (split_and!; simpl; try done).
  all: try (intros _; by eauto).
  all: try (intros; simplify_eq/=; by eauto).
  all: intros ? Heq; simplify_eq/=.
  all: try match goal with
       | |- exists (_ : nat) (_ : hazard_pointer), _ =>
           do 2 eexists; split_and!;
             [done|apply list_lookup_insert_eq; by eapply lookup_lt_Some|done]
       end.
  all: match goal with
       | |- exists _, <[?k := _]> _ !! ?k' = _ /\ _ =>
           first
             [ eexists; split;
                 [apply list_lookup_insert_eq; by eapply lookup_lt_Some|simpl]
             | destruct (decide (k = k')) as [<-|];
                 [eexists; split;
                    [apply list_lookup_insert_eq; by eapply lookup_lt_Some|simpl]
                 |rewrite list_lookup_insert_ne by done; by eauto] ]
       end.
  all: try done.
  all: edestruct I1 as (? & ? & ?); [first [eassumption|reflexivity]|];
    by simplify_eq.
Qed.

(** A step of [t] keeps the invariant of every other thread. *)
Lemma hz_step_other e t l s l' s' t' l2 :
  step e t l s = Some (l', s') -> thread_inv t l s ->
  t' ≠ t -> thread_inv t' l2 s -> thread_inv t' l2 s'.
Proof.
  intros Hstep (I1 & _) Hne (J1 & J2 & J3 & J4).
  assert (Hkeep : forall i h, hp l2 = Some i ->
            hazard_pointers s !! i = Some h -> hazard_pointers s' !! i = Some h).
  { intros i h Hi Hh. destruct (J1 _ Hi) as (h1 & Hh1 & Hid). simplify_eq.
    eapply hz_step_frame; eauto; congruence. }
  split_and!; try done.
  - intros i Hi. destruct (J1 _ Hi) as (h & Hh & Hid). eauto.
  - intros p Hp. destruct (J2 _ Hp) as (i & h & Hi & Hh & Hptr).
    exists i, h. eauto.
Qed.

Lemma hz_gstep_inv t a c c' : inv c -> gstep t a c = Some c' -> inv c'.
Proof.
  intros Hinv Hg t'. unfold gstep in Hg.
  destruct a as [| |e].
  - destruct (resting _) eqn:Hrest; simplify_eq. simpl.
    destruct (decide (t = t')) as [<-|Hne].
    + rewrite fn_lookup_insert. destruct (Hinv t) as (I1 & I2 & I3 & I4).
      by split_and!.
    + rewrite fn_lookup_insert_ne by done. apply Hinv.
  - destruct (resting _) eqn:Hrest; simplify_eq. simpl.
    destruct (decide (t = t')) as [<-|Hne].
    + rewrite fn_lookup_insert. destruct (Hinv t) as (I1 & I2 & I3 & I4).
      split_and!; simpl; try done; destruct (hp (threads c t)); by eauto.
    + rewrite fn_lookup_insert_ne by done. apply Hinv.
  - destruct (step e t (threads c t) (mem c)) as [[l' s']|] eqn:Hstep;
      simplify_eq/=.
    destruct (decide (t = t')) as [<-|Hne].
    + rewrite fn_lookup_insert. eapply hz_step_self; eauto.
    + rewrite fn_lookup_insert_ne by done.
      eapply hz_step_other; eauto.
Qed.

Lemma hz_reachable_inv c : reachable c -> inv c.
Proof.
  induction 1 as [h m|c t a c' Hr IH Hg].
  - intros t. by split_and!.
  - by eapply hz_gstep_inv.
Qed.

Lemma hz_grun_reachable sched c c' :
  reachable c -> grun sched c = Some c' -> reachable c'.
Proof.
  revert c. induction sched as [|[t a] sched IH]; intros c Hr Hrun.
  - simpl in Hrun. by simplify_eq.
  - simpl in Hrun. destruct (gstep t a c) as [c1|] eqn:Hg; [|done].
    simpl in Hrun. eapply IH; [|done]. by eapply reachable_step.
Qed.

Lemma hz_exec_final es t l s :
  final (at_pc l) = true -> exec es t l s = Some (l, s, es).
Proof. intros Hf. destruct es; simpl; by rewrite Hf. Qed.

(** The slots of a saturated table. *)
Lemma hz_saturated_slot t (tb : list hazard_pointer) i :
  saturated_for t tb = true -> (i < max_hazard_pointers)%nat ->
  exists h, tb !! i = Some h /\ is_Some (id h).
Proof.
  unfold saturated_for. intros [Hlen Hall]%andb_prop Hi.
  apply Nat.eqb_eq in Hlen.
  destruct (lookup_lt_is_Some_2 tb i) as [h Hh]; [lia|].
  exists h. split; [done|].
  rewrite forallb_forall in Hall.
  assert (Hin : In h tb) by (apply list_elem_of_In; by eapply list_elem_of_lookup_2).
  apply Hall in Hin. unfold owned_by_other in Hin.
  destruct (id h); [by eexists|done].
Qed.

(** One turn of the loop of [hp_owner::hp_owner] on a slot that is owned. *)
Lemma hz_scan_owned e t l s i h :
  at_pc l = HpScan i -> (i < max_hazard_pointers)%nat ->
  hazard_pointers s !! i = Some h -> is_Some (id h) ->
  step e t l s = Some (Local (hp l) (HpScan (S i)), s).
Proof.
  intros Hpc Hi Hh [t' Hid]. unfold step. rewrite Hpc.
  rewrite bool_decide_eq_true_2 by done. rewrite Hh. simpl.
  rewrite compare_exchange_differ by (by rewrite Hid).
  by rewrite hz_set_id_id, list_insert_id, hz_with_table_id.
Qed.

Lemma hz_scan_end e t l s :
  at_pc l = HpScan max_hazard_pointers ->
  step e t l s = Some (Local (hp l) (Threw runtime_error), s).
Proof. intros Hpc. unfold step. by rewrite Hpc. Qed.

(** The whole scan of a saturated table, run alone. *)
Lemma hz_exec_scan t s k i es0 es :
  saturated_for t (hazard_pointers s) = true ->
  (i + k = max_hazard_pointers)%nat -> length es0 = S k ->
  exec (es0 ++ es) t (Local None (HpScan i)) s
  = Some (Local None (Threw runtime_error), s, es).
Proof.
  intros Hsat. revert i es0. induction k as [|k IH]; intros i es0 Hi Hlen.
  - destruct es0 as [|e [|??]]; simplify_eq/=.
    replace i with max_hazard_pointers by lia.
    rewrite hz_scan_end by done. by rewrite hz_exec_final.
  - destruct es0 as [|e es0]; simplify_eq/=.
    destruct (hz_saturated_slot t (hazard_pointers s) i) as (h & Hh & Hid);
      [done|lia|].
    rewrite (hz_scan_owned e t _ s i h) by (done || lia). simpl.
    apply IH; lia.
Qed.

Lemma hz_exec_pop_saturated t s es0 es :
  saturated_for t (hazard_pointers s) = true -> length es0 = 102%nat ->
  exec (es0 ++ es) t (Local None PopEntry) s
  = Some (Local None (Threw runtime_error), s, es).
Proof.
  intros Hsat Hlen. destruct es0 as [|e es0]; simplify_eq/=.
  by apply (hz_exec_scan t s 100 0).
Qed.

End hazard_facts.

(** *** The claims on [lock_free_stack_with_hazard] *)



(** C8.  A thread that asks for a slot when every slot it looks at is owned
    fails its [pop] with [runtime_error]: each of the hundred
    compare-exchanges fails and writes nothing, whatever the other threads
    do in between, and the test of line 179 throws.  Run alone on a table
    whose hundred slots are owned by others, [pop] throws after 102 steps and
    leaves the memory as it was. *)
Theorem hazard_table_saturation (T : Type) (t : HZ.thread_id) :
  (forall e (l : HZ.local T) s i h,
     HZ.at_pc l = HZ.HpScan i -> (i < HZ.max_hazard_pointers)%nat ->
     HZ.hazard_pointers s !! i = Some h -> is_Some (HZ.id h) ->
     HZ.step e t l s = Some (HZ.Local (HZ.hp l) (HZ.HpScan (S i)), s)) /\
  (forall e (l : HZ.local T) s,
     HZ.at_pc l = HZ.HpScan HZ.max_hazard_pointers ->
     HZ.step e t l s = Some (HZ.Local (HZ.hp l) (HZ.Threw runtime_error), s)) /\
  (forall (s : HZ.shared T) es0 es,
     HZ.saturated_for t (HZ.hazard_pointers s) = true ->
     length es0 = 102%nat ->
     HZ.exec (es0 ++ es) t (HZ.Local None HZ.PopEntry) s
     = Some (HZ.Local None (HZ.Threw runtime_error), s, es)) /\
  HZ.max_hazard_pointers = 100%nat.
Proof.
  split_and!.
  - intros e l s i h. apply hz_scan_owned.
  - intros e l s. apply hz_scan_end.
  - intros s es0 es. apply hz_exec_pop_saturated.
  - done.
Qed.

Lemma hazard_table_saturation_witness :
  HZ.exec (T := nat) (replicate 102 env_quiet ++ []) 0%nat
    (HZ.Local None HZ.PopEntry)
    (HZ.Shared (Some 1%positive) HZ.one_node HZ.busy_table None ∅)
  = Some (HZ.Local None (HZ.Threw runtime_error),
          HZ.Shared (Some 1%positive) HZ.one_node HZ.busy_table None ∅, []).
Proof.
  apply (proj1 (proj2 (proj2 (hazard_table_saturation nat 0%nat)))).
  - vm_compute. reflexivity.
  - reflexivity.
Defined.

(** C10.  [pop] takes its slot first.  On an empty stack and a table whose
    slots are all owned by others it throws [runtime_error], having written
    nothing.  In every configuration the program reaches, a thread that has
    no slot makes a step that does not depend on the head, and a thread whose
    [pop] has returned owns a slot of the table. *)
Theorem hazard_pop_acquires_first (T : Type) (t : HZ.thread_id) :
  (forall (s : HZ.shared T) es0 es,
     HZ.head s = None ->
     HZ.saturated_for t (HZ.hazard_pointers s) = true ->
     length es0 = 102%nat ->
     HZ.exec (es0 ++ es) t (HZ.Local None HZ.PopEntry) s
     = Some (HZ.Local None (HZ.Threw runtime_error), s, es)) /\
  (forall (c : HZ.config T) e head',
     HZ.reachable c -> HZ.hp (HZ.threads c t) = None ->
     HZ.step e t (HZ.threads c t) (HZ.with_head (HZ.mem c) head')
     = (fun '(l', s') => (l', HZ.with_head s' head'))
         <$> HZ.step e t (HZ.threads c t) (HZ.mem c)) /\
  (forall (c : HZ.config T) res,
     HZ.reachable c -> HZ.at_pc (HZ.threads c t) = HZ.PopDone res ->
     exists i h,
       HZ.hp (HZ.threads c t) = Some i /\
       HZ.hazard_pointers (HZ.mem c) !! i = Some h /\ HZ.id h = Some t).
Proof.
  split_and!.
  - intros s es0 es _. apply hz_exec_pop_saturated.
  - intros c e head' Hr%hz_reachable_inv Hhp.
    destruct (Hr t) as (_ & _ & I3 & _).
    unfold HZ.step.
    destruct (HZ.at_pc (HZ.threads c t)) as [| |i| | | | | | | | | | | | | | | |x| | |]
      eqn:Hpc; try destruct x; simpl in I3;
      try (destruct I3 as [? ?]; [done|congruence]); try done.
    simpl. case_bool_decide; [|done].
    destruct (HZ.hazard_pointers (HZ.mem c) !! i); [|done]. simpl.
    by destruct (compare_exchange _ _ _ _) as [[[] ?] ?].
  - intros c res Hr%hz_reachable_inv Hpc.
    destruct (Hr t) as (I1 & _ & I3 & _). rewrite Hpc in I3.
    destruct (I3 eq_refl) as [i Hi]. destruct (I1 _ Hi) as (h & Hh & Hid).
    by exists i, h.
Qed.

Lemma hazard_pop_acquires_first_witness :
  HZ.exec (T := nat) (replicate 102 env_quiet ++ []) 0%nat
    (HZ.Local None HZ.PopEntry) (HZ.Shared None ∅ HZ.busy_table None ∅)
  = Some (HZ.Local None (HZ.Threw runtime_error),
          HZ.Shared None ∅ HZ.busy_table None ∅, []) /\
  exists c,
    HZ.grun ((0%nat, HZ.Call) :: replicate 7 (0%nat, HZ.Run env_quiet))
      (HZ.initial (T := nat) None ∅) = Some c /\
    exists i h,
      HZ.hp (HZ.threads c 0%nat) = Some i /\
      HZ.hazard_pointers (HZ.mem c) !! i = Some h /\ HZ.id h = Some 0%nat.
Proof.
  split.
  - apply (proj1 (hazard_pop_acquires_first nat 0%nat)).
    + reflexivity.
    + vm_compute. reflexivity.
    + reflexivity.
  - destruct (HZ.grun ((0%nat, HZ.Call) :: replicate 7 (0%nat, HZ.Run env_quiet))
                (HZ.initial (T := nat) None ∅)) as [c|] eqn:Hrun;
      [|by vm_compute in Hrun].
    exists c. split; [done|].
    apply (proj2 (proj2 (hazard_pop_acquires_first nat 0%nat)) c None
             (hz_grun_reachable _ _ _ (HZ.reachable_initial _ _) Hrun)).
    vm_compute in Hrun. injection Hrun as <-. reflexivity.
Defined.

(** C1 fails on the code: [outstanding_hazard_pointers_for] answers [false]
    without looking at the table.  In the run [racing_pops], thread 1 holds
    node 1 in slot 0 and is about to read its [next]; thread 0 pops the node
    and, at line 288, is told that no hazard pointer is outstanding although
    the slot holds the node; it deletes the node at line 294 instead of
    retiring it; the retire list stays empty, slot 0 still holds the node,
    and the step of thread 1 that reads the node is no longer defined. *)
Theorem hazard_pop_frees_protected_node :
  (forall data, HZ.outstanding_hazard_pointers_for data = false) /\
  HZ.observe <$> HZ.grun (HZ.racing_pops 9)
                   (HZ.initial (Some 1%positive) HZ.one_node)
  = Some (HZ.PopSwap 1%positive, HZ.PopTest (Some 1%positive),
          Some (HZ.HazardPointer (Some 1%nat) (Some 1%positive)),
          true, None, true, true) /\
  HZ.observe <$> HZ.grun (HZ.racing_pops 10)
                   (HZ.initial (Some 1%positive) HZ.one_node)
  = Some (HZ.PopDelete 1%positive (Some 7%nat), HZ.PopTest (Some 1%positive),
          Some (HZ.HazardPointer (Some 1%nat) (Some 1%positive)),
          true, None, true, true) /\
  HZ.observe <$> HZ.grun (HZ.racing_pops 11)
                   (HZ.initial (Some 1%positive) HZ.one_node)
  = Some (HZ.ReclaimExchange (Some 7%nat), HZ.PopTest (Some 1%positive),
          Some (HZ.HazardPointer (Some 1%nat) (Some 1%positive)),
          false, None, true, false).
Proof. split_and!; [done|vm_compute; reflexivity..]. Qed.

(** * Further properties of the four classes *)

(** ** Any number of pushes and pops by one thread *)

Lemma balanced_cons {T : Type} (v : T) (vs : list T) :
  balanced (v :: vs) = Push v :: (balanced vs ++ [Pop]).
Proof.
  unfold balanced. simpl. f_equal. rewrite <- app_assoc. f_equal.
  by rewrite <- replicate_cons_app.
Qed.

Lemma balanced_seen_cons {T : Type} (v : T) (vs : list T) :
  balanced_seen (v :: vs) = Pushed :: (balanced_seen vs ++ [Popped (Some v)]).
Proof.
  unfold balanced_seen. simpl. f_equal. rewrite map_app. simpl.
  by rewrite app_assoc.
Qed.

Lemma balanced_tape_cons (k : nat) (a : loc) (addrs : list loc) (es : list env) :
  balanced_tape k (a :: addrs) ++ es
  = env_alloc a :: env_quiet :: env_quiet ::
    (balanced_tape k addrs ++ replicate k env_quiet ++ es).
Proof.
  unfold balanced_tape. simpl. do 3 f_equal.
  rewrite <- !app_assoc. f_equal.
  replace (k * S (length addrs))%nat with (k * length addrs + k)%nat by lia.
  by rewrite replicate_add, <- app_assoc.
Qed.

Lemma not_raised_cons {T : Type} (r : outcome T) (rs : list (outcome T)) :
  (forall x, Raised x ∉ r :: rs) ->
  is_raised r = false /\ (forall x, Raised x ∉ rs).
Proof.
  intros Hno. split.
  - destruct r; try done. exfalso. eapply Hno. constructor.
  - intros x Hx. eapply Hno. by constructor.
Qed.

Lemma not_raised_app {T : Type} (rs1 rs2 : list (outcome T)) :
  (forall x, Raised x ∉ rs1 ++ rs2) ->
  (forall x, Raised x ∉ rs1) /\ (forall x, Raised x ∉ rs2).
Proof.
  intros Hno. split; intros x Hx; eapply Hno; apply elem_of_app; eauto.
Qed.

Lemma foldr_delete_delete {A : Type} (m : gmap loc A) (a : loc) (ks : list loc) :
  foldr delete (delete a m) ks = delete a (foldr delete m ks).
Proof.
  induction ks as [|k ks IH]; simpl; [done|].
  by rewrite IH, delete_delete.
Qed.

Section lock_free_stack_more.
Import lock_free_stack.
Context {T : Type}.
Implicit Types (s : shared T) (p : pc T) (n : node T) (v : T).

(** The calls [os1] and then [os2]. *)
Lemma plain_run_app os1 os2 es s rs s' es' :
  run_ops (os1 ++ os2) es s = Some (rs, s', es') ->
  (forall x, Raised x ∉ rs) ->
  exists rs1 s1 es1 rs2,
    run_ops os1 es s = Some (rs1, s1, es1) /\
    run_ops os2 es1 s1 = Some (rs2, s', es') /\ rs = rs1 ++ rs2.
Proof.
  revert es s rs. induction os1 as [|o os1 IH]; intros es s rs Hrun Hno.
  - exists [], s, es, rs. by simpl in *.
  - cbn [app run_ops] in Hrun |- *.
    destruct (exec es (entry o) s) as [[[p1 s1] es1]|]; [|done].
    simpl in Hrun |- *. destruct (outcome_of p1) as [r|]; [|done].
    simpl in Hrun |- *.
    destruct r; try (simplify_eq; exfalso; eapply Hno; by constructor).
    all: destruct (run_ops (os1 ++ os2) es1 s1) as [[[rs0 s2] es2]|] eqn:Hin;
      simplify_eq/=.
    all: apply not_raised_cons in Hno as [_ Hno].
    all: destruct (IH _ _ _ Hin Hno) as (rs1 & s3 & es3 & rs2 & -> & Hr2 & ->).
    all: simpl; eauto 10.
Qed.

Lemma plain_run_app_run os1 os2 es s rs1 s1 es1 :
  run_ops os1 es s = Some (rs1, s1, es1) ->
  (forall x, Raised x ∉ rs1) ->
  run_ops (os1 ++ os2) es s
  = '(rs2, s2, es2) ← run_ops os2 es1 s1; Some (rs1 ++ rs2, s2, es2).
Proof.
  revert es s rs1. induction os1 as [|o os1 IH]; intros es s rs1 Hrun Hno.
  - simpl in *. simplify_eq. simpl.
    by destruct (run_ops os2 es1 s1) as [[[??]?]|].
  - cbn [app run_ops] in Hrun |- *.
    destruct (exec es (entry o) s) as [[[p1 s2] es2]|]; [|done].
    simpl in Hrun |- *. destruct (outcome_of p1) as [r|]; [|done].
    simpl in Hrun |- *.
    destruct r; try (simplify_eq; exfalso; eapply Hno; by constructor).
    all: destruct (run_ops os1 es2 s2) as [[[rs0 s3] es3]|] eqn:Hin;
      simplify_eq/=.
    all: apply not_raised_cons in Hno as [_ Hno].
    all: rewrite (IH _ _ _ Hin Hno).
    all: by destruct (run_ops os2 es1 s1) as [[[??]?]|].
Qed.

(** Values pushed and then popped come back last in, first out; the head is
    where it was, and so is every node that was allocated: the class never
    deletes, the nodes of the values popped stay allocated too. *)
Lemma plain_balanced_any vs es s rs s' es' :
  run_ops (balanced vs) es s = Some (rs, s', es') ->
  (forall x, Raised x ∉ rs) ->
  rs = balanced_seen vs /\ head s' = head s /\ heap s ⊆ heap s' /\
  size (heap s') = (size (heap s) + length vs)%nat.
Proof.
  revert es s rs s' es'. induction vs as [|v vs IH]; intros es s rs s' es' Hrun Hno.
  - unfold balanced in Hrun. simpl in Hrun. simplify_eq.
    split_and!; [done..|simpl; lia].
  - rewrite balanced_cons in Hrun. rewrite balanced_seen_cons.
    apply plain_run_push in Hrun as [->|(a & es1 & rs1 & Ha & -> & Hrun)].
    { exfalso. eapply Hno. constructor. }
    apply not_raised_cons in Hno as [_ Hno].
    destruct (plain_run_app _ _ _ _ _ _ _ Hrun Hno)
      as (rsA & sA & esA & rs2 & HrunA & Hpop & ->).
    apply not_raised_app in Hno as [HnoA _].
    destruct (IH _ _ _ _ _ HrunA HnoA) as (-> & HhA & Hsub & Hsize).
    simpl in HhA, Hsub, Hsize.
    eapply plain_run_pop in Hpop as (es2 & rs3 & -> & Hnil);
      [|done|eapply lookup_weaken; [apply lookup_insert_eq|done]].
    simpl in Hnil. simplify_eq. simpl. split_and!; try done.
    + etrans; [|done]. by apply insert_subseteq.
    + rewrite Hsize, map_size_insert_None by done. lia.
Qed.

(** Such a run exists whenever [new] returns distinct free addresses. *)
Lemma plain_balanced_run vs addrs es s :
  length addrs = length vs -> NoDup addrs ->
  (forall a, a ∈ addrs -> heap s !! a = None) ->
  exists s',
    run_ops (balanced vs) (balanced_tape 4 addrs ++ es) s
    = Some (balanced_seen vs, s', es).
Proof.
  revert addrs es s. induction vs as [|v vs IH]; intros addrs es s Hlen Hnd Hfree.
  - destruct addrs; [|done]. by exists s.
  - destruct addrs as [|a addrs]; [done|].
    rewrite balanced_cons, balanced_seen_cons, balanced_tape_cons.
    injection Hlen as Hlen. apply NoDup_cons in Hnd as [Ha Hnd].
    cbn [run_ops entry].
    rewrite plain_push_alone by (apply Hfree; constructor).
    cbn [outcome_of mbind option_bind].
    edestruct (IH addrs (replicate 4 env_quiet ++ es)
                 (Shared (Some a) (<[a := Node (Some v) (head s)]> (heap s))))
      as [sA HrunA]; [done..| |].
    { intros b Hb. simpl. rewrite lookup_insert_ne by (by intros ->).
      apply Hfree. by constructor. }
    pose proof HrunA as Hany.
    apply plain_balanced_any in Hany as (_ & HhA & Hsub & _).
    2: { unfold balanced_seen. intros x [Hx|Hx]%elem_of_app.
         - apply elem_of_replicate in Hx as [? _]. done.
         - apply list_elem_of_fmap in Hx as (? & ? & _). done. }
    simpl in HhA, Hsub.
    rewrite (plain_run_app_run _ [Pop] _ _ _ _ _ HrunA).
    2: { unfold balanced_seen. intros x [Hx|Hx]%elem_of_app.
         - apply elem_of_replicate in Hx as [? _]. done.
         - apply list_elem_of_fmap in Hx as (? & ? & _). done. }
    cbn [run_ops entry replicate app].
    erewrite plain_pop_alone;
      [|done|eapply lookup_weaken; [apply lookup_insert_eq|done]].
    simpl. eauto.
Qed.

(** No step of [push] or [pop] deletes a node or changes a payload. *)
Lemma plain_step_keeps e p s p' s' a n :
  step e p s = Some (p', s') -> heap s !! a = Some n ->
  exists n', heap s' !! a = Some n' /\ data n' = data n.
Proof.
  intros Hstep Ha. destruct p; invert_step Hstep; simpl; eauto.
  all: match goal with
       | |- context [<[?b := _]> _ !! ?c] =>
           destruct (decide (b = c)) as [->|];
             [rewrite lookup_insert_eq; simplify_eq; eauto
             |rewrite lookup_insert_ne by done; eauto]
       end.
Qed.

End lock_free_stack_more.

Section lock_free_stack_rf_more.
Import lock_free_stack_rf.
Context {T : Type}.
Implicit Types (s : shared T) (p : pc T) (n : node T) (v : T).

Lemma rf_run_app os1 os2 es s rs s' es' :
  run_ops (os1 ++ os2) es s = Some (rs, s', es') ->
  (forall x, Raised x ∉ rs) ->
  exists rs1 s1 es1 rs2,
    run_ops os1 es s = Some (rs1, s1, es1) /\
    run_ops os2 es1 s1 = Some (rs2, s', es') /\ rs = rs1 ++ rs2.
Proof.
  revert es s rs. induction os1 as [|o os1 IH]; intros es s rs Hrun Hno.
  - exists [], s, es, rs. by simpl in *.
  - cbn [app run_ops] in Hrun |- *.
    destruct (exec es (entry o) s) as [[[p1 s1] es1]|]; [|done].
    simpl in Hrun |- *. destruct (outcome_of p1) as [r|]; [|done].
    simpl in Hrun |- *.
    destruct r; try (simplify_eq; exfalso; eapply Hno; by constructor).
    all: destruct (run_ops (os1 ++ os2) es1 s1) as [[[rs0 s2] es2]|] eqn:Hin;
      simplify_eq/=.
    all: apply not_raised_cons in Hno as [_ Hno].
    all: destruct (IH _ _ _ Hin Hno) as (rs1 & s3 & es3 & rs2 & -> & Hr2 & ->).
    all: simpl; eauto 10.
Qed.

Lemma rf_run_app_run os1 os2 es s rs1 s1 es1 :
  run_ops os1 es s = Some (rs1, s1, es1) ->
  (forall x, Raised x ∉ rs1) ->
  run_ops (os1 ++ os2) es s
  = '(rs2, s2, es2) ← run_ops os2 es1 s1; Some (rs1 ++ rs2, s2, es2).
Proof.
  revert es s rs1. induction os1 as [|o os1 IH]; intros es s rs1 Hrun Hno.
  - simpl in *. simplify_eq. simpl.
    by destruct (run_ops os2 es1 s1) as [[[??]?]|].
  - cbn [app run_ops] in Hrun |- *.
    destruct (exec es (entry o) s) as [[[p1 s2] es2]|]; [|done].
    simpl in Hrun |- *. destruct (outcome_of p1) as [r|]; [|done].
    simpl in Hrun |- *.
    destruct r; try (simplify_eq; exfalso; eapply Hno; by constructor).
    all: destruct (run_ops os1 es2 s2) as [[[rs0 s3] es3]|] eqn:Hin;
      simplify_eq/=.
    all: apply not_raised_cons in Hno as [_ Hno].
    all: rewrite (IH _ _ _ Hin Hno).
    all: by destruct (run_ops os2 es1 s1) as [[[??]?]|].
Qed.

(** [pop] run alone on a node nobody else has claimed: seven steps, the
    payload is returned, the head is the successor and the node is freed. *)
Lemma rf_pop_unclaimed es0 es s a n :
  head s = Counted 1 (Some a) -> heap s !! a = Some n ->
  internal_count n = 0 -> length es0 = 7%nat ->
  exec (es0 ++ es) PopLoad s
  = Some (PopDone (data n), Shared (next n) (delete a (heap s)), es).
Proof.
  intros Hh Hn Hc Hlen.
  destruct es0 as [|e1 [|e2 [|e3 [|e4 [|e5 [|e6 [|e7 [|??]]]]]]]]; try done.
  simpl. rewrite Hh. simpl. rewrite compare_exchange_same.
  simpl. rewrite Hn. simpl. rewrite compare_exchange_same. simpl.
  rewrite Hn. simpl. rewrite lookup_insert_eq. simpl. rewrite Hc.
  simpl. rewrite lookup_insert_eq. simpl. rewrite rf_exec_final by done.
  by rewrite !delete_insert_eq.
Qed.

Lemma rf_exec_pop_unclaimed es s a n p' s' es' :
  head s = Counted 1 (Some a) -> heap s !! a = Some n ->
  internal_count n = 0 ->
  exec es PopLoad s = Some (p', s', es') ->
  p' = PopDone (data n) /\ s' = Shared (next n) (delete a (heap s)).
Proof.
  intros Hh Hn Hc Hex.
  destruct (decide (length es < 7)%nat) as [Hlt|Hge].
  - exfalso.
    destruct es as [|e1 [|e2 [|e3 [|e4 [|e5 [|e6 [|e7 es]]]]]]];
      simpl in Hlt; try lia; revert Hex; simpl;
      rewrite ?Hh; simpl; rewrite ?compare_exchange_same; simpl;
      rewrite ?Hn; simpl; rewrite ?compare_exchange_same; simpl;
      rewrite ?Hn; simpl; rewrite ?lookup_insert_eq; simpl; rewrite ?Hc;
      simpl; try done.
  - rewrite <- (take_drop 7 es) in Hex.
    rewrite (rf_pop_unclaimed _ _ s a n) in Hex; try done.
    + by simplify_eq.
    + rewrite length_take. lia.
Qed.

(** Values pushed and then popped come back last in, first out, and the
    memory is exactly what it was: every node pushed has been freed. *)
Lemma rf_balanced_any vs es s rs s' es' :
  run_ops (balanced vs) es s = Some (rs, s', es') ->
  (forall x, Raised x ∉ rs) ->
  rs = balanced_seen vs /\ s' = s.
Proof.
  revert es s rs s' es'. induction vs as [|v vs IH]; intros es s rs s' es' Hrun Hno.
  - unfold balanced in Hrun. simpl in Hrun. by simplify_eq.
  - rewrite balanced_cons in Hrun. rewrite balanced_seen_cons.
    apply rf_run_push in Hrun as [->|(a & es1 & rs1 & Ha & -> & Hrun)].
    { exfalso. eapply Hno. constructor. }
    apply not_raised_cons in Hno as [_ Hno].
    destruct (rf_run_app _ _ _ _ _ _ _ Hrun Hno)
      as (rsA & sA & esA & rs2 & HrunA & Hpop & ->).
    apply not_raised_app in Hno as [HnoA _].
    destruct (IH _ _ _ _ _ HrunA HnoA) as (-> & ->).
    cbn [run_ops entry] in Hpop.
    destruct (exec esA PopLoad _) as [[[p1 s1] es1']|] eqn:Hex; [|done].
    eapply rf_exec_pop_unclaimed in Hex as [Hp1 Hs1];
      [|done|apply lookup_insert_eq|done].
    subst p1 s1. simpl in Hpop. simplify_eq. simpl.
    rewrite delete_insert_id by done. by rewrite rf_shared_eta.
Qed.

Lemma balanced_seen_no_raise (vs : list T) x : Raised x ∉ balanced_seen vs.
Proof.
  unfold balanced_seen. intros [Hx|Hx]%elem_of_app.
  - apply elem_of_replicate in Hx as [? _]. done.
  - apply list_elem_of_fmap in Hx as (? & ? & _). done.
Qed.

Lemma rf_balanced_run vs addrs es s :
  length addrs = length vs -> NoDup addrs ->
  (forall a, a ∈ addrs -> heap s !! a = None) ->
  run_ops (balanced vs) (balanced_tape 7 addrs ++ es) s
  = Some (balanced_seen vs, s, es).
Proof.
  revert addrs es s. induction vs as [|v vs IH]; intros addrs es s Hlen Hnd Hfree.
  - by destruct addrs.
  - destruct addrs as [|a addrs]; [done|].
    rewrite balanced_cons, balanced_seen_cons, balanced_tape_cons.
    injection Hlen as Hlen. apply NoDup_cons in Hnd as [Ha Hnd].
    assert (Hfa : heap s !! a = None) by (apply Hfree; constructor).
    cbn [run_ops entry].
    rewrite rf_push_alone by done.
    cbn [outcome_of mbind option_bind].
    assert (Hin : run_ops (balanced vs)
                    (balanced_tape 7 addrs ++ replicate 7 env_quiet ++ es)
                    (Shared (Counted 1 (Some a))
                       (<[a := Node (Some v) 0 (head s)]> (heap s)))
                  = Some (balanced_seen vs,
                          Shared (Counted 1 (Some a))
                            (<[a := Node (Some v) 0 (head s)]> (heap s)),
                          replicate 7 env_quiet ++ es)).
    { apply IH; [done..|]. intros b Hb. simpl.
      rewrite lookup_insert_ne by (by intros ->). apply Hfree. by constructor. }
    rewrite (rf_run_app_run _ [Pop] _ _ _ _ _ Hin (balanced_seen_no_raise vs)).
    cbn [run_ops entry].
    rewrite (rf_pop_unclaimed (replicate 7 env_quiet) es _ a
               (Node (Some v) 0 (head s)));
      [|done|apply lookup_insert_eq|done|done].
    simpl. rewrite delete_insert_id by done. by rewrite rf_shared_eta.
Qed.

End lock_free_stack_rf_more.

Section lock_free_stack_rf_chain.
Import lock_free_stack_rf.
Context {T : Type}.
Implicit Types (s : shared T) (p : pc T) (n : node T) (v : T).
Implicit Types (m : gmap loc (node T)) (l : list (loc * T)).
Implicit Types (h b : counted_node_ptr).

Lemma rf_stack_inj m h l1 l2 b :
  ptr b = None -> rf_stack m h l1 b -> rf_stack m h l2 b -> l1 = l2.
Proof.
  intros Hb. revert h l2.
  induction l1 as [|[a v] l1 IH]; intros h [|[a2 v2] l2]; simpl; try done.
  - intros H1 [H2 _]. subst. by simplify_eq/=.
  - intros [H1 _] H2. subst. by simplify_eq/=.
  - intros [H1 (nxt & Ha & Hl1)] [H2 (nxt2 & Ha2 & Hl2)].
    simplify_eq. f_equal. eauto.
Qed.

Lemma rf_stack_suffix m h l1 l2 b :
  rf_stack m h (l1 ++ l2) b -> exists h', rf_stack m h' l2 b.
Proof.
  revert h. induction l1 as [|[a v] l1 IH]; intros h; simpl; [eauto|].
  intros (_ & nxt & _ & Hl). eauto.
Qed.

(** A chain that ends in a null pointer does not come back to a node of
    its own. *)
Lemma rf_stack_nodup m h l b :
  ptr b = None -> rf_stack m h l b -> NoDup l.*1.
Proof.
  intros Hb. revert h. induction l as [|[a v] l IH]; intros h; simpl.
  - intros _. constructor.
  - intros (-> & nxt & Ha & Hl). constructor; [|by eauto].
    intros Hin. apply list_elem_of_fmap in Hin as ([a' v'] & Heq & Hin).
    simpl in Heq. subst a'.
    apply list_elem_of_split in Hin as (l1 & l2 & ->).
    destruct (rf_stack_suffix _ _ _ _ _ Hl) as (h' & Hsuf).
    simpl in Hsuf. destruct Hsuf as (-> & nxt' & Ha' & Hl2).
    simplify_eq.
    pose proof (rf_stack_inj _ _ _ _ _ Hb Hl Hl2) as Heq.
    apply (f_equal length) in Heq. rewrite length_app in Heq. simpl in Heq. lia.
Qed.

Lemma rf_stack_delete m h l b a :
  a ∉ l.*1 -> rf_stack m h l b -> rf_stack (delete a m) h l b.
Proof.
  revert h. induction l as [|[a' v] l IH]; intros h; simpl; [done|].
  intros Hnotin (-> & nxt & Ha & Hl).
  apply not_elem_of_cons in Hnotin as [Hne Hnotin].
  split; [done|]. exists nxt. split; [|by eauto].
  by rewrite lookup_delete_ne.
Qed.


Lemma rf_destructor_S fuel es s :
  rf_destructor (S fuel) es s
  = '(p, s', es') ← exec es PopLoad s;
    match p with
    | PopDone (Some _) => rf_destructor fuel es' s'
    | PopDone None => Some (s', es')
    | _ => None
    end.
Proof. done. Qed.

(** The destructor on a stack as the pushes leave it: it returns, having
    freed the nodes of the stack and no other. *)
Lemma rf_destructor_frees l s b es0 es :
  rf_stack (heap s) (head s) l b -> ptr b = None ->
  length es0 = (7 * length l + 2)%nat ->
  rf_destructor (S (length l)) (es0 ++ es) s
  = Some (Shared (Counted (int_wrap (external_count b + 1)) None)
            (foldr delete (heap s) l.*1), es).
Proof.
  intros Hst Hb. revert s es0 Hst.
  induction l as [|[a v] l IH]; intros s es0 Hst Hlen.
  - simpl in Hst. destruct es0 as [|e1 [|e2 [|??]]]; try done.
    rewrite rf_destructor_S. cbn [app].
    rewrite rf_pop_empty_alone by (by rewrite Hst). simpl. by rewrite Hst.
  - pose proof (rf_stack_nodup _ _ _ _ Hb Hst) as Hnd.
    simpl in Hst. destruct Hst as (Hh & nxt & Ha & Hl).
    apply NoDup_cons in Hnd as [Hnotin _].
    cbn [length]. rewrite rf_destructor_S.
    rewrite <- (take_drop 7 es0), <- app_assoc.
    rewrite (rf_pop_unclaimed _ _ s a (Node (Some v) 0 nxt)); try done.
    2: { rewrite length_take. simpl in Hlen. lia. }
    cbn [mbind option_bind data next].
    rewrite IH.
    + simpl. by rewrite foldr_delete_delete.
    + simpl. by apply rf_stack_delete.
    + rewrite length_drop. simpl in Hlen. lia.
Qed.


(** Giving up [k] claims one by one, when none of them is the last. *)
Lemma rf_release_many old_head a k os s n :
  heap s !! a = Some n -> int_range (internal_count n) ->
  int_range (internal_count n - Z.of_nat k) ->
  ~ (1 <= internal_count n <= Z.of_nat k) ->
  rf_give_up old_head a (replicate k Release ++ os) s
  = '(bs, s') ← rf_give_up old_head a os
                  (Shared (head s)
                     (<[a := Node (data n) (internal_count n - Z.of_nat k) (next n)]>
                        (heap s)));
    Some (replicate k false ++ bs, s').
Proof.
  revert s n. induction k as [|k IH]; intros s n Hn Hr Hr' Hnot.
  - simpl. rewrite Z.sub_0_r.
    replace (Node (data n) (internal_count n) (next n)) with n by (by destruct n).
    rewrite insert_id by done. rewrite rf_shared_eta.
    by destruct (rf_give_up _ _ _ _) as [[??]|].
  - cbn [replicate app rf_give_up]. simpl. rewrite Hn. simpl.
    rewrite bool_decide_eq_false_2 by lia.
    unfold int_range in *.
    rewrite (IH _ (fetch_add n (-1))); simpl.
    + rewrite insert_insert_eq.
      rewrite (int_wrap_id (internal_count n + -1)) by (unfold int_range; lia).
      replace (internal_count n + -1 - Z.of_nat k)
        with (internal_count n - Z.of_nat (S k)) by lia.
      by destruct (rf_give_up _ _ _ _) as [[??]|].
    + by rewrite lookup_insert_eq.
    + rewrite int_wrap_id by (unfold int_range; lia). lia.
    + rewrite int_wrap_id by (unfold int_range; lia). lia.
    + rewrite int_wrap_id by (unfold int_range; lia). lia.
Qed.

(** The claims on an unlinked node are given up in any order: exactly one
    of the threads, the last, goes on to delete the node. *)
Lemma rf_one_delete old_head a (j k : nat) s n :
  heap s !! a = Some n -> internal_count n = 0 ->
  external_count old_head = Z.of_nat j + 2 -> Z.of_nat j + 2 < 2 ^ 31 ->
  (k <= j)%nat ->
  exists s' n',
    rf_give_up old_head a
      (replicate k Release ++ Settle :: replicate (j - k) Release) s
    = Some (replicate j false ++ [true], s') /\
    heap s' !! a = Some n' /\ internal_count n' = 0.
Proof.
  intros Hn Hc Hec Hj Hk.
  assert (Hwj : int_wrap (Z.of_nat j + 2 - 2) = Z.of_nat j).
  { replace (Z.of_nat j + 2 - 2) with (Z.of_nat j) by lia.
    apply int_wrap_id. unfold int_range. lia. }
  assert (Hwn : int_wrap (- Z.of_nat j) = - Z.of_nat j).
  { apply int_wrap_id. unfold int_range. lia. }
  rewrite (rf_release_many _ _ _ _ _ n Hn); rewrite ?Hc; unfold int_range;
    try lia.
  cbn [rf_give_up]. simpl. rewrite lookup_insert_eq. simpl.
  rewrite Hec, Hwj, Hwn, insert_insert_eq.
  unfold fetch_add. simpl.
  rewrite (int_wrap_id (0 - Z.of_nat k + Z.of_nat j)) by (unfold int_range; lia).
  destruct (decide (k = j)) as [->|Hne].
  - rewrite bool_decide_eq_true_2 by lia.
    rewrite Nat.sub_diag. simpl. do 2 eexists. split; [done|].
    simpl. rewrite lookup_insert_eq. split; [done|]. simpl. lia.
  - rewrite bool_decide_eq_false_2 by lia.
    replace (j - k)%nat with (S (j - k - 1)) by lia.
    cbn [replicate]. rewrite replicate_cons_app.
    erewrite rf_release_many; [|apply lookup_insert_eq|simpl..];
      unfold int_range; try lia.
    cbn [rf_give_up]. simpl. rewrite lookup_insert_eq. simpl.
    rewrite bool_decide_eq_true_2 by lia. simpl.
    do 2 eexists. split.
    + do 2 f_equal.
      replace (replicate j false)
        with (replicate (k + S (j - k - 1)) false) by (f_equal; lia).
      rewrite replicate_add. simpl. by rewrite <- app_assoc.
    + simpl. rewrite lookup_insert_eq. split; [done|]. simpl.
      apply int_wrap_add_zero; unfold int_range; try lia.
      rewrite int_wrap_id; unfold int_range; lia.
Qed.

End lock_free_stack_rf_chain.

(** ** The registry and the retire list in every reachable configuration *)

Section hazard_more.
Import lock_free_stack_with_hazard.
Context {T : Type}.
Implicit Types (s : shared T) (l : local T) (c : config T) (t : thread_id).
Implicit Types (h : hazard_pointer).

Lemma hz_lookup_insert (tb : list hazard_pointer) (i j : nat) h' h0 :
  <[i := h']> tb !! j = Some h0 ->
  (j = i /\ h0 = h') \/ (j ≠ i /\ tb !! j = Some h0).
Proof.
  destruct (decide (i = j)) as [->|Hne].
  - intros Hj. pose proof (lookup_lt_Some _ _ _ Hj) as Hlt.
    rewrite length_insert in Hlt.
    rewrite list_lookup_insert_eq in Hj by done. simplify_eq. by left.
  - rewrite list_lookup_insert_ne by done. intros. right. by split.
Qed.

Lemma hz_step_table e t l s l' s' :
  step e t l s = Some (l', s') ->
  hz_retiring (at_pc l) = false ->
  hz_table_step t l l' (hazard_pointers s) (hazard_pointers s') /\
  (nodes_to_reclaim s = None ->
   nodes_to_reclaim s' = None /\ reclaim_heap s' = reclaim_heap s /\
   hz_retiring (at_pc l') = false).
Proof.
  intros Hstep Hret. unfold step in Hstep.
  destruct (at_pc l) eqn:Hpc; try done; invert_step Hstep; simpl in *;
    (split; [|try (intros Hroot; try rewrite Hroot; by split_and!)]).
  all: try (by apply hz_table_same; simpl; rewrite ?Hpc; eauto).
  - by eapply hz_table_acquire.
  - apply hz_table_same; simpl; rewrite ?Hpc; eauto.
    by rewrite hz_set_id_id, list_insert_id.
  - eapply hz_table_store; eauto; try (simpl; by intros j).
  - eapply hz_table_store; eauto; try (simpl; by intros j).
  - eapply hz_table_store; eauto; try (simpl; by intros j).
  - eapply hz_table_store; eauto; try (simpl; by intros j).
  - by eapply hz_table_release.
Qed.

(** The invariant is kept by every move of every thread. *)
Lemma hz_registry_gstep t a c c' :
  hz_registry_inv c -> gstep t a c = Some c' -> hz_registry_inv c'.
Proof.
  intros [Hinv Hlen Hown Hptr Hscan (Hroot & Hrh & Hret)] Hg.
  pose proof (hz_gstep_inv _ _ _ _ Hinv Hg) as Hinv'.
  unfold gstep in Hg. destruct a as [| |e].
  - (* a call *)
    destruct (resting _) eqn:Hrest; simplify_eq.
    split; simpl; try done.
    + intros i h t' Hi Hid. destruct (decide (t = t')) as [<-|Hne].
      * rewrite fn_lookup_insert. simpl. eauto.
      * rewrite fn_lookup_insert_ne by done. eauto.
    + intros i h Hi Hp. destruct (Hptr _ _ Hi Hp) as (t' & Hid & Hloop).
      exists t'. split; [done|]. destruct (decide (t = t')) as [<-|Hne].
      * by destruct (at_pc (threads c t)).
      * by rewrite fn_lookup_insert_ne.
    + intros t' i. destruct (decide (t = t')) as [<-|Hne].
      * by rewrite fn_lookup_insert.
      * rewrite fn_lookup_insert_ne by done. eauto.
    + split_and!; try done. intros t'. destruct (decide (t = t')) as [<-|Hne].
      * by rewrite fn_lookup_insert.
      * by rewrite fn_lookup_insert_ne.
  - (* the thread ends *)
    destruct (resting _) eqn:Hrest; simplify_eq.
    split; simpl; try done.
    + intros i h t' Hi Hid. destruct (decide (t = t')) as [<-|Hne].
      * rewrite fn_lookup_insert. simpl. eauto.
      * rewrite fn_lookup_insert_ne by done. eauto.
    + intros i h Hi Hp. destruct (Hptr _ _ Hi Hp) as (t' & Hid & Hloop).
      exists t'. split; [done|]. destruct (decide (t = t')) as [<-|Hne].
      * by destruct (at_pc (threads c t)).
      * by rewrite fn_lookup_insert_ne.
    + intros t' i. destruct (decide (t = t')) as [<-|Hne].
      * rewrite fn_lookup_insert. simpl. by destruct (hp (threads c t)).
      * rewrite fn_lookup_insert_ne by done. eauto.
    + split_and!; try done. intros t'. destruct (decide (t = t')) as [<-|Hne].
      * rewrite fn_lookup_insert. simpl. by destruct (hp (threads c t)).
      * by rewrite fn_lookup_insert_ne.
  - (* a step *)
    destruct (step e t (threads c t) (mem c)) as [[l' s']|] eqn:Hstep;
      simplify_eq/=.
    destruct (hz_step_table _ _ _ _ _ _ Hstep (Hret t)) as (Htab & Hrec).
    destruct (Hrec Hroot) as (Hroot' & Hrh' & Hret').
    destruct (Hinv t) as (I1 & _).
    assert (Hthr : forall t', t' ≠ t -> (<[t := l']> (threads c)) t' = threads c t').
    { intros t' Hne. by rewrite fn_lookup_insert_ne. }
    assert (Hme : (<[t := l']> (threads c)) t = l') by apply fn_lookup_insert.
    assert (Hretire : forall t',
              hz_retiring (at_pc ((<[t := l']> (threads c)) t')) = false).
    { intros t'. destruct (decide (t' = t)) as [->|Hne].
      - by rewrite Hme.
      - by rewrite Hthr. }
    destruct Htab as [Htb Hhp Hloop Hsc|i0 h0 p Hi0 Hh0 Htb Hhp Hp0 Hsc
                     |i0 h0 Hpc Hh0 Hid0 Htb Hl'|i0 h0 Hpc Hi0 Hh0 Htb Hl'].
    + (* the table is not written *)
      split; simpl; rewrite ?Htb; try done.
      * intros i h t' Hi Hid. destruct (decide (t' = t)) as [->|Hne].
        -- rewrite Hme, Hhp. eauto.
        -- rewrite Hthr by done. eauto.
      * intros i h Hi Hp. destruct (Hptr _ _ Hi Hp) as (t' & Hid & Hl).
        exists t'. split; [done|]. destruct (decide (t' = t)) as [->|Hne].
        -- rewrite Hme. auto.
        -- by rewrite Hthr.
      * intros t' i. destruct (decide (t' = t)) as [->|Hne].
        -- rewrite Hme, Hhp. intros Hpc'.
           destruct (Hsc _ Hpc') as [?|[j Hj]]; eauto.
        -- rewrite Hthr by done. eauto.
      * split_and!; [done|congruence|done].
    + (* a store to the pointer of the thread's slot *)
      destruct (I1 _ Hi0) as (h1 & Hh1 & Hid1). simplify_eq.
      split; simpl; rewrite ?Htb; try done.
      * by rewrite length_insert.
      * intros i h t' Hi Hid.
        apply hz_lookup_insert in Hi as [[-> ->]|[Hne Hi]].
        -- simpl in Hid. simplify_eq. by rewrite Hme, Hhp.
        -- destruct (decide (t' = t)) as [->|Hne'].
           ++ rewrite Hme, Hhp. eauto.
           ++ rewrite Hthr by done. eauto.
      * intros i h Hi Hp.
        apply hz_lookup_insert in Hi as [[-> ->]|[Hne Hi]].
        -- exists t. split; [done|]. rewrite Hme.
           simpl in Hp. by destruct Hp0 as [[-> _]|Hl].
        -- destruct (Hptr _ _ Hi Hp) as (t' & Hid & Hl). exists t'.
           split; [done|]. destruct (decide (t' = t)) as [->|Hne'].
           ++ pose proof (Hown _ _ _ Hi Hid). congruence.
           ++ by rewrite Hthr.
      * intros t' i. destruct (decide (t' = t)) as [->|Hne].
        -- rewrite Hme. intros Hpc'. by destruct (Hsc i).
        -- rewrite Hthr by done. eauto.
      * split_and!; [done|congruence|done].
    + (* a free slot is taken *)
      subst l'.
      split; simpl; rewrite ?Htb; try done.
      * by rewrite length_insert.
      * intros i h t' Hi Hid.
        apply hz_lookup_insert in Hi as [[-> ->]|[Hne Hi]].
        -- simpl in Hid. simplify_eq. by rewrite Hme.
        -- destruct (decide (t' = t)) as [->|Hne'].
           ++ pose proof (Hown _ _ _ Hi Hid) as Hmine.
              rewrite (Hscan _ _ Hpc) in Hmine. done.
           ++ rewrite Hthr by done. eauto.
      * intros i h Hi Hp.
        apply hz_lookup_insert in Hi as [[-> ->]|[Hne Hi]].
        -- simpl in Hp. exfalso.
           destruct (Hptr _ _ Hh0 Hp) as (t' & Hid & _). congruence.
        -- destruct (Hptr _ _ Hi Hp) as (t' & Hid & Hl). exists t'.
           split; [done|]. destruct (decide (t' = t)) as [->|Hne'].
           ++ rewrite Hpc in Hl. done.
           ++ by rewrite Hthr.
      * intros t' i. destruct (decide (t' = t)) as [->|Hne].
        -- by rewrite Hme.
        -- rewrite Hthr by done. eauto.
      * split_and!; [done|congruence|done].
    + (* the slot is given back *)
      subst l'.
      destruct (I1 _ Hi0) as (h1 & Hh1 & Hid1). simplify_eq.
      split; simpl; rewrite ?Htb; try done.
      * by rewrite length_insert.
      * intros i h t' Hi Hid.
        apply hz_lookup_insert in Hi as [[-> ->]|[Hne Hi]]; [done|].
        destruct (decide (t' = t)) as [->|Hne'].
        -- pose proof (Hown _ _ _ Hi Hid). congruence.
        -- rewrite Hthr by done. eauto.
      * intros i h Hi Hp.
        apply hz_lookup_insert in Hi as [[-> ->]|[Hne Hi]].
        -- simpl in Hp. exfalso.
           destruct (Hptr _ _ Hh0 Hp) as (t' & Hid & Hl).
           simplify_eq. rewrite Hpc in Hl. done.
        -- destruct (Hptr _ _ Hi Hp) as (t' & Hid & Hl). exists t'.
           split; [done|]. destruct (decide (t' = t)) as [->|Hne'].
           ++ rewrite Hpc in Hl. done.
           ++ by rewrite Hthr.
      * intros t' i. destruct (decide (t' = t)) as [->|Hne].
        -- by rewrite Hme.
        -- rewrite Hthr by done. eauto.
      * split_and!; [done|congruence|done].
Qed.

Lemma hz_registry_reachable c : reachable c -> hz_registry_inv c.
Proof.
  induction 1 as [h m|c t a c' Hr IH Hg].
  - split; simpl; try done.
    + unfold free_table. intros i h0 t [-> _]%lookup_replicate_1. done.
    + unfold free_table. intros i h0 [-> _]%lookup_replicate_1. done.
  - by eapply hz_registry_gstep.
Qed.


(** [pop] run alone by a thread that has its slot, on a stack that is not
    empty: eleven steps. *)
Lemma hz_pop_alone t i h s a n es0 es :
  hazard_pointers s !! i = Some h -> head s = Some a ->
  heap s !! a = Some n -> nodes_to_reclaim s = None ->
  length es0 = 11%nat ->
  exec (es0 ++ es) t (Local (Some i) PopEntry) s
  = Some (Local (Some i) (PopDone (data n)),
          Shared (next n) (delete a (heap s))
            (<[i := set_pointer h None]> (hazard_pointers s)) None
            (reclaim_heap s),
          es).
Proof.
  intros Hi Hh Hn Hroot Hlen.
  do 12 (destruct es0 as [|? es0]; try done).
  destruct s as [hd hp_ tb root rh]. simpl in *. subst hd root.
  pose proof (lookup_lt_Some _ _ _ Hi) as Hlt.
  repeat (unfold step at 1; simpl;
          rewrite ?Hi, ?Hn, ?compare_exchange_same, ?lookup_insert_eq,
            ?list_lookup_insert_eq, ?bool_decide_eq_true_2 by done; simpl).
  rewrite hz_exec_final by done.
  by rewrite list_insert_insert_eq, delete_insert_eq.
Qed.

(** The same on an empty stack: six steps. *)
Lemma hz_pop_alone_empty t i h s es0 es :
  hazard_pointers s !! i = Some h -> head s = None ->
  length es0 = 6%nat ->
  exec (es0 ++ es) t (Local (Some i) PopEntry) s
  = Some (Local (Some i) (PopDone None),
          with_table s (<[i := set_pointer h None]> (hazard_pointers s)), es).
Proof.
  intros Hi Hh Hlen.
  do 7 (destruct es0 as [|? es0]; try done).
  destruct s as [hd hp_ tb root rh]. simpl in *. subst hd.
  pose proof (lookup_lt_Some _ _ _ Hi) as Hlt.
  repeat (unfold step at 1; simpl;
          rewrite ?Hi, ?list_lookup_insert_eq, ?bool_decide_eq_true_2 by done;
          simpl).
  rewrite hz_exec_final by done.
  by rewrite list_insert_insert_eq.
Qed.

(** The constructor of [hp_owner], run alone: it passes the owned slots and
    takes the first free one. *)
Lemma hz_scan_first t s k h m i es0 :
  (forall j, (i <= j < k)%nat ->
     exists hj, hazard_pointers s !! j = Some hj /\ is_Some (id hj)) ->
  hazard_pointers s !! k = Some h -> id h = None ->
  (k < max_hazard_pointers)%nat -> (i + m = k)%nat -> length es0 = S m ->
  hz_steps es0 t (Local None (HpScan i)) s
  = Some (Local (Some k) PopLoad,
          with_table s (<[k := set_id h (Some t)]> (hazard_pointers s))).
Proof.
  intros Hown Hk Hid Hlt. revert i es0 Hown.
  induction m as [|m IH]; intros i es0 Hown Him Hlen.
  - destruct es0 as [|e [|??]]; try done. assert (i = k) as -> by lia.
    simpl. unfold step. simpl.
    rewrite bool_decide_eq_true_2 by done. rewrite Hk. simpl.
    rewrite Hid, compare_exchange_same. done.
  - destruct es0 as [|e es0]; [done|]. cbn [hz_steps].
    destruct (Hown i) as (hi & Hhi & Hsome); [lia|].
    rewrite (hz_scan_owned e t _ s i hi) by (done || lia). simpl.
    apply IH; [|lia|by simplify_eq/=]. intros j Hj. apply Hown. lia.
Qed.

(** The retire list, and [delete_nodes_with_no_hazards] run alone. *)
Lemma hz_retired_suffix (rh : gmap loc data_to_reclaim)
    (l0 : list (loc * loc)) r (l : list (loc * loc)) :
  hz_retired rh r (l0 ++ l) -> hz_retired rh r l -> l0 = [].
Proof.
  revert r l0. induction l as [|[c a] l IH]; intros r l0 H1 H2.
  - simpl in H2. subst r. destruct l0 as [|[c a] l0]; [done|].
    simpl in H1. by destruct H1.
  - destruct l0 as [|[c0 a0] l0]; [done|]. exfalso.
    simpl in H1, H2. destruct H1 as ([= ->] & n1 & Hn1 & H1).
    destruct H2 as ([= ->] & n2 & Hn2 & H2).
    rewrite Hn1 in Hn2. simplify_eq.
    specialize (IH n2 (l0 ++ [(c, a)])). rewrite <- app_assoc in IH.
    specialize (IH H1 H2). by destruct l0.
Qed.

Lemma hz_retired_nodup (rh : gmap loc data_to_reclaim) r
    (l : list (loc * loc)) :
  hz_retired rh r l -> NoDup l.*1.
Proof.
  revert r. induction l as [|[c a] l IH]; intros r; simpl; [constructor|].
  intros (-> & nxt & Hc & Hl). constructor; [|by eapply IH].
  intros ([c' a'] & Heq & (l1 & l2 & ->)%list_elem_of_split)%list_elem_of_fmap.
  simpl in Heq. subst c'.
  assert (hz_retired rh (Some c) ((c, a') :: l2)) as Hl2.
  { clear -Hl. revert nxt Hl. induction l1 as [|[c1 a1] l1 IH]; intros nxt Hl.
    - simpl in Hl. destruct Hl as (-> & ?). by simpl.
    - simpl in Hl. destruct Hl as (-> & nxt' & _ & Hl). by eapply IH. }
  assert (hz_retired rh (Some c) ((c, a) :: l1 ++ (c, a') :: l2)) as Hall.
  { simpl. split; [done|]. by exists nxt. }
  assert (a' = a) as ->.
  { simpl in Hl2. destruct Hl2 as (_ & nxt2 & Hc2 & _). congruence. }
  apply (hz_retired_suffix rh ((c, a) :: l1) (Some c) ((c, a) :: l2)) in Hl2.
  - done.
  - by rewrite <- app_comm_cons.
Qed.

Lemma hz_retired_delete (rh : gmap loc data_to_reclaim) r
    (l : list (loc * loc)) (c : loc) :
  c ∉ l.*1 -> hz_retired rh r l -> hz_retired (delete c rh) r l.
Proof.
  revert r. induction l as [|[c' a'] l IH]; intros r; simpl; [done|].
  intros [Hne Hnin]%not_elem_of_cons (-> & nxt & Hc & Hl).
  split; [done|]. exists nxt. split; [|by apply IH].
  by rewrite lookup_delete_ne.
Qed.

Lemma hz_retired_insert (rh : gmap loc data_to_reclaim) r
    (l : list (loc * loc)) (c : loc) d :
  c ∉ l.*1 -> hz_retired rh r l -> hz_retired (<[c := d]> rh) r l.
Proof.
  revert r. induction l as [|[c' a'] l IH]; intros r; simpl; [done|].
  intros [Hne Hnin]%not_elem_of_cons (-> & nxt & Hc & Hl).
  split; [done|]. exists nxt. split; [|by apply IH].
  by rewrite lookup_insert_ne.
Qed.

Lemma hz_reclaim_loop t hp_ s res r (l : list (loc * loc)) es0 es :
  hz_retired (reclaim_heap s) r l -> NoDup l.*2 ->
  (forall a, a ∈ l.*2 -> is_Some (heap s !! a)) ->
  length es0 = (2 * length l + 1)%nat ->
  exec (es0 ++ es) t (Local hp_ (ReclaimLoop r res)) s
  = Some (Local hp_ (PopDone res),
          Shared (head s) (foldr delete (heap s) l.*2) (hazard_pointers s)
            (nodes_to_reclaim s) (foldr delete (reclaim_heap s) l.*1),
          es).
Proof.
  revert s r es0. induction l as [|[c a] l IH]; intros s r es0 Hl Hnd Hal Hlen.
  - simpl in Hl. subst r. destruct es0 as [|e [|??]]; try done.
    simpl. rewrite hz_exec_final by done. by destruct s.
  - pose proof (hz_retired_nodup _ _ _ Hl) as [Hcnin _]%NoDup_cons.
    simpl in Hl. destruct Hl as (-> & nxt & Hc & Hl).
    simpl in Hnd. apply NoDup_cons in Hnd as [Hanin Hnd].
    destruct (Hal a) as [n Hn]; [simpl; constructor|].
    destruct es0 as [|e1 [|e2 es0]]; try (simpl in Hlen; lia).
    simpl. unfold step at 1. simpl. rewrite Hc. simpl.
    unfold step at 1. simpl. rewrite Hc. simpl. rewrite Hn. simpl.
    rewrite (IH _ nxt es0); simpl.
    + by rewrite !foldr_delete_delete.
    + by apply hz_retired_delete.
    + done.
    + intros a' Ha'. rewrite lookup_delete_ne; [apply Hal; simpl; by right|].
      intros ->. done.
    + simpl in Hlen. lia.
Qed.

Lemma hz_reclaim_all t hp_ s res (l : list (loc * loc)) es0 es :
  hz_retired (reclaim_heap s) (nodes_to_reclaim s) l -> NoDup l.*2 ->
  (forall a, a ∈ l.*2 -> is_Some (heap s !! a)) ->
  length es0 = (2 * length l + 2)%nat ->
  exec (es0 ++ es) t (Local hp_ (ReclaimExchange res)) s
  = Some (Local hp_ (PopDone res),
          Shared (head s) (foldr delete (heap s) l.*2) (hazard_pointers s) None
            (foldr delete (reclaim_heap s) l.*1),
          es).
Proof.
  intros Hl Hnd Hal Hlen. destruct es0 as [|e es0]; [simpl in Hlen; lia|].
  simpl.
  rewrite (hz_reclaim_loop t hp_ _ res (nodes_to_reclaim s) l); simpl; try done.
  simpl in Hlen. lia.
Qed.

(** [reclaim_later(old_head)] run alone: a new entry for the node is put in
    front of the retire list. *)
Lemma hz_reclaim_later t hp_ s a res (c : loc) e1 e2 e3
    (l : list (loc * loc)) :
  alloc e1 = Some c -> reclaim_heap s !! c = None -> spurious e3 = false ->
  hz_retired (reclaim_heap s) (nodes_to_reclaim s) l ->
  exists s',
    hz_steps [e1; e2; e3] t (Local hp_ (RetireNew a res)) s
    = Some (Local hp_ (ReclaimExchange res), s') /\
    head s' = head s /\ heap s' = heap s /\
    hazard_pointers s' = hazard_pointers s /\
    nodes_to_reclaim s' = Some c /\
    hz_retired (reclaim_heap s') (nodes_to_reclaim s') ((c, a) :: l).
Proof.
  intros Ha Hfresh Hsp Hl. destruct s as [hd m tb root rh]. simpl in *.
  unfold step at 1. cbn. rewrite Ha, Hfresh. cbn.
  rewrite lookup_insert_eq. cbn. rewrite lookup_insert_eq. cbn.
  rewrite Hsp, compare_exchange_same. cbn.
  eexists. split; [done|]. simpl. do 4 (split; [done|]).
  split; [done|]. eexists. split; [by rewrite lookup_insert_eq|].
  rewrite !insert_insert_eq.
  assert (c ∉ l.*1) as Hnin.
  { clear -Hl Hfresh. revert root Hl.
    induction l as [|[c' a'] l IH]; intros root Hl; simpl.
    - apply not_elem_of_nil.
    - simpl in Hl. destruct Hl as (-> & nxt & Hc & Hl).
      apply not_elem_of_cons. split; [congruence|by eapply IH]. }
  by apply hz_retired_insert.
Qed.

End hazard_more.

(** ** [lock_free_stack_with_gc] *)

Section gc_facts.
Import lock_free_stack_with_gc.
Context {T : Type}.
Implicit Types (s : shared T) (k : pc T) (n : node T) (p : nodeptr).
Implicit Types (m : gmap loc (node T)) (l : list loc).

Lemma gc_exec_final es k s :
  final k = true -> exec es k s = Some (k, s, es).
Proof. intros Hf. destruct es; simpl; by rewrite Hf. Qed.

Lemma gc_exec_cons e es k s :
  final k = false ->
  exec (e :: es) k s =
  match step e k s with Some (p', s') => exec es p' s' | None => None end.
Proof. intros Hf. simpl. by rewrite Hf. Qed.

Lemma gc_linked_inj m p l1 l2 : linked m p l1 -> linked m p l2 -> l1 = l2.
Proof.
  revert p l2. induction l1 as [|a l1 IH]; intros p [|a2 l2]; simpl.
  - done.
  - intros -> [? _]. done.
  - intros [-> _] ?. done.
  - intros [-> (n & Hn & Hl1)] [? (n2 & Hn2 & Hl2)]. simplify_eq.
    f_equal. eauto.
Qed.

Lemma gc_linked_suffix m p l1 l2 :
  linked m p (l1 ++ l2) -> exists p', linked m p' l2.
Proof.
  revert p. induction l1 as [|a l1 IH]; intros p; simpl; [eauto|].
  intros (_ & n & _ & Hl). eauto.
Qed.

Lemma gc_linked_nodup m p l : linked m p l -> NoDup l.
Proof.
  revert p. induction l as [|a l IH]; intros p; simpl.
  - constructor.
  - intros (-> & n & Hn & Hl). constructor; [|by eauto].
    intros (l1 & l2 & ->)%list_elem_of_split.
    destruct (gc_linked_suffix _ _ _ _ Hl) as (p' & Hsuf).
    simpl in Hsuf. destruct Hsuf as (-> & n' & Hn' & Hl2). simplify_eq.
    pose proof (gc_linked_inj _ _ _ _ Hl Hl2) as Heq.
    apply (f_equal length) in Heq. rewrite length_app in Heq. simpl in Heq. lia.
Qed.

Lemma gc_linked_delete m p l a :
  a ∉ l -> linked m p l -> linked (delete a m) p l.
Proof.
  revert p. induction l as [|a' l IH]; intros p; simpl; [done|].
  intros [Hne Hnotin]%not_elem_of_cons (-> & n & Hn & Hl).
  split; [done|]. exists n. split; [|by eauto]. by rewrite lookup_delete_ne.
Qed.

(** [delete_nodes] frees the nodes linked from its argument and returns. *)
Lemma gc_delete_nodes l s p k es0 es :
  linked (heap s) p l -> final k = false ->
  length es0 = (2 * length l + 1)%nat ->
  exec (es0 ++ es) (DeleteNodes p k) s
  = exec es k (with_heap s (foldr delete (heap s) l)).
Proof.
  revert s p es0. induction l as [|a l IH]; intros s p es0 Hl Hk Hlen.
  - simpl in Hl. subst p. destruct es0 as [|e [|??]]; try done.
    simpl. by destruct s.
  - pose proof (gc_linked_nodup _ _ _ Hl) as [Hnotin _]%NoDup_cons.
    simpl in Hl. destruct Hl as (-> & n & Hn & Hl).
    destruct es0 as [|e1 [|e2 es0]]; try (simpl in Hlen; lia).
    simpl. rewrite Hn. simpl. rewrite Hn. simpl.
    rewrite IH; simpl; try done.
    + by rewrite foldr_delete_delete.
    + by apply gc_linked_delete.
    + simpl in Hlen. lia.
Qed.

Lemma gc_linked_insert m p l a n :
  a ∉ l -> linked m p l -> linked (<[a := n]> m) p l.
Proof.
  revert p. induction l as [|a' l IH]; intros p; simpl; [done|].
  intros [Hne Hnotin]%not_elem_of_cons (-> & n' & Hn & Hl).
  split; [done|]. exists n'. split; [|by eauto]. by rewrite lookup_insert_ne.
Qed.

Lemma gc_lookup_foldr_delete m l a :
  a ∉ l -> foldr delete m l !! a = m !! a.
Proof.
  induction l as [|a' l IH]; simpl; [done|].
  intros [Hne Hnotin]%not_elem_of_cons.
  rewrite lookup_delete_ne by done. auto.
Qed.

(** [pop] run alone on a stack that is not empty, no other thread being in
    [pop]: the payload is returned, the node popped and every node that
    was waiting in [to_be_deleted] are freed, and the counter is back at
    zero. *)
Lemma gc_pop_alone s a n l es0 es :
  head s = Some a -> heap s !! a = Some n -> threads_in_pop s = 0 ->
  linked (heap s) (to_be_deleted s) l -> a ∉ l ->
  Forall (fun e => spurious e = false) es0 ->
  length es0 = (2 * length l + 10)%nat ->
  exec (es0 ++ es) PopEnter s
  = Some (PopDone (data n),
          Shared (next n) 0 None (delete a (foldr delete (heap s) l)), es).
Proof.
  intros Hh Hn Hc Hl Ha Hsp Hlen.
  do 8 (destruct es0 as [|? es0]; [simpl in Hlen; lia|]).
  repeat (apply Forall_cons in Hsp as [? Hsp]).
  destruct s as [hd c tbd m]. simpl in *. subst hd c.
  repeat (simpl;
          first [ rewrite Hn | rewrite compare_exchange_same
                | rewrite lookup_insert_eq
                | match goal with
                  | H : spurious ?e = false |- context [spurious ?e] => rewrite H
                  end ]).
  simpl. change (uint_wrap (0 + 1)) with 1. simpl.
  change (uint_wrap (1 - 1)) with 0. simpl.
  rewrite <- (take_drop (2 * length l + 1) es0), <- app_assoc.
  rewrite (gc_delete_nodes l); simpl; try done.
  2: { by apply gc_linked_insert. }
  2: { rewrite length_take. lia. }
  destruct (drop _ es0) as [|elast [|??]] eqn:Hdrop.
  1,3: apply (f_equal length) in Hdrop; rewrite length_drop in Hdrop;
       simpl in Hdrop; lia.
  simpl. rewrite gc_lookup_foldr_delete, lookup_insert_eq by done. simpl.
  rewrite gc_exec_final by done.
  by rewrite <- foldr_delete_delete, delete_insert_eq, foldr_delete_delete.
Qed.

(** The same on an empty stack: nothing is returned, and the nodes that
    were waiting are freed. *)
Lemma gc_pop_alone_empty s l es0 es :
  head s = None -> threads_in_pop s = 0 ->
  linked (heap s) (to_be_deleted s) l ->
  length es0 = (2 * length l + 8)%nat ->
  exec (es0 ++ es) PopEnter s
  = Some (PopDone None, Shared None 0 None (foldr delete (heap s) l), es).
Proof.
  intros Hh Hc Hl Hlen.
  do 6 (destruct es0 as [|? es0]; [simpl in Hlen; lia|]).
  destruct s as [hd c tbd m]. simpl in *. subst hd c.
  change (uint_wrap (0 + 1)) with 1. simpl.
  change (uint_wrap (1 - 1)) with 0. simpl.
  rewrite <- (take_drop (2 * length l + 1) es0), <- app_assoc.
  rewrite (gc_delete_nodes l); simpl; try done.
  2: { rewrite length_take. lia. }
  destruct (drop _ es0) as [|elast [|??]] eqn:Hdrop.
  1,3: apply (f_equal length) in Hdrop; rewrite length_drop in Hdrop;
       simpl in Hdrop; lia.
  simpl. by rewrite gc_exec_final.
Qed.


(** [pop] on an empty stack while other threads are in [pop]:
    [try_reclaim(nullptr)] calls [chain_pending_node(nullptr)], and line
    123 stores through the null pointer.  The call has no defined
    behaviour from there. *)
Lemma gc_pop_empty_undefined s c e1 e2 e3 e4 :
  head s = None -> threads_in_pop s = c -> uint_wrap (c + 1) ≠ 1 ->
  steps [e1; e2; e3; e4] PopEnter s
  = Some (ChainStore None None (LeavePop None),
          with_count s (uint_wrap (c + 1))) /\
  (forall e k s', step e (ChainStore None None k) s' = None) /\
  (forall es, exec es PopEnter s = None).
Proof.
  intros Hh Hc Hne. destruct s as [hd c0 tbd m]. simpl in *. subst hd c0.
  split_and!.
  - unfold with_count. simpl. by rewrite bool_decide_eq_false_2.
  - done.
  - intros es. destruct es as [|? [|? [|? [|? [|? es]]]]]; simpl; try done.
    all: by rewrite bool_decide_eq_false_2.
Qed.

(** Linking the end of one list to the start of another. *)
Lemma gc_linked_splice m a l z nz p0 l0 :
  linked m (Some a) l -> last l = Some z -> m !! z = Some nz ->
  linked m p0 l0 -> z ∉ l0 ->
  linked (<[z := Node (data nz) p0]> m) (Some a) (l ++ l0).
Proof.
  intros Hl Hlast Hz Hl0 Hz0.
  pose proof (gc_linked_nodup _ _ _ Hl) as Hnd.
  revert a Hl Hlast Hnd. induction l as [|b l IH]; intros a Hl Hlast Hnd; [done|].
  simpl in Hl. destruct Hl as ([= <-] & n & Hn & Hl).
  apply NoDup_cons in Hnd as [Hnotin Hnd].
  destruct l as [|b' l].
  - simpl in Hlast. simplify_eq. simpl. split; [done|].
    eexists. rewrite lookup_insert_eq. split; [done|]. simpl.
    by apply gc_linked_insert.
  - simpl in Hl. destruct Hl as (Hnext & Hl').
    assert (Hza : z ≠ a).
    { intros ->. apply Hnotin. change (last (b' :: l) = Some a) in Hlast.
      apply last_Some in Hlast as [l' ->]. apply elem_of_app. right.
      constructor. }
    cbn [app]. split; [done|]. exists n.
    rewrite lookup_insert_ne by done. split; [done|].
    rewrite Hnext. apply IH; try done; simpl; by split.
Qed.

(** The walk of lines 114-118 from any node of the list to its last. *)
Lemma gc_chain_walk first cur l z k s es0 es :
  linked (heap s) (Some cur) l -> last l = Some z ->
  length es0 = length l ->
  steps (es0 ++ es) (ChainWalk first cur k) s
  = steps es (ChainStore (Some first) (Some z) k) s.
Proof.
  revert cur es0. induction l as [|b l IH]; intros cur es0 Hl Hlast Hlen; [done|].
  simpl in Hl. destruct Hl as ([= <-] & n & Hn & Hl).
  destruct es0 as [|e es0]; [done|]. cbn [app steps]. simpl. rewrite Hn. simpl.
  destruct l as [|b' l].
  - simpl in Hl, Hlast. simplify_eq. rewrite Hl.
    destruct es0; [done|done].
  - simpl in Hl. destruct Hl as (Hnext & Hl'). rewrite Hnext.
    apply IH; [by simpl; split|done|by simplify_eq/=].
Qed.

(** [chain_pending_nodes(nodes)], run alone: the list is put whole in front
    of the nodes that were waiting; no node is lost. *)
Lemma gc_chain_pending first l l0 k s es0 :
  linked (heap s) (Some first) l -> linked (heap s) (to_be_deleted s) l0 ->
  (forall a, a ∈ l -> a ∉ l0) ->
  Forall (fun e => spurious e = false) es0 ->
  length es0 = (length l + 2)%nat ->
  exists s',
    steps es0 (ChainWalk first first k) s = Some (k, s') /\
    head s' = head s /\ threads_in_pop s' = threads_in_pop s /\
    to_be_deleted s' = Some first /\
    linked (heap s') (Some first) (l ++ l0) /\
    dom (heap s') = dom (heap s).
Proof.
  intros Hl Hl0 Hdisj Hsp Hlen.
  destruct l as [|a0 l']; [by simpl in Hl|]. set (l := a0 :: l') in *.
  destruct (last l) as [z|] eqn:Hlast.
  2: { by apply last_None in Hlast. }
  assert (Hzl : z ∈ l).
  { apply last_Some in Hlast as [l'' ->]. apply elem_of_app. right.
    constructor. }
  assert (Hz : exists nz, heap s !! z = Some nz).
  { clear -Hl Hzl. revert Hl. generalize (Some first).
    induction l as [|b l IH]; intros p Hl; [by apply elem_of_nil in Hzl|].
    simpl in Hl. destruct Hl as (-> & n & Hn & Hl).
    apply elem_of_cons in Hzl as [->|Hzl]; eauto. }
  destruct Hz as [nz Hz].
  rewrite <- (take_drop (length l) es0).
  rewrite (gc_chain_walk first first l z); [|done|done|rewrite length_take; lia].
  assert (Hdl : length (drop (length l) es0) = 2%nat)
    by (rewrite length_drop; lia).
  destruct (drop (length l) es0) as [|e1 [|e2 [|??]]] eqn:Hdrop; try done.
  assert (Hsp2 : spurious e2 = false).
  { rewrite <- (take_drop (length l) es0), Hdrop in Hsp.
    apply Forall_app in Hsp as [_ Hsp].
    by apply Forall_cons in Hsp as [_ [? _]%Forall_cons]. }
  assert (Hsplice : linked (<[z := Node (data nz) (to_be_deleted s)]> (heap s))
                      (Some first) (l ++ l0))
    by (apply gc_linked_splice; auto).
  simpl. rewrite Hz. simpl. rewrite lookup_insert_eq. simpl.
  rewrite Hsp2, compare_exchange_same. simpl.
  rewrite insert_insert_eq.
  eexists. split; [done|]. do 3 (split; [done|]). split.
  - exact Hsplice.
  - simpl. apply dom_insert_lookup_L. eauto.
Qed.

End gc_facts.

(** ** Any number of threads on one [lock_free_stack] *)

Section lock_free_stack_threads_facts.
Import lock_free_stack_threads.
Context {T : Type}.
Implicit Types (c : config T) (s : LS.shared T) (p : LS.pc T).
Implicit Types (l : list (loc * T)) (m : gmap loc (LS.node T)) (t : thread_id).

Lemma lt_stack_inj m h l1 l2 : stack m h l1 -> stack m h l2 -> l1 = l2.
Proof.
  revert h l2. induction l1 as [|[a v] l1 IH]; intros h [|[a2 v2] l2]; simpl.
  - done.
  - intros -> (? & _). done.
  - intros (-> & _) ?. done.
  - intros (-> & n1 & H1 & Hl1) ([= <-] & n2 & H2 & Hl2).
    rewrite H1 in H2. simplify_eq. f_equal. by eapply IH.
Qed.

Lemma lt_stack_alloc m h l a :
  stack m h l -> a ∈ l.*1 -> is_Some (m !! a).
Proof.
  revert h. induction l as [|[a' v] l IH]; intros h; simpl.
  - intros _ Hin. by apply elem_of_nil in Hin.
  - intros (-> & nxt & Hn & Hl) [->|Hin]%elem_of_cons; [by eauto|].
    by eapply IH.
Qed.

Lemma lt_stack_insert m h l a n :
  a ∉ l.*1 -> stack m h l -> stack (<[a := n]> m) h l.
Proof.
  revert h. induction l as [|[a' v] l IH]; intros h; simpl; [done|].
  intros Hnin (-> & nxt & Hn & Hl). apply not_elem_of_cons in Hnin as [Hne Hnin].
  split; [done|]. exists nxt. split; [|by apply IH].
  by rewrite lookup_insert_ne.
Qed.

Lemma lt_stack_head m h l a :
  stack m h l -> h = Some a -> exists v l', l = (a, v) :: l'.
Proof.
  destruct l as [|[a' v] l']; simpl.
  - by intros -> ?.
  - intros (-> & _) [= <-]. by eauto.
Qed.

Lemma lt_grun_reachable sched c c' :
  reachable c -> grun sched c = Some c' -> reachable c'.
Proof.
  revert c. induction sched as [|[t a] sched IH]; intros c Hr Hrun.
  - simpl in Hrun. by simplify_eq.
  - simpl in Hrun. destruct (gstep t a c) as [c1|] eqn:Hg; [|done].
    simpl in Hrun. eapply IH; [|done]. by eapply reachable_step.
Qed.

(** What a thread has in hand is allocated. *)
Lemma lt_private_alloc c l a :
  inv c l -> private c a -> (a ∉ l.*1) /\ is_Some (LS.heap (mem c) !! a).
Proof.
  intros Hinv (t & p & Hp & Hu).
  pose proof (inv_thread _ _ Hinv t p Hp) as Hok.
  destruct p; simplify_eq/=; destruct Hok as (? & ? & ? & ->); eauto.
Qed.

(** The other threads keep what they have when thread [t] goes from [o] to
    [p'], if it has written no node but its own or a new one, and has put
    no node on the stack but its own. *)
Lemma lt_frame c c' l l' t o p' :
  inv c l -> threads c t = o ->
  threads c' = <[t := Some p']> (threads c) ->
  (forall a, is_Some (LS.heap (mem c) !! a) -> o ≫= LS.unpublished ≠ Some a ->
     LS.heap (mem c') !! a = LS.heap (mem c) !! a) ->
  (forall a, a ∈ l'.*1 -> a ∈ l.*1 \/ o ≫= LS.unpublished = Some a) ->
  (forall a, LS.unpublished p' = Some a ->
     o ≫= LS.unpublished = Some a \/ LS.heap (mem c) !! a = None) ->
  stack (LS.heap (mem c')) (LS.head (mem c')) l' ->
  thread_ok c' l' p' ->
  inv c' l'.
Proof.
  intros Hinv Ho Hth Hheap Hl Hpriv Hstack Hok'.
  assert (Hmine : forall a, o ≫= LS.unpublished = Some a ->
            exists p, threads c t = Some p /\ LS.unpublished p = Some a).
  { intros a Hu. destruct o as [p|]; [|done]. by exists p. }
  assert (Hpriv' : forall a, private c' a ->
            private c a \/ LS.heap (mem c) !! a = None).
  { intros a (t3 & p3 & Hp3 & Hu3). rewrite Hth in Hp3.
    destruct (decide (t3 = t)) as [->|Hne].
    - rewrite fn_lookup_insert in Hp3. simplify_eq.
      destruct (Hpriv a Hu3) as [Hu|Hnone]; [|by right].
      left. apply Hmine in Hu as (p & ? & ?). by exists t, p.
    - rewrite fn_lookup_insert_ne in Hp3 by done. left. by exists t3, p3. }
  split; [done| |].
  - intros t2 p2 Hp2. rewrite Hth in Hp2.
    destruct (decide (t2 = t)) as [->|Hne].
    { rewrite fn_lookup_insert in Hp2. by simplify_eq. }
    rewrite fn_lookup_insert_ne in Hp2 by done.
    pose proof (inv_thread _ _ Hinv t2 p2 Hp2) as Hok.
    assert (Hpush : forall a, LS.unpublished p2 = Some a ->
              o ≫= LS.unpublished ≠ Some a).
    { intros a Hu2 (p & Hp & Hu)%Hmine. apply Hne.
      by eapply (inv_own _ _ Hinv t2 t p2 p a). }
    assert (Hpop : forall a, ~ private c a -> o ≫= LS.unpublished ≠ Some a).
    { intros a Hnp (p & Hp & Hu)%Hmine. apply Hnp. by exists t, p. }
    assert (Hnp' : forall a, is_Some (LS.heap (mem c) !! a) -> ~ private c a ->
              ~ private c' a).
    { intros a [n Hn] Hnp [?|Hnone]%Hpriv'; [done|]. by rewrite Hn in Hnone. }
    destruct p2 as [| a2 | a2 | | | [a2|] | a2 nxt2 | [a2|] | |]; simpl in *;
      try done.
    + destruct Hok as (Hnin & v & nxt & Hn). split.
      * intros [Hin|Hu]%Hl; [done|]. by eapply Hpush.
      * exists v, nxt. rewrite Hheap; [done|by eauto|by apply Hpush].
    + destruct Hok as (Hnin & v & nxt & Hn). split.
      * intros [Hin|Hu]%Hl; [done|]. by eapply Hpush.
      * exists v, nxt. rewrite Hheap; [done|by eauto|by apply Hpush].
    + destruct Hok as ((v & nxt & Hn) & Hnp). split; [|by eauto].
      exists v, nxt. rewrite Hheap; [done|by eauto|by apply Hpop].
    + destruct Hok as ((v & Hn) & Hnp). split; [|by eauto].
      exists v. rewrite Hheap; [done|by eauto|by apply Hpop].
    + destruct Hok as ((v & nxt & Hn) & Hnp). split; [|by eauto].
      exists v, nxt. rewrite Hheap; [done|by eauto|by apply Hpop].
  - intros t1 t2 p1 p2 a Hp1 Hp2 Hu1 Hu2. rewrite Hth in Hp1, Hp2.
    destruct (decide (t1 = t)) as [->|Hne1];
      destruct (decide (t2 = t)) as [->|Hne2]; [done| | |].
    + rewrite fn_lookup_insert in Hp1. simplify_eq.
      rewrite fn_lookup_insert_ne in Hp2 by done.
      destruct (Hpriv a Hu1) as [(p & Hp & Hu)%Hmine|Hnone].
      * by eapply (inv_own _ _ Hinv t t2 p p2 a).
      * destruct (lt_private_alloc c l a Hinv) as (_ & [n Hn]); [by exists t2, p2|].
        by rewrite Hn in Hnone.
    + rewrite fn_lookup_insert in Hp2. simplify_eq.
      rewrite fn_lookup_insert_ne in Hp1 by done.
      destruct (Hpriv a Hu2) as [(p & Hp & Hu)%Hmine|Hnone].
      * by eapply (inv_own _ _ Hinv t1 t p1 p a).
      * destruct (lt_private_alloc c l a Hinv) as (_ & [n Hn]); [by exists t1, p1|].
        by rewrite Hn in Hnone.
    + rewrite fn_lookup_insert_ne in Hp1, Hp2 by done.
      by eapply (inv_own _ _ Hinv t1 t2 p1 p2 a).
Qed.

(** The top of the stack is not private to a [push]. *)
Lemma lt_top_public c l a v l0 :
  inv c l -> l = (a, v) :: l0 -> ~ private c a.
Proof.
  intros Hinv -> Hp. destruct (lt_private_alloc c _ a Hinv Hp) as (Hnin & _).
  apply Hnin. simpl. constructor.
Qed.

Lemma lt_private_back c c' t p' a :
  threads c' = <[t := Some p']> (threads c) -> LS.unpublished p' = None ->
  private c' a -> private c a.
Proof.
  intros Hth Hu (t3 & p3 & Hp3 & Hu3). rewrite Hth in Hp3.
  destruct (decide (t3 = t)) as [->|Hne].
  - rewrite fn_lookup_insert in Hp3. by simplify_eq.
  - rewrite fn_lookup_insert_ne in Hp3 by done. by exists t3, p3.
Qed.

(** A step that writes nothing and arrives at a point of [pop]. *)
Lemma lt_inv_read s th l t p p' hd :
  inv (Config s th) l -> th t = Some p ->
  LS.unpublished p' = None -> hd = LS.head s ->
  (forall c', threads c' = <[t := Some p']> th -> mem c' = LS.Shared hd (LS.heap s) ->
     (forall a, private c' a -> private (Config s th) a) -> thread_ok c' l p') ->
  inv (Config (LS.Shared hd (LS.heap s)) (<[t := Some p']> th)) l.
Proof.
  intros Hinv Hp Hu -> Hok.
  eapply (lt_frame (Config s th) _ l l t (Some p) p'); simpl; try done.
  - by eauto.
  - intros a Ha. congruence.
  - by apply (inv_stack _ _ Hinv).
  - apply Hok; [done|done|]. intros a. by eapply lt_private_back.
Qed.

Lemma lt_inv_step c l t a c' :
  inv c l -> gstep t a c = Some c' ->
  exists l', inv c' l' /\
    effect (threads c t) (threads c' t) (LS.heap (mem c')) l l'.
Proof.
  intros Hinv Hg. pose proof (inv_stack _ _ Hinv) as Hst.
  destruct a as [o|e]; simpl in Hg.
  - destruct (resting (threads c t)) eqn:Hrest; simplify_eq.
    exists l. split.
    + eapply (lt_frame c _ l l t (threads c t) (LS.entry o)); simpl; eauto.
      * intros a Hu. by destruct o.
      * by destruct o.
    + simpl. rewrite fn_lookup_insert.
      destruct (threads c t) as [[]|]; destruct o; simpl; done.
  - destruct (threads c t) as [p|] eqn:Hp; simpl in Hg; [|done].
    destruct (LS.step e p (mem c)) as [[p' s']|] eqn:Hstep; simplify_eq/=.
    rewrite fn_lookup_insert.
    pose proof (inv_thread _ _ Hinv t p Hp) as Hok.
    destruct c as [s th]. simpl in *.
    destruct p as [v | a | a | | | [a|] | a nxt | [a|] | |];
      simpl in Hstep, Hok; try done.
    + (* line 54 *)
      destruct (alloc e) as [a|] eqn:Ha;
        [destruct (LS.heap s !! a) eqn:Hfresh; [done|] |]; simplify_eq.
      * assert (Hnin : a ∉ l.*1).
        { intros [n Hn]%(lt_stack_alloc _ _ _ _ Hst). congruence. }
        exists l. split; [|done].
        eapply (lt_frame (Config s th) _ l l t (Some (LS.PushNew v)));
          simpl; try done.
        -- intros a2 [n Hn] _. rewrite lookup_insert_ne; [done|]. congruence.
        -- by eauto.
        -- intros a2 [= <-]. by right.
        -- by apply lt_stack_insert.
        -- split; [done|]. simpl. eexists _, _. by rewrite lookup_insert_eq.
      * exists l. split; [|done]. destruct s' as [hd m].
        by eapply (lt_inv_read (LS.Shared _ m) _ _ _ (LS.PushNew v)).
    + (* line 55 *)
      destruct Hok as (Hnin & v & nxt & Hn). rewrite Hn in Hstep. simplify_eq/=.
      exists l. split; [|done].
      eapply (lt_frame (Config s th) _ l l t (Some (LS.PushLoad a)));
        simpl; try done.
      * intros a2 _ Hne. rewrite lookup_insert_ne; [done|]. congruence.
      * by eauto.
      * by eauto.
      * by apply lt_stack_insert.
      * split; [done|]. simpl. eexists _, _. by rewrite lookup_insert_eq.
    + (* line 56 *)
      destruct Hok as (Hnin & v & nxt & Hn). rewrite Hn in Hstep. simpl in Hstep.
      destruct (compare_exchange_inv (spurious e) (LS.head s) nxt (Some a))
        as [(Hce & Hhd & _)|(Hce & _)]; rewrite Hce in Hstep; simplify_eq/=.
      * exists ((a, v) :: l). split; [|by eauto].
        eapply (lt_frame (Config s th) _ l _ t (Some (LS.PushCas a)));
          simpl; try done.
        -- intros a2 _ Hne. rewrite lookup_insert_ne; [done|]. congruence.
        -- intros a2 [->|Hin]%elem_of_cons; by eauto.
        -- split; [done|]. exists (LS.head s).
           split; [by rewrite lookup_insert_eq|]. by apply lt_stack_insert.
      * exists l. split; [|done].
        eapply (lt_frame (Config s th) _ l l t (Some (LS.PushCas a)));
          simpl; try done.
        -- intros a2 _ Hne. rewrite lookup_insert_ne; [done|]. congruence.
        -- by eauto.
        -- by eauto.
        -- by apply lt_stack_insert.
        -- split; [done|]. simpl. eexists _, _. by rewrite lookup_insert_eq.
    + (* line 60 *)
      simplify_eq. destruct s' as [hd m]. simpl in *.
      assert (l = [] /\ hd = None \/ exists a v l0, l = (a, v) :: l0 /\ hd = Some a)
        as [(-> & ->)|(a & v & l0 & -> & ->)].
      { destruct l as [|[a v] l0]; simpl in Hst; [by left|].
        right. destruct Hst as (-> & _). by eauto 6. }
      * exists []. split; [|done].
        by eapply (lt_inv_read (LS.Shared _ m) _ _ _ LS.PopLoad).
      * exists ((a, v) :: l0). split; [|done].
        eapply (lt_inv_read (LS.Shared _ m) _ _ _ LS.PopLoad); try done.
        intros c' _ Hm Hback. simpl. rewrite Hm. simpl.
        destruct Hst as (_ & nxt & Hn & _). split; [by eauto|].
        intros Hpr%Hback. by eapply lt_top_public.
    + (* line 61, old_head *)
      destruct Hok as ((v & nxt0 & Hn) & Hnp). rewrite Hn in Hstep.
      simplify_eq/=. exists l. split; [|done]. destruct s' as [hd m].
      eapply (lt_inv_read (LS.Shared _ m) _ _ _ (LS.PopTest (Some a))); try done.
      intros c' _ Hm Hback. simpl. rewrite Hm. simpl. split; [by eauto|].
      intros Hpr%Hback. done.
    + (* line 61, null *)
      simplify_eq. exists l. split; [|done]. destruct s' as [hd m].
      by eapply (lt_inv_read (LS.Shared _ m) _ _ _ (LS.PopTest None)).
    + (* line 62 *)
      destruct Hok as ((v & Hn) & Hnp).
      destruct (compare_exchange_inv (spurious e) (LS.head s) (Some a) nxt)
        as [(Hce & Hhd & _)|(Hce & _)]; rewrite Hce in Hstep; simplify_eq/=.
      * destruct (lt_stack_head _ _ _ a Hst Hhd) as (v' & l0 & ->).
        simpl in Hst. destruct Hst as (_ & nxt' & Hn' & Hst).
        rewrite Hn in Hn'. simplify_eq.
        exists l0. split; [|by eauto].
        eapply (lt_frame (Config s th) _ _ l0 t (Some (LS.PopCas a nxt')));
          simpl; try done.
        -- intros a2 Hin. left. by right.
        -- split; [by eauto|]. intros Hpr. apply Hnp. revert Hpr.
           by apply (lt_private_back (Config s th) _ t (LS.PopRet (Some a))).
      * assert (l = [] /\ LS.head s = None \/
                exists a' v' l0, l = (a', v') :: l0 /\ LS.head s = Some a')
          as [(-> & Hhd)|(a' & v' & l0 & -> & Hhd)].
        { destruct l as [|[a' v'] l0]; simpl in Hst; [by left|].
          right. destruct Hst as (? & _). by eauto 6. }
        -- rewrite Hhd. exists []. split; [|done].
           by eapply (lt_inv_read s _ _ _ (LS.PopCas a nxt)).
        -- rewrite Hhd. exists ((a', v') :: l0). split; [|done].
           eapply (lt_inv_read s _ _ _ (LS.PopCas a nxt)); try done.
           intros c' _ Hm Hback. simpl. rewrite Hm. simpl.
           destruct Hst as (_ & nxt' & Hn' & _). split; [by eauto|].
           intros Hpr%Hback. by eapply lt_top_public.
    + (* line 63, old_head *)
      destruct Hok as ((v & nxt0 & Hn) & Hnp). rewrite Hn in Hstep.
      simplify_eq/=. exists l. split; [|by eauto 6]. destruct s' as [hd m].
      by eapply (lt_inv_read (LS.Shared _ m) _ _ _ (LS.PopRet (Some a))).
    + (* line 63, null *)
      simplify_eq. exists l. split; [|done]. destruct s' as [hd m].
      by eapply (lt_inv_read (LS.Shared _ m) _ _ _ (LS.PopRet None)).
Qed.

Lemma lt_reachable_inv c : reachable c -> exists l, inv c l.
Proof.
  induction 1 as [s l Hst|c t a c' _ [l Hinv] Hg].
  - exists l. split; simpl; done.
  - destruct (lt_inv_step c l t a c' Hinv Hg) as (l' & Hinv' & _). by exists l'.
Qed.

(** No thread is ever stuck on a pointer: the node it is about to read or
    write is allocated. *)
Lemma lt_inv_progress c l t p e :
  inv c l -> threads c t = Some p -> LS.final p = false ->
  (forall a, alloc e = Some a -> LS.heap (mem c) !! a = None) ->
  is_Some (gstep t (Run e) c).
Proof.
  intros Hinv Hp Hfin Hfresh. pose proof (inv_thread _ _ Hinv t p Hp) as Hok.
  unfold gstep. rewrite Hp. simpl.
  destruct p as [v | a | a | | | [a|] | a nxt | [a|] | |];
    simpl in Hok, Hfin |- *; try done.
  - destruct (alloc e) as [a|] eqn:Ha; simpl; [|by eauto].
    rewrite (Hfresh a) by done. simpl. by eauto.
  - destruct Hok as (_ & v & nxt & ->). simpl. by eauto.
  - destruct Hok as (_ & v & nxt & ->). simpl.
    destruct (compare_exchange _ _ _ _) as [[ok hd'] ex']. simpl. by eauto.
  - destruct Hok as ((v & nxt & ->) & _). simpl. by eauto.
  - destruct (compare_exchange _ _ _ _) as [[ok hd'] ex']. simpl. by eauto.
  - destruct Hok as ((v & nxt & ->) & _). simpl. by eauto.
Qed.

(** A step writes no node but the one its thread has not published, and a
    thread gets a private node only from [new]. *)
Lemma lt_step_frame e p s p' s' :
  LS.step e p s = Some (p', s') ->
  (forall a, is_Some (LS.heap s !! a) -> LS.unpublished p ≠ Some a ->
     LS.heap s' !! a = LS.heap s !! a) /\
  (forall a, LS.unpublished p' = Some a ->
     LS.unpublished p = Some a \/ LS.heap s !! a = None).
Proof.
  intros Hstep. destruct p; invert_step Hstep; simpl; split; try done.
  all: try by (intros ? [= <-]; eauto).
  all: intros a0 [n0 Hn0] Hne; rewrite lookup_insert_ne; [done|congruence].
Qed.

Lemma lt_step_published t a c c' a0 n :
  gstep t a c = Some c' ->
  LS.heap (mem c) !! a0 = Some n -> ~ private c a0 ->
  LS.heap (mem c') !! a0 = Some n /\ ~ private c' a0.
Proof.
  intros Hg Hn Hnp. destruct a as [o|e]; simpl in Hg.
  - destruct (resting (threads c t)); simplify_eq/=. split; [done|].
    intros Hpr. apply Hnp. revert Hpr.
    apply (lt_private_back c _ t (LS.entry o)); [done|by destruct o].
  - destruct (threads c t) as [p|] eqn:Hp; simpl in Hg; [|done].
    destruct (LS.step e p (mem c)) as [[p' s']|] eqn:Hstep; simplify_eq/=.
    destruct (lt_step_frame _ _ _ _ _ Hstep) as (Hheap & Hpriv).
    assert (LS.unpublished p ≠ Some a0) as Hmine.
    { intros Hu. apply Hnp. by exists t, p. }
    split; [by rewrite Hheap|].
    intros (t3 & p3 & Hp3 & Hu3). simpl in Hp3.
    destruct (decide (t3 = t)) as [->|Hne].
    + rewrite fn_lookup_insert in Hp3. simplify_eq.
      destruct (Hpriv a0 Hu3) as [?|Hnone]; [done|congruence].
    + rewrite fn_lookup_insert_ne in Hp3 by done. apply Hnp. by exists t3, p3.
Qed.

End lock_free_stack_threads_facts.

(** ** Statements *)

(** X1.  [lock_free_stack]: a thread that pushes any values [vs] and then
    pops as many times, nothing else running, gets them back last in, first
    out, whatever [new] returns and however often the weak compare-exchange
    fails; the head is then what it was before, and every node that was
    allocated still is, those of the values popped included: the class
    never deletes a node.  Such a run exists for any distinct free
    addresses. *)
Theorem ls_balanced_lifo (T : Type) (vs : list T) :
  (forall (s : LS.shared T) addrs es,
     length addrs = length vs -> NoDup addrs ->
     (forall a, a ∈ addrs -> LS.heap s !! a = None) ->
     exists s',
       LS.run_ops (balanced vs) (balanced_tape 4 addrs ++ es) s
       = Some (balanced_seen vs, s', es)) /\
  (forall (s : LS.shared T) es rs s' es',
     LS.run_ops (balanced vs) es s = Some (rs, s', es') ->
     (forall x, Raised x ∉ rs) ->
     rs = balanced_seen vs /\ LS.head s' = LS.head s /\
     LS.heap s ⊆ LS.heap s' /\
     size (LS.heap s') = (size (LS.heap s) + length vs)%nat).
Proof.
  split.
  - intros s addrs es. apply plain_balanced_run.
  - intros s es rs s' es'. apply plain_balanced_any.
Qed.

Lemma ls_balanced_lifo_witness :
  exists s',
    LS.run_ops (balanced [5%nat; 6%nat])
      (balanced_tape 4 [1%positive; 2%positive] ++ []) LS.empty_stack
    = Some (balanced_seen [5%nat; 6%nat], s', []).
Proof.
  apply (proj1 (ls_balanced_lifo nat [5%nat; 6%nat])).
  - reflexivity.
  - apply (bool_decide_unpack (NoDup [1%positive; 2%positive])).
    vm_compute. exact I.
  - intros a _. apply lookup_empty.
Defined.

(** X2.  [lock_free_stack_rf]: the same pushes and pops leave the memory
    exactly as it was: the values come back last in, first out, the head
    has its old value, count included, and every node pushed has been
    freed. *)
Theorem rf_balanced_restores (T : Type) (vs : list T) :
  (forall (s : RF.shared T) addrs es,
     length addrs = length vs -> NoDup addrs ->
     (forall a, a ∈ addrs -> RF.heap s !! a = None) ->
     RF.run_ops (balanced vs) (balanced_tape 7 addrs ++ es) s
     = Some (balanced_seen vs, s, es)) /\
  (forall (s : RF.shared T) es rs s' es',
     RF.run_ops (balanced vs) es s = Some (rs, s', es') ->
     (forall x, Raised x ∉ rs) ->
     rs = balanced_seen vs /\ s' = s).
Proof.
  split.
  - intros s addrs es. apply rf_balanced_run.
  - intros s es rs s' es'. apply rf_balanced_any.
Qed.

Lemma rf_balanced_restores_witness :
  RF.run_ops (balanced [5%nat; 6%nat])
    (balanced_tape 7 [1%positive; 2%positive] ++ []) (RF.empty_stack 3)
  = Some (balanced_seen [5%nat; 6%nat], RF.empty_stack 3, []).
Proof.
  apply (proj1 (rf_balanced_restores nat [5%nat; 6%nat])).
  - reflexivity.
  - apply (bool_decide_unpack (NoDup [1%positive; 2%positive])).
    vm_compute. exact I.
  - intros a _. apply lookup_empty.
Defined.

(** X3.  [~lock_free_stack_rf()]: on a stack as pushes leave it (each node
    with an external count of one in the pointer to it and an internal
    count of zero), [while(pop());] returns after one [pop] per node and one
    more, has freed every node of the stack and touched no other. *)
Theorem rf_destructor_frees_stack (T : Type) (l : list (loc * T))
    (s : RF.shared T) (bottom : RF.counted_node_ptr) (es0 es : list env) :
  rf_stack (RF.heap s) (RF.head s) l bottom -> RF.ptr bottom = None ->
  length es0 = (7 * length l + 2)%nat ->
  rf_destructor (S (length l)) (es0 ++ es) s
  = Some (RF.Shared
            (RF.Counted (int_wrap (RF.external_count bottom + 1)) None)
            (foldr delete (RF.heap s) l.*1), es).
Proof. apply rf_destructor_frees. Qed.

Lemma rf_destructor_frees_stack_witness :
  rf_destructor 2 (replicate 9 env_quiet ++ [])
    (RF.Shared (RF.Counted 1 (Some 1%positive))
       {[ 1%positive := RF.Node (Some 7%nat) 0 (RF.Counted 0 None) ]})
  = Some (RF.Shared (RF.Counted 1 None)
            (delete 1%positive
               {[ 1%positive := RF.Node (Some 7%nat) 0 (RF.Counted 0 None) ]}),
          []).
Proof.
  refine (eq_trans (rf_destructor_frees_stack nat [(1%positive, 7%nat)]
           (RF.Shared (RF.Counted 1 (Some 1%positive))
              {[ 1%positive := RF.Node (Some 7%nat) 0 (RF.Counted 0 None) ]})
           (RF.Counted 0 None) (replicate 9 env_quiet) [] _ _ _) _).
  - simpl. split; [reflexivity|]. eexists. split; reflexivity.
  - reflexivity.
  - reflexivity.
  - reflexivity.
Defined.



(** X5.  [lock_free_stack_rf::pop]: a node that [j + 1] threads have
    claimed (external count [j + 2] when it is unlinked, internal count
    zero) is given up by the thread that unlinked it (lines 371-373) and by
    the [j] others (lines 379-380) in any order; exactly one of these
    [j + 1] steps, the last, sends its thread to [delete ptr], and the count
    is then zero. *)
Theorem rf_exactly_one_delete (T : Type) (old_head : RF.counted_node_ptr)
    (a : loc) (j k : nat) (s : RF.shared T) (n : RF.node T) :
  RF.heap s !! a = Some n -> RF.internal_count n = 0 ->
  RF.external_count old_head = Z.of_nat j + 2 -> Z.of_nat j + 2 < 2 ^ 31 ->
  (k <= j)%nat ->
  exists s' n',
    rf_give_up old_head a
      (replicate k Release ++ Settle :: replicate (j - k) Release) s
    = Some (replicate j false ++ [true], s') /\
    RF.heap s' !! a = Some n' /\ RF.internal_count n' = 0.
Proof. apply rf_one_delete. Qed.

Lemma rf_exactly_one_delete_witness :
  exists s' n',
    rf_give_up (RF.Counted 4 (Some 1%positive)) 1%positive
      (replicate 1 Release ++ Settle :: replicate (2 - 1) Release)
      (RF.Shared (RF.Counted 0 None)
         {[ 1%positive := RF.Node (T := nat) None 0 (RF.Counted 0 None) ]})
    = Some (replicate 2 false ++ [true], s') /\
    RF.heap s' !! 1%positive = Some n' /\ RF.internal_count n' = 0.
Proof.
  apply (rf_exactly_one_delete nat (RF.Counted 4 (Some 1%positive)) 1%positive
           2 1 _ (RF.Node None 0 (RF.Counted 0 None))).
  - reflexivity.
  - reflexivity.
  - reflexivity.
  - reflexivity.
  - lia.
Defined.

(** X6.  The hazard-pointer registry ([hp_owner], lines 160-198), in every
    configuration the program reaches, with any number of threads calling
    [pop], running and exiting in any order: the table has its hundred
    slots; a thread's [hp_owner] refers to slot [i] exactly when slot [i]
    carries the thread's id; and no two threads have the same slot. *)
Theorem hazard_slot_ownership (T : Type) (c : HZ.config T) :
  HZ.reachable c ->
  length (HZ.hazard_pointers (HZ.mem c)) = HZ.max_hazard_pointers /\
  (forall t i,
     HZ.hp (HZ.threads c t) = Some i <->
     exists h, HZ.hazard_pointers (HZ.mem c) !! i = Some h /\ HZ.id h = Some t) /\
  (forall t1 t2 i,
     HZ.hp (HZ.threads c t1) = Some i -> HZ.hp (HZ.threads c t2) = Some i ->
     t1 = t2).
Proof.
  intros [Hinv Hlen Hown _ _ _]%hz_registry_reachable.
  assert (forall t i, HZ.hp (HZ.threads c t) = Some i ->
            exists h, HZ.hazard_pointers (HZ.mem c) !! i = Some h /\
                      HZ.id h = Some t) as Hslot.
  { intros t i Hi. destruct (Hinv t) as (H1 & _). by apply H1. }
  split; [done|]. split.
  - intros t i. split; [apply Hslot|]. intros (h & Hh & Hid). by eapply Hown.
  - intros t1 t2 i (h1 & Hh1 & Hid1)%Hslot (h2 & Hh2 & Hid2)%Hslot.
    congruence.
Qed.

Lemma hazard_slot_ownership_witness :
  exists c,
    HZ.grun (HZ.racing_pops 3) (HZ.initial (Some 1%positive) HZ.one_node)
    = Some c /\
    length (HZ.hazard_pointers (HZ.mem c)) = HZ.max_hazard_pointers.
Proof.
  destruct (HZ.grun (HZ.racing_pops 3)
              (HZ.initial (Some 1%positive) HZ.one_node)) as [c|] eqn:Hrun;
    [|by vm_compute in Hrun].
  exists c. split; [done|].
  apply (proj1 (hazard_slot_ownership nat c
                  (hz_grun_reachable _ _ _ (HZ.reachable_initial _ _) Hrun))).
Defined.

(** X7.  In every reachable configuration a slot holds a pointer other than
    null only while its owner is between line 277 and line 283 of [pop];
    the slot of a thread that is anywhere else, in particular of one whose
    [pop] has returned, holds null. *)
Theorem hazard_pointer_only_in_loop (T : Type) (c : HZ.config T) :
  HZ.reachable c ->
  (forall i h,
     HZ.hazard_pointers (HZ.mem c) !! i = Some h -> HZ.pointer h ≠ None ->
     exists t, HZ.id h = Some t /\ HZ.hp (HZ.threads c t) = Some i /\
               hz_in_loop (HZ.at_pc (HZ.threads c t)) = true) /\
  (forall t i h,
     HZ.hp (HZ.threads c t) = Some i ->
     HZ.hazard_pointers (HZ.mem c) !! i = Some h ->
     hz_in_loop (HZ.at_pc (HZ.threads c t)) = false ->
     HZ.pointer h = None).
Proof.
  intros [Hinv _ Hown Hptr _ _]%hz_registry_reachable.
  split.
  - intros i h Hh Hp. destruct (Hptr i h Hh Hp) as (t & Hid & Hloop).
    exists t. split; [done|]. split; [by eapply Hown|done].
  - intros t i h Hi Hh Hloop.
    destruct (decide (HZ.pointer h = None)) as [|Hp]; [done|].
    destruct (Hptr i h Hh Hp) as (t' & Hid' & Hloop').
    destruct (Hinv t) as (H1 & _). destruct (H1 i Hi) as (h' & Hh' & Hid).
    assert (t' = t) as -> by congruence. congruence.
Qed.

Lemma hazard_pointer_only_in_loop_witness :
  exists c,
    HZ.grun (HZ.racing_pops 0) (HZ.initial (Some 1%positive) HZ.one_node)
    = Some c /\
    exists t,
      HZ.id (HZ.HazardPointer (Some 1%nat) (Some 1%positive)) = Some t /\
      HZ.hp (HZ.threads c t) = Some 0%nat /\
      hz_in_loop (HZ.at_pc (HZ.threads c t)) = true.
Proof.
  destruct (HZ.grun (HZ.racing_pops 0)
              (HZ.initial (Some 1%positive) HZ.one_node)) as [c|] eqn:Hrun;
    [|by vm_compute in Hrun].
  exists c. split; [done|].
  apply (proj1 (hazard_pointer_only_in_loop nat c
                  (hz_grun_reachable _ _ _ (HZ.reachable_initial _ _) Hrun))
           0%nat (HZ.HazardPointer (Some 1%nat) (Some 1%positive))).
  - vm_compute in Hrun. injection Hrun as <-. reflexivity.
  - discriminate.
Defined.

(** X8.  With [outstanding_hazard_pointers_for] as it is written (lines
    227-229), the retire list is never used: in every reachable
    configuration [nodes_to_reclaim] is null, no [data_to_reclaim] is
    allocated, no thread is inside [reclaim_later] or [add_to_reclaim_list]
    or holds an entry in [delete_nodes_with_no_hazards], and no [pop] has
    thrown [bad_alloc]. *)
Theorem hazard_retire_list_unused (T : Type) (c : HZ.config T) :
  HZ.reachable c ->
  HZ.nodes_to_reclaim (HZ.mem c) = None /\
  HZ.reclaim_heap (HZ.mem c) = ∅ /\
  forall t, hz_retiring (HZ.at_pc (HZ.threads c t)) = false.
Proof. by intros [_ _ _ _ _ Hret]%hz_registry_reachable. Qed.

Lemma hazard_retire_list_unused_witness :
  exists c,
    HZ.grun (HZ.racing_pops 11) (HZ.initial (Some 1%positive) HZ.one_node)
    = Some c /\
    HZ.nodes_to_reclaim (HZ.mem c) = None.
Proof.
  destruct (HZ.grun (HZ.racing_pops 11)
              (HZ.initial (Some 1%positive) HZ.one_node)) as [c|] eqn:Hrun;
    [|by vm_compute in Hrun].
  exists c. split; [done|].
  apply (proj1 (hazard_retire_list_unused nat c
                  (hz_grun_reachable _ _ _ (HZ.reachable_initial _ _) Hrun))).
Defined.

(** X9.  [~hp_owner] (lines 188-192), in every reachable configuration: the
    two stores of an exiting thread are always defined; the second leaves
    the thread's slot free, with the default id and a null pointer, changes
    no other slot, and the thread has no slot any more. *)
Theorem hazard_exit_frees_slot (T : Type) (c : HZ.config T)
    (t : HZ.thread_id) (e : env) :
  HZ.reachable c ->
  (HZ.at_pc (HZ.threads c t) = HZ.ExitClear ->
   exists i h,
     HZ.hp (HZ.threads c t) = Some i /\
     HZ.hazard_pointers (HZ.mem c) !! i = Some h /\
     HZ.gstep t (HZ.Run e) c
     = Some (HZ.Config
               (HZ.with_table (HZ.mem c)
                  (<[i := HZ.set_pointer h None]> (HZ.hazard_pointers (HZ.mem c))))
               (<[t := HZ.Local (Some i) HZ.ExitRelease]> (HZ.threads c)))) /\
  (HZ.at_pc (HZ.threads c t) = HZ.ExitRelease ->
   exists i,
     HZ.hp (HZ.threads c t) = Some i /\
     HZ.gstep t (HZ.Run e) c
     = Some (HZ.Config
               (HZ.with_table (HZ.mem c)
                  (<[i := HZ.HazardPointer None None]>
                     (HZ.hazard_pointers (HZ.mem c))))
               (<[t := HZ.Local None HZ.Exited]> (HZ.threads c)))).
Proof.
  intros Hr. pose proof (hz_registry_reachable _ Hr) as [Hinv _ Hown Hptr _ _].
  destruct (Hinv t) as (H1 & _ & H3 & _).
  split; intros Hpc.
  - destruct H3 as [i Hi]; [by rewrite Hpc|].
    destruct (H1 i Hi) as (h & Hh & Hid).
    exists i, h. split; [done|]. split; [done|].
    unfold HZ.gstep, HZ.step. rewrite Hpc. simpl. rewrite Hi. simpl.
    rewrite Hh. simpl. done.
  - destruct H3 as [i Hi]; [by rewrite Hpc|].
    destruct (H1 i Hi) as (h & Hh & Hid).
    exists i. split; [done|].
    assert (HZ.pointer h = None) as Hp.
    { destruct (decide (HZ.pointer h = None)) as [|Hp]; [done|].
      destruct (Hptr i h Hh Hp) as (t' & Hid' & Hloop').
      assert (t' = t) as -> by congruence.
      rewrite Hpc in Hloop'. discriminate. }
    unfold HZ.gstep, HZ.step. rewrite Hpc. simpl. rewrite Hi. simpl.
    rewrite Hh. simpl. unfold HZ.set_id. by rewrite Hp.
Qed.

Lemma hazard_exit_frees_slot_witness :
  exists c,
    HZ.grun ((0%nat, HZ.Call) :: replicate 7 (0%nat, HZ.Run env_quiet) ++
             [(0%nat, HZ.Exit); (0%nat, HZ.Run env_quiet)])
      (HZ.initial (T := nat) None ∅) = Some c /\
    exists i,
      HZ.hp (HZ.threads c 0%nat) = Some i /\
      HZ.gstep 0%nat (HZ.Run env_quiet) c
      = Some (HZ.Config
                (HZ.with_table (HZ.mem c)
                   (<[i := HZ.HazardPointer None None]>
                      (HZ.hazard_pointers (HZ.mem c))))
                (<[0%nat := HZ.Local None HZ.Exited]> (HZ.threads c))).
Proof.
  destruct (HZ.grun ((0%nat, HZ.Call) :: replicate 7 (0%nat, HZ.Run env_quiet) ++
                     [(0%nat, HZ.Exit); (0%nat, HZ.Run env_quiet)])
              (HZ.initial (T := nat) None ∅)) as [c|] eqn:Hrun;
    [|by vm_compute in Hrun].
  exists c. split; [done|].
  apply (proj2 (hazard_exit_frees_slot nat c 0%nat env_quiet
                  (hz_grun_reachable _ _ _ (HZ.reachable_initial _ _) Hrun))).
  vm_compute in Hrun. injection Hrun as <-. reflexivity.
Defined.

(** X10.  The constructor of [hp_owner] (lines 166-183), run by thread [t]
    with no other thread running: when slots [0 .. k-1] are owned and slot
    [k] is free, the first call of [pop] reaches line 270 after [k + 2]
    steps, owning slot [k]; the id of slot [k] is the only thing written. *)
Theorem hazard_acquires_first_free (T : Type) (t : HZ.thread_id)
    (s : HZ.shared T) (k : nat) (h : HZ.hazard_pointer) (es0 : list env) :
  (forall j, (j < k)%nat ->
     exists hj, HZ.hazard_pointers s !! j = Some hj /\ is_Some (HZ.id hj)) ->
  HZ.hazard_pointers s !! k = Some h -> HZ.id h = None ->
  (k < HZ.max_hazard_pointers)%nat -> length es0 = (k + 2)%nat ->
  hz_steps es0 t (HZ.Local None HZ.PopEntry) s
  = Some (HZ.Local (Some k) HZ.PopLoad,
          HZ.with_table s
            (<[k := HZ.set_id h (Some t)]> (HZ.hazard_pointers s))).
Proof.
  intros Hown Hk Hid Hlt Hlen.
  destruct es0 as [|e es0]; [simpl in Hlen; lia|].
  cbn [hz_steps]. unfold HZ.step at 1. simpl.
  apply (hz_scan_first t s k h k 0); try done.
  - intros j Hj. apply Hown. lia.
  - simpl in Hlen. lia.
Qed.

Lemma hazard_acquires_first_free_witness :
  hz_steps (replicate 4 env_quiet) 7%nat (HZ.Local None HZ.PopEntry)
    (HZ.Shared (T := nat) None ∅
       [HZ.HazardPointer (Some 3%nat) None; HZ.HazardPointer (Some 4%nat) None;
        HZ.HazardPointer None None; HZ.HazardPointer None None] None ∅)
  = Some (HZ.Local (Some 2%nat) HZ.PopLoad,
          HZ.with_table
            (HZ.Shared (T := nat) None ∅
               [HZ.HazardPointer (Some 3%nat) None;
                HZ.HazardPointer (Some 4%nat) None;
                HZ.HazardPointer None None; HZ.HazardPointer None None] None ∅)
            (<[2%nat := HZ.set_id (HZ.HazardPointer None None) (Some 7%nat)]>
               (HZ.hazard_pointers
                  (HZ.Shared (T := nat) None ∅
                     [HZ.HazardPointer (Some 3%nat) None;
                      HZ.HazardPointer (Some 4%nat) None;
                      HZ.HazardPointer None None; HZ.HazardPointer None None]
                     None ∅)))).
Proof.
  apply (hazard_acquires_first_free nat 7%nat _ 2%nat
           (HZ.HazardPointer None None) (replicate 4 env_quiet)).
  - intros [|[|j]] Hj; [eexists; split; [reflexivity|eexists; reflexivity]..|lia].
  - reflexivity.
  - reflexivity.
  - unfold HZ.max_hazard_pointers. lia.
  - reflexivity.
Defined.

(** X11.  [lock_free_stack_with_hazard::pop] run by a thread that has its
    slot, no other thread running.  On a stack that is not empty it returns
    the payload of the head's node after eleven steps; the head is then the
    node's successor, the node is freed, the thread's slot holds null and
    the retire list is empty.  On an empty stack it returns the empty result
    after six steps and has written nothing but null to its slot. *)
Theorem hazard_pop_alone (T : Type) (t : HZ.thread_id) (i : nat)
    (h : HZ.hazard_pointer) (s : HZ.shared T) (es0 es : list env) :
  HZ.hazard_pointers s !! i = Some h ->
  (forall a n,
     HZ.head s = Some a -> HZ.heap s !! a = Some n ->
     HZ.nodes_to_reclaim s = None -> length es0 = 11%nat ->
     HZ.exec (es0 ++ es) t (HZ.Local (Some i) HZ.PopEntry) s
     = Some (HZ.Local (Some i) (HZ.PopDone (HZ.data n)),
             HZ.Shared (HZ.next n) (delete a (HZ.heap s))
               (<[i := HZ.set_pointer h None]> (HZ.hazard_pointers s)) None
               (HZ.reclaim_heap s),
             es)) /\
  (HZ.head s = None -> length es0 = 6%nat ->
   HZ.exec (es0 ++ es) t (HZ.Local (Some i) HZ.PopEntry) s
   = Some (HZ.Local (Some i) (HZ.PopDone None),
           HZ.with_table s
             (<[i := HZ.set_pointer h None]> (HZ.hazard_pointers s)),
           es)).
Proof.
  intros Hi. split.
  - intros a n Hh Hn Hroot Hlen. by apply hz_pop_alone.
  - intros Hh Hlen. by apply hz_pop_alone_empty.
Qed.

Lemma hazard_pop_alone_witness :
  HZ.exec (replicate 11 env_quiet ++ []) 0%nat (HZ.Local (Some 0%nat) HZ.PopEntry)
    (HZ.Shared (Some 1%positive) HZ.one_node
       [HZ.HazardPointer (Some 0%nat) None] None ∅)
  = Some (HZ.Local (Some 0%nat) (HZ.PopDone (Some 7%nat)),
          HZ.Shared None (delete 1%positive HZ.one_node)
            (<[0%nat := HZ.HazardPointer (Some 0%nat) None]>
               [HZ.HazardPointer (Some 0%nat) None]) None ∅,
          []).
Proof.
  refine (proj1 (hazard_pop_alone nat 0%nat 0%nat
                   (HZ.HazardPointer (Some 0%nat) None)
                   (HZ.Shared (Some 1%positive) HZ.one_node
                      [HZ.HazardPointer (Some 0%nat) None] None ∅)
                   (replicate 11 env_quiet) [] _)
            1%positive (HZ.Node (Some 7%nat) None) _ _ _ _);
    reflexivity.
Defined.

(** X12.  [lock_free_stack_with_gc::pop] with no other thread in [pop]
    ([threads_in_pop] is 0 at entry) and none starting one meanwhile.  On a
    stack that is not empty it returns the payload of the head's node; the
    head is then the node's successor, the node and every node waiting in
    [to_be_deleted] are freed ([try_reclaim], [delete_nodes]),
    [to_be_deleted] is null and the counter is 0 again.  On an empty stack
    it returns the empty result and frees the waiting nodes the same
    way. *)
Theorem gc_pop_alone_frees (T : Type) (s : GC.shared T) (l : list loc)
    (es0 es : list env) :
  GC.threads_in_pop s = 0 -> GC.linked (GC.heap s) (GC.to_be_deleted s) l ->
  (forall a n,
     GC.head s = Some a -> GC.heap s !! a = Some n -> a ∉ l ->
     Forall (fun e => spurious e = false) es0 ->
     length es0 = (2 * length l + 10)%nat ->
     GC.exec (es0 ++ es) GC.PopEnter s
     = Some (GC.PopDone (GC.data n),
             GC.Shared (GC.next n) 0 None
               (delete a (foldr delete (GC.heap s) l)), es)) /\
  (GC.head s = None -> length es0 = (2 * length l + 8)%nat ->
   GC.exec (es0 ++ es) GC.PopEnter s
   = Some (GC.PopDone None,
           GC.Shared None 0 None (foldr delete (GC.heap s) l), es)).
Proof.
  intros Hc Hl. split.
  - intros a n Hh Hn Ha Hsp Hlen. by apply gc_pop_alone.
  - intros Hh Hlen. by apply gc_pop_alone_empty.
Qed.

Lemma gc_pop_alone_frees_witness :
  GC.exec (replicate 12 env_quiet ++ []) GC.PopEnter
    (GC.Shared (Some 1%positive) 0 (Some 2%positive)
       (<[1%positive := GC.Node (Some 7%nat) None]>
          {[ 2%positive := GC.Node None None ]}))
  = Some (GC.PopDone (Some 7%nat), GC.Shared None 0 None ∅, []).
Proof.
  refine (eq_trans
            (proj1 (gc_pop_alone_frees nat
                      (GC.Shared (Some 1%positive) 0 (Some 2%positive)
                         (<[1%positive := GC.Node (Some 7%nat) None]>
                            {[ 2%positive := GC.Node None None ]}))
                      [2%positive] (replicate 12 env_quiet) [] _ _)
               1%positive (GC.Node (Some 7%nat) None) _ _ _ _ _) _).
  - reflexivity.
  - simpl. split; [reflexivity|]. eexists. split; reflexivity.
  - reflexivity.
  - reflexivity.
  - apply (bool_decide_unpack (1%positive ∉ [2%positive])). vm_compute. exact I.
  - repeat constructor.
  - reflexivity.
  - vm_compute. reflexivity.
Defined.



(** X14.  [lock_free_stack_with_gc::pop] on an empty stack while another
    thread is in [pop]: the counter is not 1 at line 93, so
    [try_reclaim(nullptr)] calls [chain_pending_node(nullptr)], and line 123
    stores through the null pointer.  The call reaches that store in four
    steps and has no defined behaviour from there: it does not return,
    whatever the tape. *)
Theorem gc_empty_pop_null_store (T : Type) (s : GC.shared T) (c : Z)
    (e1 e2 e3 e4 : env) :
  GC.head s = None -> GC.threads_in_pop s = c -> uint_wrap (c + 1) ≠ 1 ->
  GC.steps [e1; e2; e3; e4] GC.PopEnter s
  = Some (GC.ChainStore None None (GC.LeavePop None),
          GC.with_count s (uint_wrap (c + 1))) /\
  (forall e (k : GC.pc T) s', GC.step e (GC.ChainStore None None k) s' = None) /\
  (forall es, GC.exec es GC.PopEnter s = None).
Proof. apply gc_pop_empty_undefined. Qed.

Lemma gc_empty_pop_null_store_witness :
  GC.exec (T := nat) (replicate 20 env_quiet) GC.PopEnter
    (GC.Shared None 1 None ∅) = None.
Proof.
  refine (proj2 (proj2 (gc_empty_pop_null_store nat (GC.Shared None 1 None ∅) 1
                          env_quiet env_quiet env_quiet env_quiet _ _ _))
            (replicate 20 env_quiet)).
  - reflexivity.
  - reflexivity.
  - vm_compute. discriminate.
Defined.

(** X15.  [chain_pending_nodes(nodes)] (lines 112-126), with no other thread
    writing [to_be_deleted] meanwhile: it walks to the last node of the
    list, and puts the whole list in front of the nodes that were waiting:
    [to_be_deleted] is the first node, from which the list and then the
    nodes that were waiting are linked.  No node is freed or allocated, and
    the head and the counter are as they were. *)
Theorem gc_chain_pending_splices (T : Type) (first : loc) (l l0 : list loc)
    (k : GC.pc T) (s : GC.shared T) (es0 : list env) :
  GC.linked (GC.heap s) (Some first) l ->
  GC.linked (GC.heap s) (GC.to_be_deleted s) l0 ->
  (forall a, a ∈ l -> a ∉ l0) ->
  Forall (fun e => spurious e = false) es0 ->
  length es0 = (length l + 2)%nat ->
  exists s',
    GC.steps es0 (GC.ChainWalk first first k) s = Some (k, s') /\
    GC.head s' = GC.head s /\ GC.threads_in_pop s' = GC.threads_in_pop s /\
    GC.to_be_deleted s' = Some first /\
    GC.linked (GC.heap s') (Some first) (l ++ l0) /\
    dom (GC.heap s') = dom (GC.heap s).
Proof. apply gc_chain_pending. Qed.

Lemma gc_chain_pending_splices_witness :
  exists s',
    GC.steps (replicate 4 env_quiet)
      (GC.ChainWalk 1%positive 1%positive (GC.DeleteOld None (@None nat)))
      (GC.Shared None 2 (Some 3%positive)
         (<[1%positive := GC.Node None (Some 2%positive)]>
            (<[2%positive := GC.Node None None]>
               {[ 3%positive := GC.Node None None ]})))
    = Some (GC.DeleteOld None None, s') /\
    GC.to_be_deleted s' = Some 1%positive /\
    GC.linked (GC.heap s') (Some 1%positive) [1%positive; 2%positive; 3%positive].
Proof.
  destruct (gc_chain_pending_splices nat 1%positive [1%positive; 2%positive]
              [3%positive] (GC.DeleteOld None None)
              (GC.Shared None 2 (Some 3%positive)
                 (<[1%positive := GC.Node None (Some 2%positive)]>
                    (<[2%positive := GC.Node None None]>
                       {[ 3%positive := GC.Node None None ]})))
              (replicate 4 env_quiet))
    as (s' & Hrun & _ & _ & Hroot & Hl & _).
  - simpl. split; [reflexivity|]. eexists. split; [reflexivity|]. simpl.
    split; [reflexivity|]. eexists. split; reflexivity.
  - simpl. split; [reflexivity|]. eexists. split; reflexivity.
  - intros a Ha Hb. apply list_elem_of_singleton in Hb. subst a.
    apply (bool_decide_unpack (3%positive ∉ [1%positive; 2%positive]));
      [vm_compute; exact I|done].
  - repeat constructor.
  - reflexivity.
  - exists s'. split; [exact Hrun|]. split; [exact Hroot|exact Hl].
Defined.

(** X16.  [lock_free_stack] with any number of threads pushing and popping
    in any interleaving.  Every configuration the program reaches holds a
    well-formed stack [l], and every step of every thread changes it as a
    sequential stack would, at one instant of the call: the
    compare-exchange of [push] that succeeds puts the thread's node on top;
    the compare-exchange of [pop] that succeeds takes the top node off, and
    it is that node the thread goes on to return the payload of; a [pop]
    reads a null head only when the stack is empty; every other step
    leaves the stack as it is. *)
Theorem ls_threads_linearizable (T : Type) (c : LT.config T) :
  LT.reachable c ->
  exists l,
    LT.stack (LS.heap (LT.mem c)) (LS.head (LT.mem c)) l /\
    forall t a c',
      LT.gstep t a c = Some c' ->
      exists l',
        LT.stack (LS.heap (LT.mem c')) (LS.head (LT.mem c')) l' /\
        LT.effect (LT.threads c t) (LT.threads c' t) (LS.heap (LT.mem c')) l l'.
Proof.
  intros [l Hinv]%lt_reachable_inv. exists l.
  split; [by apply (LT.inv_stack _ _ Hinv)|].
  intros t a c' Hg.
  destruct (lt_inv_step c l t a c' Hinv Hg) as (l' & Hinv' & Heff).
  exists l'. split; [by apply (LT.inv_stack _ _ Hinv')|done].
Qed.

Lemma ls_threads_linearizable_witness :
  exists c,
    LT.grun LT.two_threads (LT.Config LS.empty_stack (fun _ => None)) = Some c /\
    exists l,
      LT.stack (LS.heap (LT.mem c)) (LS.head (LT.mem c)) l /\
      forall t a c',
        LT.gstep t a c = Some c' ->
        exists l',
          LT.stack (LS.heap (LT.mem c')) (LS.head (LT.mem c')) l' /\
          LT.effect (LT.threads c t) (LT.threads c' t) (LS.heap (LT.mem c')) l l'.
Proof.
  destruct (LT.grun LT.two_threads (LT.Config LS.empty_stack (fun _ => None)))
    as [c|] eqn:Hrun; [|by vm_compute in Hrun].
  exists c. split; [done|].
  apply (ls_threads_linearizable nat c
           (lt_grun_reachable _ _ _
              (LT.reachable_initial LS.empty_stack [] eq_refl) Hrun)).
Defined.

(** X17.  [lock_free_stack] never follows a dangling pointer: in every
    reachable configuration, every thread that is inside [push] or [pop] has
    a defined next step, whatever the other threads have done, provided
    [new] returns memory that is not in use. *)
Theorem ls_threads_never_stuck (T : Type) (c : LT.config T)
    (t : LT.thread_id) (p : LS.pc T) (e : env) :
  LT.reachable c -> LT.threads c t = Some p -> LS.final p = false ->
  (forall a, alloc e = Some a -> LS.heap (LT.mem c) !! a = None) ->
  is_Some (LT.gstep t (LT.Run e) c).
Proof.
  intros [l Hinv]%lt_reachable_inv. by apply lt_inv_progress with l.
Qed.

Lemma ls_threads_never_stuck_witness :
  exists c,
    LT.grun LT.two_threads (LT.Config LS.empty_stack (fun _ => None)) = Some c /\
    is_Some (LT.gstep 0%nat (LT.Run env_quiet) c).
Proof.
  destruct (LT.grun LT.two_threads (LT.Config LS.empty_stack (fun _ => None)))
    as [c|] eqn:Hrun; [|by vm_compute in Hrun].
  exists c. split; [done|].
  apply (ls_threads_never_stuck nat c 0%nat (LS.PopCas 2%positive None) env_quiet
           (lt_grun_reachable _ _ _
              (LT.reachable_initial LS.empty_stack [] eq_refl) Hrun)).
  - vm_compute in Hrun. injection Hrun as <-. reflexivity.
  - reflexivity.
  - intros a Ha. discriminate Ha.
Defined.

(** X18.  [lock_free_stack]: a node that is allocated and is not the
    private node of a [push] under way is never written again, by any step
    of any thread, and never becomes private: a published node keeps its
    payload and its successor for good, and nothing is freed. *)
Theorem ls_published_node_frozen (T : Type) (t : LT.thread_id)
    (a : LT.action T) (c c' : LT.config T) (a0 : loc) (n : LS.node T) :
  LT.gstep t a c = Some c' ->
  LS.heap (LT.mem c) !! a0 = Some n -> ~ LT.private c a0 ->
  LS.heap (LT.mem c') !! a0 = Some n /\ ~ LT.private c' a0.
Proof. apply lt_step_published. Qed.

Lemma ls_published_node_frozen_witness :
  LS.heap
    (LT.mem
       (LT.Config
          (LS.Shared (Some 1%positive)
             (<[1%positive := LS.Node (Some 5%nat) (Some 2%positive)]>
                {[ 2%positive := LS.Node (Some 6%nat) None ]}))
          (<[1%nat := Some LS.PushDone]>
             (<[1%nat := Some (LS.PushCas 1%positive)]> (fun _ => None)))))
  !! 2%positive = Some (LS.Node (Some 6%nat) None) /\
  ~ LT.private
      (LT.Config
         (LS.Shared (Some 1%positive)
            (<[1%positive := LS.Node (Some 5%nat) (Some 2%positive)]>
               {[ 2%positive := LS.Node (Some 6%nat) None ]}))
         (<[1%nat := Some LS.PushDone]>
            (<[1%nat := Some (LS.PushCas 1%positive)]> (fun _ => None))))
      2%positive.
Proof.
  refine (ls_published_node_frozen nat 1%nat (LT.Run env_quiet)
            (LT.Config
               (LS.Shared (Some 2%positive)
                  (<[1%positive := LS.Node (Some 5%nat) (Some 2%positive)]>
                     {[ 2%positive := LS.Node (Some 6%nat) None ]}))
               (<[1%nat := Some (LS.PushCas 1%positive)]> (fun _ => None)))
            _ 2%positive (LS.Node (Some 6%nat) None) _ _ _).
  - vm_compute. reflexivity.
  - reflexivity.
  - intros (t3 & p3 & Hp3 & Hu3). simpl in Hp3.
    destruct (decide (t3 = 1%nat)) as [->|Hne].
    + rewrite fn_lookup_insert in Hp3. injection Hp3 as <-. discriminate Hu3.
    + rewrite fn_lookup_insert_ne in Hp3 by done. discriminate Hp3.
Defined.

(** X19.  [delete_nodes_with_no_hazards] (lines 235-251), run with no other
    thread running, on a retire list of entries for distinct allocated
    nodes: it returns after visiting each entry once, and has deleted every
    entry and the node of every entry, whatever the hazard-pointer table
    holds; the retire list is empty afterwards.  No entry is ever put
    back. *)
Theorem hazard_reclaim_frees_all (T : Type) (t : HZ.thread_id)
    (hp_ : option nat) (s : HZ.shared T) (res : option T)
    (l : list (loc * loc)) (es0 es : list env) :
  hz_retired (HZ.reclaim_heap s) (HZ.nodes_to_reclaim s) l ->
  NoDup l.*2 -> (forall a, a ∈ l.*2 -> is_Some (HZ.heap s !! a)) ->
  length es0 = (2 * length l + 2)%nat ->
  HZ.exec (es0 ++ es) t (HZ.Local hp_ (HZ.ReclaimExchange res)) s
  = Some (HZ.Local hp_ (HZ.PopDone res),
          HZ.Shared (HZ.head s) (foldr delete (HZ.heap s) l.*2)
            (HZ.hazard_pointers s) None
            (foldr delete (HZ.reclaim_heap s) l.*1),
          es).
Proof. apply hz_reclaim_all. Qed.

Lemma hazard_reclaim_frees_all_witness :
  HZ.exec (replicate 4 env_quiet ++ []) 0%nat
    (HZ.Local (Some 0%nat) (HZ.ReclaimExchange None))
    (HZ.Shared None HZ.one_node
       [HZ.HazardPointer (Some 1%nat) (Some 1%positive)] (Some 5%positive)
       {[ 5%positive := HZ.DataToReclaim (Some 1%positive) None ]})
  = Some (HZ.Local (Some 0%nat) (HZ.PopDone None),
          HZ.Shared None ∅
            [HZ.HazardPointer (Some 1%nat) (Some 1%positive)] None ∅,
          []).
Proof.
  refine (eq_trans
            (hazard_reclaim_frees_all nat 0%nat (Some 0%nat)
               (HZ.Shared None HZ.one_node
                  [HZ.HazardPointer (Some 1%nat) (Some 1%positive)]
                  (Some 5%positive)
                  {[ 5%positive := HZ.DataToReclaim (Some 1%positive) None ]})
               None [(5%positive, 1%positive)] (replicate 4 env_quiet) []
               _ _ _ _) _).
  - simpl. split; [reflexivity|]. eexists. split; reflexivity.
  - apply (bool_decide_unpack (NoDup [1%positive])). vm_compute. exact I.
  - intros a Ha. apply list_elem_of_singleton in Ha. subst a.
    eexists. reflexivity.
  - reflexivity.
  - vm_compute. reflexivity.
Defined.

(** X20.  [reclaim_later(old_head)] (lines 230-234, with
    [add_to_reclaim_list], lines 222-226), run with no other thread running
    and [new] returning an unused address: after three steps a new entry
    for the node is at the front of the retire list, followed by the
    entries that were there; the stack, its nodes and the hazard-pointer
    table are as they were. *)
Theorem hazard_reclaim_later_prepends (T : Type) (t : HZ.thread_id)
    (hp_ : option nat) (s : HZ.shared T) (a : loc) (res : option T)
    (c : loc) (e1 e2 e3 : env) (l : list (loc * loc)) :
  alloc e1 = Some c -> HZ.reclaim_heap s !! c = None -> spurious e3 = false ->
  hz_retired (HZ.reclaim_heap s) (HZ.nodes_to_reclaim s) l ->
  exists s',
    hz_steps [e1; e2; e3] t (HZ.Local hp_ (HZ.RetireNew a res)) s
    = Some (HZ.Local hp_ (HZ.ReclaimExchange res), s') /\
    HZ.head s' = HZ.head s /\ HZ.heap s' = HZ.heap s /\
    HZ.hazard_pointers s' = HZ.hazard_pointers s /\
    HZ.nodes_to_reclaim s' = Some c /\
    hz_retired (HZ.reclaim_heap s') (HZ.nodes_to_reclaim s') ((c, a) :: l).
Proof. apply hz_reclaim_later. Qed.

Lemma hazard_reclaim_later_prepends_witness :
  exists s',
    hz_steps [env_alloc 6%positive; env_quiet; env_quiet] 0%nat
      (HZ.Local (Some 0%nat) (HZ.RetireNew 2%positive (Some 8%nat)))
      (HZ.Shared None
         (<[2%positive := HZ.Node None None]> HZ.one_node)
         [HZ.HazardPointer (Some 0%nat) None] (Some 5%positive)
         {[ 5%positive := HZ.DataToReclaim (Some 1%positive) None ]})
    = Some (HZ.Local (Some 0%nat) (HZ.ReclaimExchange (Some 8%nat)), s') /\
    HZ.nodes_to_reclaim s' = Some 6%positive /\
    hz_retired (HZ.reclaim_heap s') (HZ.nodes_to_reclaim s')
      [(6%positive, 2%positive); (5%positive, 1%positive)].
Proof.
  destruct (hazard_reclaim_later_prepends nat 0%nat (Some 0%nat)
              (HZ.Shared None
                 (<[2%positive := HZ.Node None None]> HZ.one_node)
                 [HZ.HazardPointer (Some 0%nat) None] (Some 5%positive)
                 {[ 5%positive := HZ.DataToReclaim (Some 1%positive) None ]})
              2%positive (Some 8%nat) 6%positive
              (env_alloc 6%positive) env_quiet env_quiet
              [(5%positive, 1%positive)])
    as (s' & Hrun & _ & _ & _ & Hroot & Hl).
  - reflexivity.
  - reflexivity.
  - reflexivity.
  - simpl. split; [reflexivity|]. eexists. split; reflexivity.
  - exists s'. split; [exact Hrun|]. split; [exact Hroot|exact Hl].
Defined.
